(** * ehco: the multiplexed-websocket relay (internal/relay/mwss.go)

    A shallow embedding of the client-side session pool
    ([mwssTransporter.Dial]), of the server-side multiplexing loop
    ([MWSSServer.mux]), of the accept loop of [Relay.RunLocalMWSSServer]
    and of the two relay handlers, together with the properties of the
    design document that concern them. *)

From stdpp Require Import gmap strings list fin_maps.
From Stdlib Require Import ZArith.

Local Open Scope Z_scope.

(** A Go [error] value, as far as the relay looks at it: a message, whether
    the value implements [net.Error], and what [Temporary()] then answers. *)
Record error := Error { err_msg : string; err_net : bool; err_temporary : bool }.

#[global] Instance error_eq_dec : EqDecision error.
Proof. solve_decision. Defined.

(** * Go slices of [*muxSession] over a heap of backing arrays

    [Dial] edits its local slice with [append], and [append] writes into
    the backing array whenever the capacity allows it.  The slice stored in
    [tr.sessions] shares that array, so the heap of arrays is explicit. *)
Module GoSlice.

(** A [*muxSession]: the address of a session object, or nil. *)
Abbreviation sid := nat.
Abbreviation ptr := (option nat).

(** The address of a backing array, and the heap of these arrays. *)
Abbreviation loc := nat.
Abbreviation heap := (list (list (option nat))).

(** A slice header: backing array, length and capacity. *)
Record slice := Slice { sl_arr : loc; sl_len : nat; sl_cap : nat }.

#[global] Instance slice_eq_dec : EqDecision slice.
Proof. solve_decision. Defined.

(** The nil slice: length and capacity 0, so its array is never read. *)
Definition nil_slice : slice := Slice 0%nat 0%nat 0%nat.

Definition array_at (h : heap) (a : loc) : list ptr := default [] (h !! a).

(** The elements a slice gives access to: [s[0], ..., s[len(s)-1]]. *)
Definition sl_elems (h : heap) (s : slice) : list ptr :=
  take (sl_len s) (array_at h (sl_arr s)).

(** [s[:i]]: same array and capacity, length [i]. *)
Definition slice_to (s : slice) (i : nat) : slice :=
  Slice (sl_arr s) i (sl_cap s).

(** The values of [s[i:]], as [append] reads them before it writes
    (the runtime copies with memmove, so an overlapping source is read
    as it was). *)
Definition slice_from (h : heap) (s : slice) (i : nat) : list ptr :=
  drop i (sl_elems h s).

Section Append.
(** The capacity the runtime picks when [append] has to reallocate, from
    the old capacity and the length needed.  The language only promises
    a sufficiently large array, so the policy is left open. *)
Variable growcap : nat → nat → nat.

(** [append(s, vals...)]: in place when the capacity suffices, else into
    a new zeroed array holding the old elements and the new ones. *)
Definition append (h : heap) (s : slice) (vals : list ptr) : heap * slice :=
  let n := (sl_len s + length vals)%nat in
  if decide (n ≤ sl_cap s)%nat then
    (alter (list_inserts (sl_len s) vals) (sl_arr s) h,
     Slice (sl_arr s) n (sl_cap s))
  else
    let c := (n `max` growcap (sl_cap s) n)%nat in
    (h ++ [sl_elems h s ++ vals ++ replicate (c - n) None],
     Slice (length h) n c).
End Append.

(** A slice header fits the heap: its length is within its capacity and
    its capacity within its backing array. *)
Definition wf_slice (h : heap) (s : slice) : Prop :=
  (sl_len s ≤ sl_cap s ∧ sl_cap s ≤ length (array_at h (sl_arr s)))%nat.

(** Every array of [h'] is at least as long as in [h]. *)
Definition heap_le (h h' : heap) : Prop :=
  ∀ a, (length (array_at h a) ≤ length (array_at h' a))%nat.

(** The policy of the gc runtime for small slices, for closed examples:
    twice the old capacity ([append] takes at least what it needs). *)
Definition double_cap (cap need : nat) : nat := (2 * cap)%nat.

End GoSlice.

(** * The client-side session pool *)
Module Pool.
Import GoSlice.

(** Modelled from the spec: the Secure Tunnel Session.  The type
    [muxSession] and its methods [NumStreams], [IsClosed], [GetConn] and
    [Close] are not in mwss.go.  Of a session the pool reads the count of
    live logical streams, the configured maximum and whether the
    multiplexer has been torn down. *)
Record muxSession := MuxSession {
  numStreams : Z;
  maxStreamCnt : Z;
  closed : bool
}.

#[global] Instance muxSession_eq_dec : EqDecision muxSession.
Proof. solve_decision. Defined.

(** The transporter with the memory it points into: [tr.sessions], the
    backing arrays of its slices, and the session objects. *)
Record state := State {
  tr_sessions : gmap string slice;
  arrays : heap;
  objs : list muxSession
}.

(** [NewMWSSTransporter]: an empty map. *)
Definition NewMWSSTransporter : state := State ∅ [] [].

Definition deref (σ : list muxSession) (s : sid) : muxSession :=
  default (MuxSession 0 0 false) (σ !! s).

(** Modelled from the spec: [NumStreams()], the current count of live
    logical streams, and [IsClosed()]. *)
Definition NumStreams (σ : list muxSession) (s : sid) : Z := numStreams (deref σ s).
Definition IsClosed (σ : list muxSession) (s : sid) : bool := closed (deref σ s).

(** Modelled from the spec: [Close()] tears the session down, and closing
    a session invalidates all the logical streams derived from it, so
    that none is live any more; idempotent. *)
Definition Close (σ : list muxSession) (s : sid) : list muxSession :=
  alter (λ m, MuxSession 0 (maxStreamCnt m) true) s σ.

(** Modelled from the spec: a successful [GetConn()] adds one live
    logical stream to the session. *)
Definition open_stream (σ : list muxSession) (s : sid) : list muxSession :=
  alter (λ m, MuxSession (numStreams m + 1) (maxStreamCnt m) (closed m)) s σ.

(** A pointer is nil or the address of an allocated session. *)
Definition valid (σ : list muxSession) (p : ptr) : Prop :=
  ∀ s, p = Some s → (s < length σ)%nat.

(** The state a running program can be in: every stored slice fits the
    heap, and no array holds a dangling pointer. *)
Record wf (st : state) : Prop := {
  wf_slices : ∀ addr sl, tr_sessions st !! addr = Some sl → wf_slice (arrays st) sl;
  wf_ptrs : Forall (Forall (valid (objs st))) (arrays st)
}.

(** The session has room for one more stream. *)
Definition fits (σ : list muxSession) (s : sid) : Prop :=
  NumStreams σ s < maxStreamCnt (deref σ s).

#[global] Instance fits_dec σ s : Decision (fits σ s).
Proof. unfold fits. apply _. Defined.

(** What the network answers during one [Dial]: the outcome of
    [initSession] and of [GetConn], should they be called
    ([None]: no error). *)
Record DialIO := { io_initSession : option error; io_GetConn : option error }.

(** The logical stream handed to the caller, named by its session and by
    the number of live streams of that session once it is open. *)
Record Conn := { conn_session : sid; conn_stream : Z }.

Inductive outcome :=
| Returned (conn : Conn)
| Failed (err : error)
| Panicked.

Inductive event :=
| EvLock
| EvUnlock
| EvIsClosed (s : sid) (b : bool)
| EvInitSession (addr : string) (err : option error)
| EvGetConn (s : sid) (err : option error)
| EvClose (s : sid)
| EvStore (addr : string) (sl : slice).

#[global] Instance event_eq_dec : EqDecision event.
Proof. solve_decision. Defined.

(** The result of the [for ... range sessions] loop: the values of
    [sessionIndex], [session] and [ok] after it, or a nil dereference. *)
Inductive scan_result :=
| ScanDone (sessionIndex : nat) (session : ptr) (ok : bool)
| ScanPanic.

Fixpoint range_sessions (σ : list muxSession) (i : nat) (l : list ptr)
    (sessionIndex : nat) (session : ptr) (ok : bool) : scan_result :=
  match l with
  | [] => ScanDone sessionIndex session ok
  | None :: _ => ScanPanic
  | Some s :: l' =>
      if decide (NumStreams σ s >= maxStreamCnt (deref σ s))
      then range_sessions σ (S i) l' i (Some s) false
      else ScanDone i (Some s) true
  end.

Section Dial.
(** The capacity policy of [append], as in [GoSlice.append]. *)
Variable growcap : nat → nat → nat.
(** The constant [MaxMWSSStreamCnt], declared outside mwss.go. *)
Variable MaxMWSSStreamCnt : Z.

(** [initSession] on success: a new open session without streams. *)
Definition initSession (σ : list muxSession) : list muxSession * sid :=
  (σ ++ [MuxSession 0 MaxMWSSStreamCnt false], length σ).

(** [append(sessions[:sessionIndex], sessions[sessionIndex+1:]...)]. *)
Definition evict (h : heap) (sessions : slice) (sessionIndex : nat) : heap * slice :=
  append growcap h (slice_to sessions sessionIndex)
    (slice_from h sessions (S sessionIndex)).

(** [sessions, ok := tr.sessions[addr]]: a missing key reads as the nil
    slice. *)
Definition lookup_sessions (st : state) (addr : string) : slice * bool :=
  match tr_sessions st !! addr with
  | Some sl => (sl, true)
  | None => (nil_slice, false)
  end.

(** The body of [Dial], between taking the lock and the deferred
    unlock. *)
Definition Dial_body (st : state) (addr : string) (io : DialIO)
    : state * outcome * list event :=
  let '(sessions, ok) := lookup_sessions st addr in
  (* find a session that can be used *)
  match range_sessions (objs st) 0 (sl_elems (arrays st) sessions) 0 None ok with
  | ScanPanic => (st, Panicked, [])
  | ScanDone sessionIndex session ok =>
      (* delete the session that is already closed *)
      let '(h, sessions, ok, ev1) :=
        match session with
        | Some s =>
            if IsClosed (objs st) s then
              let '(h, sl) := evict (arrays st) sessions sessionIndex in
              (h, sl, false, [EvIsClosed s true])
            else (arrays st, sessions, ok, [EvIsClosed s false])
        | None => (arrays st, sessions, ok, [])
        end in
      (* create a new session *)
      let created :=
        if ok then inr (h, objs st, sessions, session, [])
        else
          match io_initSession io with
          | Some err => inl err
          | None =>
              let '(σ, s) := initSession (objs st) in
              let '(h, sl) := append growcap h sessions [Some s] in
              inr (h, σ, sl, Some s, [EvInitSession addr None])
          end in
      match created with
      | inl err =>
          (State (tr_sessions st) h (objs st), Failed err,
           ev1 ++ [EvInitSession addr (Some err)])
      | inr (h, σ, sessions, session, ev2) =>
          match session with
          | None => (State (tr_sessions st) h σ, Panicked, ev1 ++ ev2)
          | Some s =>
              match io_GetConn io with
              | Some err =>
                  (State (tr_sessions st) h (Close σ s), Failed err,
                   ev1 ++ ev2 ++ [EvGetConn s (Some err); EvClose s])
              | None =>
                  let σ := open_stream σ s in
                  (State (<[addr := sessions]> (tr_sessions st)) h σ,
                   Returned {| conn_session := s; conn_stream := NumStreams σ s |},
                   ev1 ++ ev2 ++ [EvGetConn s None; EvStore addr sessions])
              end
          end
      end
  end.

(** *** The paths through [Dial]

    The body of [Dial] again, one definition for each way through it;
    [PoolProps.Dial_body_paths] proves that [Dial_body] is made of them. *)

(** The stream is asked of a session [s] of the stored sequence. *)
Definition reuse (st : state) (addr : string) (io : DialIO) (sessions : slice)
    (s : sid) : state * outcome * list event :=
  match io_GetConn io with
  | Some err =>
      (State (tr_sessions st) (arrays st) (Close (objs st) s), Failed err,
       [EvIsClosed s false; EvGetConn s (Some err); EvClose s])
  | None =>
      let σ := open_stream (objs st) s in
      (State (<[addr := sessions]> (tr_sessions st)) (arrays st) σ,
       Returned {| conn_session := s; conn_stream := NumStreams σ s |},
       [EvIsClosed s false; EvGetConn s None; EvStore addr sessions])
  end.

(** A session is opened, appended to the local slice [sessions] over
    the heap [h], and asked for the stream. *)
Definition create (st : state) (addr : string) (io : DialIO) (h : heap)
    (sessions : slice) (ev1 : list event) : state * outcome * list event :=
  match io_initSession io with
  | Some err =>
      (State (tr_sessions st) h (objs st), Failed err,
       ev1 ++ [EvInitSession addr (Some err)])
  | None =>
      let n := length (objs st) in
      let σ := objs st ++ [MuxSession 0 MaxMWSSStreamCnt false] in
      let hs := append growcap h sessions [Some n] in
      match io_GetConn io with
      | Some err =>
          (State (tr_sessions st) hs.1 (Close σ n), Failed err,
           ev1 ++ [EvInitSession addr None; EvGetConn n (Some err); EvClose n])
      | None =>
          (State (<[addr := hs.2]> (tr_sessions st)) hs.1 (open_stream σ n),
           Returned {| conn_session := n;
                       conn_stream := NumStreams (open_stream σ n) n |},
           ev1 ++ [EvInitSession addr None; EvGetConn n None; EvStore addr hs.2])
      end
  end.

(** [Dial]: lock, body, and the deferred unlock, which runs on every
    way out, a panic included. *)
Definition Dial (st : state) (addr : string) (io : DialIO)
    : state * outcome * list event :=
  let '(st', out, ev) := Dial_body st addr io in
  (st', out, EvLock :: ev ++ [EvUnlock]).

End Dial.

(** The stored sequence of a destination, as a reader of [tr.sessions]
    sees it. *)
Definition stored (st : state) (addr : string) : option (list ptr) :=
  sl_elems (arrays st) <$> tr_sessions st !! addr.

(** The scan of [Dial] on the stored sequence of [addr]. *)
Definition scan (st : state) (addr : string) : scan_result :=
  let '(sessions, ok) := lookup_sessions st addr in
  range_sessions (objs st) 0 (sl_elems (arrays st) sessions) 0 None ok.

(** ** The lock

    Each event of a trace with whether [tr.sessionMutex] is held when it
    happens, from whether it is held at the start. *)
Fixpoint lock_held (held : bool) (tr : list event) : list (event * bool) :=
  match tr with
  | [] => []
  | EvLock :: tr' => (EvLock, held) :: lock_held true tr'
  | EvUnlock :: tr' => (EvUnlock, held) :: lock_held false tr'
  | ev :: tr' => (ev, held) :: lock_held held tr'
  end.

Definition is_stream_request (ev : event) : bool :=
  match ev with EvGetConn _ _ => true | _ => false end.

(** Every request for a logical stream happens while the lock is free. *)
Definition requests_outside_lock (tr : list event) : Prop :=
  Forall (λ p, is_stream_request p.1 = true → p.2 = false) (lock_held false tr).

(** Everything but the taking of the lock happens while it is held. *)
Definition all_under_lock (tr : list event) : Prop :=
  Forall (λ p, p.1 ≠ EvLock → p.2 = true) (lock_held false tr).

(** An event of the body of [Dial]: not an operation on the lock. *)
Definition not_lock_event (ev : event) : Prop := ev ≠ EvLock ∧ ev ≠ EvUnlock.

(** ** The pool over time *)

(** What happens to the pool: a call of [Dial] or, between two calls, the
    end of a logical stream or the tear-down of a multiplexer. *)
Inductive step :=
| StepDial (addr : string) (io : DialIO)
| StepStreamEnds (s : sid)
| StepSessionCloses (s : sid).

(** Modelled from the spec: the end of a logical stream takes one off the
    count of live streams of its session and never closes the session.  A
    tear-down is [Close]: a closed session stays closed, without a live
    stream. *)
Definition stream_ends (σ : list muxSession) (s : sid) : list muxSession :=
  alter (λ m, MuxSession (Z.max 0 (numStreams m - 1)) (maxStreamCnt m) (closed m)) s σ.

(** Modelled from the spec: [Close()] of the logical stream [conn] ends
    it, and its session has one live stream less. *)
Definition close_stream (conn : Conn) (st : state) : state :=
  State (tr_sessions st) (arrays st) (stream_ends (objs st) (conn_session conn)).

Section Run.
Variable growcap : nat → nat → nat.
Variable MaxMWSSStreamCnt : Z.

Definition do_step (st : state) (x : step) : state * list outcome * list event :=
  match x with
  | StepDial addr io =>
      let '(st', out, ev) := Dial growcap MaxMWSSStreamCnt st addr io in
      (st', [out], ev)
  | StepStreamEnds s =>
      (State (tr_sessions st) (arrays st) (stream_ends (objs st) s), [], [])
  | StepSessionCloses s =>
      (State (tr_sessions st) (arrays st) (Close (objs st) s), [], [])
  end.

(** The final state, the outcomes of the calls of [Dial] and the events
    of the whole run, each in order. *)
Fixpoint run (st : state) (script : list step) : state * list outcome * list event :=
  match script with
  | [] => (st, [], [])
  | x :: rest =>
      let '(st1, out1, ev1) := do_step st x in
      let '(st2, out2, ev2) := run st1 rest in
      (st2, out1 ++ out2, ev1 ++ ev2)
  end.
End Run.

(** ** Inputs of the examples *)

(** The network answers every call. *)
Definition io_ok : DialIO := {| io_initSession := None; io_GetConn := None |}.

Definition broken : error := Error "stream refused" false false.
Definition io_no_stream : DialIO := {| io_initSession := None; io_GetConn := Some broken |}.
Definition io_no_session : DialIO := {| io_initSession := Some broken; io_GetConn := None |}.

(** A pool whose only session for "D" carries two streams of two. *)
Definition pool_full : state :=
  State {[ "D" := Slice 0 1 1 ]} [[Some 0%nat]] [MuxSession 2 2 false].

(** A pool whose only session for "D" carries one stream of two. *)
Definition pool_one : state :=
  State {[ "D" := Slice 0 1 1 ]} [[Some 0%nat]] [MuxSession 1 2 false].

(** The pool after one dial to "D" whose session was then torn down. *)
Definition pool_closed : state :=
  (run double_cap 2 NewMWSSTransporter [StepDial "D" io_ok; StepSessionCloses 0]).1.1.

(** Three sessions for "D" in an array of four cells; the second session
    is closed and has no stream, the first is full. *)
Definition pool_three : state :=
  State {[ "D" := Slice 0 3 4 ]}
    [[Some 0%nat; Some 1%nat; Some 2%nat; None]]
    [MuxSession 2 2 false; MuxSession 0 2 true; MuxSession 1 2 false].

(** ** What holds of every pool a program can reach *)

(** Every stored sequence has a session, none of its sessions is nil, and
    two destinations never share a backing array. *)
Record pool_inv (st : state) : Prop := {
  inv_wf : wf st;
  inv_nonempty : ∀ addr sl, tr_sessions st !! addr = Some sl → (0 < sl_len sl)%nat;
  inv_nonnil : ∀ addr sl,
    tr_sessions st !! addr = Some sl → Forall is_Some (sl_elems (arrays st) sl);
  inv_sep : ∀ a b sla slb,
    a ≠ b → tr_sessions st !! a = Some sla → tr_sessions st !! b = Some slb →
    sl_arr sla ≠ sl_arr slb
}.

(** The heap [h'] comes from [h] by writes of a [Dial] to [addr]: no array
    got shorter or was dropped, the stored sequences of the other
    destinations read the same, and no stored sequence got a nil. *)
Definition benign (addr : string) (m : gmap string slice) (h h' : heap) : Prop :=
  heap_le h h' ∧ (length h ≤ length h')%nat ∧
  ∀ a t, m !! a = Some t →
    (a ≠ addr → sl_elems h' t = sl_elems h t) ∧
    (Forall is_Some (sl_elems h t) → Forall is_Some (sl_elems h' t)).

(** What a call of [Dial] hands on: a heap that is a benign change of the
    old one, and the old map, or the old map with a new entry for [addr]
    that is not empty, has no nil and shares its array with no other
    destination. *)
Definition handed_on (st st' : state) (addr : string) : Prop :=
  benign addr (tr_sessions st) (arrays st) (arrays st') ∧
  (tr_sessions st' = tr_sessions st ∨
   ∃ sl, tr_sessions st' = <[addr := sl]> (tr_sessions st) ∧
         (0 < sl_len sl)%nat ∧ Forall is_Some (sl_elems (arrays st') sl) ∧
         ∀ b slb, b ≠ addr → tr_sessions st !! b = Some slb → sl_arr slb ≠ sl_arr sl).

(** ** The outcome of [Dial] and the answers of the network *)

(** An outcome that the answers [io] of the network account for: a stream
    only when [GetConn] gave one, on a session that is open in [σ]; an
    error only when it is the one [initSession] or [GetConn] gave; no
    panic. *)
Definition outcome_explained (io : DialIO) (σ : list muxSession) (out : outcome) : Prop :=
  match out with
  | Returned conn => io_GetConn io = None ∧ IsClosed σ (conn_session conn) = false
  | Failed err => io_initSession io = Some err ∨ io_GetConn io = Some err
  | Panicked => False
  end.

(** ** Sessions and destinations *)

(** No session is in the backing arrays of two destinations. *)
Definition unshared (st : state) : Prop :=
  ∀ a b sla slb s,
    a ≠ b → tr_sessions st !! a = Some sla → tr_sessions st !! b = Some slb →
    Some s ∈ array_at (arrays st) (sl_arr sla) →
    Some s ∉ array_at (arrays st) (sl_arr slb).

(** The heap [h] comes from [h0] by writes to the array [loc0] and to new
    arrays only, and every session found there satisfies [P]. *)
Definition owns (h0 : heap) (loc0 : option loc) (P : sid → Prop) (h : heap) : Prop :=
  (length h0 ≤ length h)%nat ∧
  (∀ a, (a < length h0)%nat → Some a ≠ loc0 → array_at h a = array_at h0 a) ∧
  (∀ a s, Some a = loc0 ∨ (length h0 ≤ a)%nat → Some s ∈ array_at h a → P s).

(** A session of the destination [addr] before a call of [Dial], or the
    session the call may open. *)
Definition session_of (st : state) (addr : string) (s : sid) : Prop :=
  (∃ s0, tr_sessions st !! addr = Some s0 ∧ Some s ∈ array_at (arrays st) (sl_arr s0)) ∨
  s = length (objs st).

(** What a call of [Dial] for [addr] may have written, and where the
    slice it stored lies. *)
Definition written (st st' : state) (addr : string) : Prop :=
  let loc0 := sl_arr <$> tr_sessions st !! addr in
  owns (arrays st) loc0 (session_of st addr) (arrays st') ∧
  (tr_sessions st' = tr_sessions st ∨
   ∃ sl, tr_sessions st' = <[addr := sl]> (tr_sessions st) ∧
         (Some (sl_arr sl) = loc0 ∨ (length (arrays st) ≤ sl_arr sl)%nat)).

(** ** The sessions over time *)

(** A session as the pool keeps it: opened with the maximum [Max], with a
    count of live streams that is not negative and not above the maximum,
    the first stream of a session apart, which is given unconditionally. *)
Definition session_ok (Max : Z) (m : muxSession) : Prop :=
  0 ≤ numStreams m ≤ Z.max 1 Max ∧ maxStreamCnt m = Max.

(** ** A destination whose streams all live on *)

(** [q] sessions with [m] streams of [m], then one open session with [r]
    streams. *)
Definition packed_objs (m q r : nat) : list muxSession :=
  replicate q (MuxSession (Z.of_nat m) (Z.of_nat m) false) ++
  [MuxSession (Z.of_nat r) (Z.of_nat m) false].

(** The pool after [k] streams were given to [addr] alone, at most [m]
    on a session, and none ended: nothing stored before the first, then
    the sessions in the order they were opened, all full but the last. *)
Definition packed (m : nat) (addr : string) (k : nat) (st : state) : Prop :=
  wf st ∧
  match k with
  | O => stored st addr = None ∧ objs st = []
  | S k' =>
      stored st addr = Some (Some <$> seq 0 (S (k' / m))) ∧
      objs st = packed_objs m (k' / m) (k' mod m + 1)
  end.

(** The stream the [k]-th call, counted from 0, is to give. *)
Definition kth_stream (m k : nat) : outcome :=
  Returned {| conn_session := (k / m)%nat; conn_stream := Z.of_nat (k mod m + 1) |}.

End Pool.

(** * Buffered Go channels *)
Module Chan.

(** A channel made with [make(chan A, cap)]: the values buffered, oldest
    first, the capacity, and whether [close] was called. *)
Record chan (A : Type) := Chan { buf : list A; cap : nat; is_closed : bool }.
Arguments Chan {A} _ _ _.
Arguments buf {A} _.
Arguments cap {A} _.
Arguments is_closed {A} _.

Definition make {A} (n : nat) : chan A := Chan [] n false.

Definition full {A} (ch : chan A) : bool := bool_decide (cap ch ≤ length (buf ch))%nat.

(** What a send finds: room in the buffer, or a full buffer, on which a
    plain [ch <- v] parks the goroutine. *)
Inductive send_result (A : Type) :=
| Sent (ch : chan A)
| WouldBlock.
Arguments Sent {A} _.
Arguments WouldBlock {A}.

Definition send {A} (ch : chan A) (v : A) : send_result A :=
  if full ch then WouldBlock
  else Sent (Chan (buf ch ++ [v]) (cap ch) (is_closed ch)).

(** [<-ch] when a value is ready: the oldest buffered value; on a closed
    and drained channel the zero value, here [None]. *)
Definition recv {A} (ch : chan A) : option (option A * chan A) :=
  match buf ch with
  | v :: rest => Some (Some v, Chan rest (cap ch) (is_closed ch))
  | [] => if is_closed ch then Some (None, ch) else None
  end.

Definition close {A} (ch : chan A) : chan A := Chan (buf ch) (cap ch) true.

(** The consumer takes [k] values off the channel. *)
Definition drain {A} (k : nat) (ch : chan A) : chan A :=
  Chan (drop k (buf ch)) (cap ch) (is_closed ch).

End Chan.

(** * The server side: [MWSSServer] *)
Module Server.
Import Chan.

(** A connection the server handles: an inbound physical connection, or
    the logical stream [stream] accepted over the physical connection
    [phys] and wrapped by [newMuxDeadlineStreamConn]. *)
Inductive conn :=
| Phys (id : nat)
| MuxStream (phys : nat) (stream : nat).

#[global] Instance conn_eq_dec : EqDecision conn.
Proof. solve_decision. Defined.

Record MWSSServer := {
  addr : string;
  connChan : chan conn;
  errChan : chan error
}.

(** The server value built by [RunLocalMWSSServer]. *)
Definition newServer (a : string) : MWSSServer :=
  {| addr := a; connChan := make 1024; errChan := make 1 |}.

(** ** The multiplexing loop of [MWSSServer.mux] *)

(** One turn of the loop as the outside drives it: the consumer has taken
    [drained] connections off [connChan] since the turn before, and
    [mux.AcceptStream()] answers with a stream or an error. *)
Record accept_input := { drained : nat; accepted : nat + error }.

Inductive mux_event :=
| MuxAccepted (stream : nat)
| MuxAcceptFailed (err : error) (failedCount : Z)
| MuxEnqueued (cc : conn)
| MuxStreamClosed (cc : conn)
| MuxClosed.

#[global] Instance mux_event_eq_dec : EqDecision mux_event.
Proof. solve_decision. Defined.

(** [Waiting]: the script is used up and the loop sits in
    [AcceptStream]; [Exited]: the loop is over; [Parked]: blocked in a
    channel send. *)
Inductive loop_status := Waiting | Exited | Parked.

Record mux_state := {
  failedCount : Z;
  queue : chan conn;
  mux_trace : list mux_event;
  status : loop_status;
  unread : list accept_input
}.

(** The events [evs] happened before the run that ends in [r]. *)
Definition mux_after (evs : list mux_event) (r : mux_state) : mux_state :=
  {| failedCount := failedCount r; queue := queue r;
     mux_trace := evs ++ mux_trace r;
     status := status r; unread := unread r |}.

(** [select { case s.connChan <- cc: default: cc.Close() }]. *)
Definition offer (q : chan conn) (cc : conn) : chan conn * mux_event :=
  match send q cc with
  | Sent q' => (q', MuxEnqueued cc)
  | WouldBlock => (q, MuxStreamClosed cc)
  end.

(** [for failedCount < 5 { ... }] over the physical connection [phys]. *)
Fixpoint mux_loop (phys : nat) (failedCount : Z) (q : chan conn)
    (script : list accept_input) : mux_state :=
  if decide (failedCount < 5) then
    match script with
    | [] => {| failedCount := failedCount; queue := q; mux_trace := [];
               status := Waiting; unread := [] |}
    | inp :: rest =>
        let q := drain (drained inp) q in
        match accepted inp with
        | inr err =>
            (* failedCount++; break *)
            {| failedCount := failedCount + 1; queue := q;
               mux_trace := [MuxAcceptFailed err failedCount];
               status := Exited; unread := rest |}
        | inl stream =>
            let cc := MuxStream phys stream in
            let '(q', ev) := offer q cc in
            mux_after [MuxAccepted stream; ev] (mux_loop phys failedCount q' rest)
        end
    end
  else {| failedCount := failedCount; queue := q; mux_trace := [];
          status := Exited; unread := script |}.

(** [MWSSServer.mux]: when [smux.Server] fails the function returns at
    once; otherwise the loop runs and the deferred [mux.Close()] follows
    its exit. *)
Definition mux (phys : nat) (smux_err : option error) (q : chan conn)
    (script : list accept_input) : mux_state :=
  match smux_err with
  | Some _ => {| failedCount := 0; queue := q; mux_trace := [];
                 status := Exited; unread := script |}
  | None =>
      let r := mux_loop phys 0 q script in
      {| failedCount := failedCount r; queue := queue r;
         mux_trace := mux_trace r ++
           match status r with Exited => [MuxClosed] | _ => [] end;
         status := status r; unread := unread r |}
  end.

(** ** The goroutine around [server.Serve] *)

(** [if err != nil { s.errChan <- err }; close(s.errChan)]: a plain send,
    which parks the goroutine when the buffer is full. *)
Definition serve_goroutine (serve_err : option error) (ch : chan error)
    : chan error * loop_status :=
  match serve_err with
  | Some err =>
      match send ch err with
      | Sent ch' => (close ch', Exited)
      | WouldBlock => (ch, Parked)
      end
  | None => (close ch, Exited)
  end.

(** ** [MWSSServer.Accept] *)

Inductive select_case := FromConnChan | FromErrChan.

(** [select { case conn = <-s.connChan: case err = <-s.errChan: }] with
    the case the runtime picks; [None] when that case is not ready. *)
Definition Accept (s : MWSSServer) (c : select_case)
    : option (option conn * option error * MWSSServer) :=
  match c with
  | FromConnChan =>
      match recv (connChan s) with
      | Some (v, ch) =>
          Some (v, None, {| addr := addr s; connChan := ch; errChan := errChan s |})
      | None => None
      end
  | FromErrChan =>
      match recv (errChan s) with
      | Some (e, ch) =>
          Some (None, e, {| addr := addr s; connChan := connChan s; errChan := ch |})
      | None => None
      end
  end.

(** What the goroutines of a running server do to the [MWSSServer]
    value: a multiplexing loop offers a stream, the accept loop
    receives, the serving goroutine reports and closes. *)
Inductive server_step : MWSSServer → MWSSServer → Prop :=
| step_offer s cc :
    server_step s
      {| addr := addr s; connChan := (offer (connChan s) cc).1; errChan := errChan s |}
| step_Accept s c conn err s' :
    Accept s c = Some (conn, err, s') →
    server_step s s'
| step_serve s serve_err ch st :
    serve_goroutine serve_err (errChan s) = (ch, st) →
    server_step s {| addr := addr s; connChan := connChan s; errChan := ch |}.

(** ** The accept loop of [RunLocalMWSSServer] *)

(** [time.Duration]: a signed 64-bit count of nanoseconds. *)
Definition wrap64 (z : Z) : Z := (z + 2 ^ 63) mod 2 ^ 64 - 2 ^ 63.
Definition Millisecond : Z := 1000000.
Definition Second : Z := 1000 * Millisecond.

Inductive accept_event :=
| Slept (d : Z)
| Spawned (c : option conn).

#[global] Instance accept_event_eq_dec : EqDecision accept_event.
Proof. solve_decision. Defined.

Record accept_state := {
  tempDelay : Z;
  accept_trace : list accept_event;
  returned : option error
}.

(** The events [evs] happened before the run that ends in [r]. *)
Definition accept_after (evs : list accept_event) (r : accept_state) : accept_state :=
  {| tempDelay := tempDelay r; accept_trace := evs ++ accept_trace r;
     returned := returned r |}.

(** The new value of [tempDelay] on a temporary error. *)
Definition next_delay (tempDelay : Z) : Z :=
  let d := if decide (tempDelay = 0) then 5 * Millisecond
           else wrap64 (tempDelay * 2) in
  let max := 1 * Second in
  if decide (d > max) then max else d.

(** [if ne, ok := e.(net.Error); ok && ne.Temporary()]. *)
Definition is_temporary (e : error) : bool := err_net e && err_temporary e.

(** The [for] loop around [s.Accept()], over the answers of [Accept]. *)
Fixpoint accept_loop (tempDelay : Z) (script : list (option conn * option error))
    : accept_state :=
  match script with
  | [] => {| tempDelay := tempDelay; accept_trace := []; returned := None |}
  | (conn, Some e) :: rest =>
      if is_temporary e then
        let d := next_delay tempDelay in
        accept_after [Slept d] (accept_loop d rest)
      else {| tempDelay := tempDelay; accept_trace := []; returned := Some e |}
  | (conn, None) :: rest =>
      accept_after [Spawned conn] (accept_loop 0 rest)
  end.

(** ** The vocabulary of the properties *)

Definition is_failure (ev : mux_event) : bool :=
  match ev with MuxAcceptFailed _ _ => true | _ => false end.

(** A turn of the loop in which [AcceptStream] succeeds. *)
Definition accept_ok (p : nat * nat) : accept_input :=
  {| drained := p.1; accepted := inl p.2 |}.

(** The delay the design asks for at the [k]-th consecutive temporary
    failure ([k] from 1): 5ms doubled [k-1] times, at most one second. *)
Definition backoff (k : nat) : Z :=
  Z.min (5 * Millisecond * 2 ^ (Z.of_nat k - 1)) Second.

(** [tempDelay] after [k] consecutive temporary failures. *)
Definition delay_after (k : nat) : Z :=
  match k with O => 0 | S _ => backoff k end.

(** An answer of [Accept] that is an error classified as temporary. *)
Definition temp_failure (x : option conn * option error) : Prop :=
  ∃ e, x.2 = Some e ∧ is_temporary e = true.

(** An answer of [Accept] with a temporary error. *)
Definition temp_err : option conn * option error :=
  (None, Some (Error "accept: too many open files" true true)).

(** ** [MWSSServer.upgrade] *)

(** [upgrade]: when [ws.UpgradeHTTP] fails the handler logs and returns;
    otherwise it runs [mux] on the upgraded connection, wrapped by
    [NewDeadLinerConn]. *)
Definition upgrade (phys : nat) (upgrade_err smux_err : option error) (q : chan conn)
    (script : list accept_input) : mux_state :=
  match upgrade_err with
  | Some _ => {| failedCount := 0; queue := q; mux_trace := [];
                 status := Exited; unread := script |}
  | None => mux phys smux_err q script
  end.

(** ** The accept loop on the server itself *)

(** The [for] loop of [RunLocalMWSSServer] with [s.Accept()] run on the
    channels of the server, for the cases the runtime picks in the
    [select] of [Accept]; a case that is not ready is never picked, so the
    run stops there.  From a channel that is closed and drained [Accept]
    answers a nil connection with a nil error: the loop starts a handler
    on it, [go r.handleMWSSConnToTcp(nil)], which panics at
    [defer c.Close()], and the panic of a goroutine ends the process.  The
    run stops there as well, with that handler as its last event. *)
Fixpoint serve_loop (tempDelay : Z) (s : MWSSServer) (cs : list select_case)
    : accept_state * MWSSServer :=
  match cs with
  | [] => ({| tempDelay := tempDelay; accept_trace := []; returned := None |}, s)
  | c :: cs' =>
      match Accept s c with
      | None => ({| tempDelay := tempDelay; accept_trace := []; returned := None |}, s)
      | Some (conn, Some e, s') =>
          if is_temporary e then
            let d := next_delay tempDelay in
            let '(r, s'') := serve_loop d s' cs' in
            (accept_after [Slept d] r, s'')
          else ({| tempDelay := tempDelay; accept_trace := []; returned := Some e |}, s')
      | Some (conn, None, s') =>
          match conn with
          | Some _ =>
              let '(r, s'') := serve_loop 0 s' cs' in
              (accept_after [Spawned conn] r, s'')
          | None =>
              ({| tempDelay := 0; accept_trace := [Spawned conn]; returned := None |}, s')
          end
      end
  end.

(** ** Reading the traces *)

(** The streams a trace of the multiplexing loop accepts, enqueues and
    closes, each in order. *)
Definition accepted_of (phys : nat) (tr : list mux_event) : list conn :=
  omap (λ ev, match ev with MuxAccepted n => Some (MuxStream phys n) | _ => None end) tr.
Definition enqueued_of (tr : list mux_event) : list conn :=
  omap (λ ev, match ev with MuxEnqueued cc => Some cc | _ => None end) tr.
Definition closed_of (tr : list mux_event) : list conn :=
  omap (λ ev, match ev with MuxStreamClosed cc => Some cc | _ => None end) tr.

(** The connections a trace of the accept loop starts handlers on, and
    the delays it sleeps. *)
Definition spawned_of (tr : list accept_event) : list (option conn) :=
  omap (λ ev, match ev with Spawned c => Some c | _ => None end) tr.
Definition slept_of (tr : list accept_event) : list Z :=
  omap (λ ev, match ev with Slept d => Some d | _ => None end) tr.

(** A turn of the multiplexing loop with an idle consumer. *)
Definition idle (stream : nat) : accept_input := {| drained := 0; accepted := inl stream |}.

(** The turn in which [AcceptStream] fails. *)
Definition refused (inp : accept_input) : bool :=
  match accepted inp with inr _ => true | inl _ => false end.

(** An answer of [Accept] that does not end the loop: a connection, or an
    error that is temporary. *)
Definition goes_on (x : option conn * option error) : Prop :=
  match x.2 with Some e => is_temporary e = true | None => True end.

(** The connections of the answers of [Accept] that carry no error. *)
Definition conns_of (script : list (option conn * option error)) : list (option conn) :=
  omap (λ x, match x.2 with None => Some x.1 | Some _ => None end) script.

End Server.

(** * The relay handlers *)
Module Relay.

(** The connections a handler holds. *)
Inductive netconn :=
| TCPConn (id : nat)
| PoolStream (c : Pool.Conn)
| Accepted (c : Server.conn)
| DeadLinerConn (inner : netconn).

Inductive hevent :=
| HDial (addr : string)
| HNetDial (addr : string)
| HTransport (a b : netconn)
| HClose (c : netconn).

Inductive hresult :=
| HReturn (err : option error)
| HPanic.

#[global] Instance Conn_eq_dec : EqDecision Pool.Conn.
Proof. solve_decision. Defined.

#[global] Instance netconn_eq_dec : EqDecision netconn.
Proof. solve_decision. Defined.

#[global] Instance hevent_eq_dec : EqDecision hevent.
Proof. solve_decision. Defined.

(** The number of times a trace closes the connection [c] itself. *)
Definition closed_times (c : netconn) (tr : list hevent) : nat :=
  length (filter (λ ev, ev = HClose c) tr).

(** Modelled from the spec: the Deadline-Enforcing Connection Wrapper
    ([NewDeadLinerConn], not in mwss.go) decorates a connection; closing
    the wrapper closes the connection it wraps. *)
Fixpoint closes (c target : netconn) : Prop :=
  c = target ∨
  match c with
  | DeadLinerConn inner => closes inner target
  | _ => False
  end.

(** [defer f(); rest]: [f] runs after [rest], however [rest] ends. *)
Definition defer {S R} (f : hevent) (rest : S * R * list hevent) : S * R * list hevent :=
  let '(s, r, ev) := rest in (s, r, ev ++ [f]).

(** [defer f(); rest] for a call [f] that acts on the state: it acts on
    the state [rest] leaves. *)
Definition defer_on {S R} (f : hevent) (act : S → S) (rest : S * R * list hevent)
    : S * R * list hevent :=
  let '(s, r, ev) := rest in (act s, r, ev ++ [f]).

Section Handlers.
Variable growcap : nat → nat → nat.
Variable MaxMWSSStreamCnt : Z.
(** [r.RemoteTCPAddr]. *)
Variable RemoteTCPAddr : string.

(** [handleTcpOverMWSS] on the package-level transporter [tr]; the
    deferred [wsc.Close()] ends the stream that [Dial] gave. *)
Definition handleTcpOverMWSS (tr : Pool.state) (c : nat) (io : Pool.DialIO)
    : Pool.state * hresult * list hevent :=
  let dc := DeadLinerConn (TCPConn c) in
  defer (HClose dc)
    (let addr := RemoteTCPAddr +:+ "/tcp/" in
     let '(tr', out, _) := Pool.Dial growcap MaxMWSSStreamCnt tr addr io in
     match out with
     | Pool.Failed err => (tr', HReturn (Some err), [HDial addr])
     | Pool.Panicked => (tr', HPanic, [HDial addr])
     | Pool.Returned conn =>
         let wsc := PoolStream conn in
         defer_on (HClose wsc) (Pool.close_stream conn)
           (tr', HReturn None, [HDial addr; HTransport wsc dc])
     end).

(** [handleMWSSConnToTcp]; [dialed] is the answer of [net.Dial]: the
    new connection or an error. *)
Definition handleMWSSConnToTcp (c : Server.conn) (dialed : nat + error)
    : unit * hresult * list hevent :=
  defer (HClose (Accepted c))
    (match dialed with
     | inr err => (tt, HReturn None, [HNetDial RemoteTCPAddr])
     | inl rc =>
         let drc := DeadLinerConn (TCPConn rc) in
         defer (HClose drc)
           (tt, HReturn None, [HNetDial RemoteTCPAddr; HTransport drc (Accepted c)])
     end).
End Handlers.

End Relay.

(** * Properties of the server side *)
Module ServerProps.
Import Chan Server.

Lemma offer_not_failure q cc : is_failure (offer q cc).2 = false.
Proof. unfold offer. by destruct (send q cc). Qed.

Lemma offer_cap q cc : cap (offer q cc).1 = cap q.
Proof. unfold offer, send. by destruct (full q). Qed.

Lemma offer_full q cc :
  full q = true → offer q cc = (q, MuxStreamClosed cc).
Proof. unfold offer, send. by intros ->. Qed.

Lemma offer_room q cc :
  full q = false →
  offer q cc = (Chan (buf q ++ [cc]) (cap q) (is_closed q), MuxEnqueued cc).
Proof. unfold offer, send. by intros ->. Qed.

Lemma mux_loop_cons_ok phys fc q d stream rest :
  fc < 5 →
  mux_loop phys fc q ({| drained := d; accepted := inl stream |} :: rest) =
  mux_after [MuxAccepted stream; (offer (drain d q) (MuxStream phys stream)).2]
    (mux_loop phys fc (offer (drain d q) (MuxStream phys stream)).1 rest).
Proof.
  intros Hfc. cbn [mux_loop]. rewrite decide_True by done. cbn.
  by destruct (offer _ _).
Qed.

Lemma mux_loop_cons_err phys fc q d err rest :
  fc < 5 →
  mux_loop phys fc q ({| drained := d; accepted := inr err |} :: rest) =
  {| failedCount := fc + 1; queue := drain d q;
     mux_trace := [MuxAcceptFailed err fc]; status := Exited; unread := rest |}.
Proof. intros Hfc. cbn [mux_loop]. by rewrite decide_True. Qed.

(** The loop is never parked on [connChan]: it waits in [AcceptStream]
    or it is over. *)
Lemma mux_loop_not_parked phys script :
  ∀ fc q, status (mux_loop phys fc q script) ≠ Parked.
Proof.
  induction script as [|[d [stream|err]] rest IH]; intros fc q;
    destruct (decide (fc < 5)) as [Hfc|Hfc].
  - cbn. by rewrite decide_True.
  - cbn. by rewrite decide_False.
  - rewrite mux_loop_cons_ok by done. apply IH.
  - cbn. by rewrite decide_False.
  - by rewrite mux_loop_cons_err.
  - cbn. by rewrite decide_False.
Qed.

(** The first failure of [AcceptStream] ends the loop, with the counter
    one higher, whatever was accepted before it. *)
Lemma mux_loop_first_failure phys (oks : list (nat * nat)) d err rest :
  ∀ fc q, fc < 5 →
  let r := mux_loop phys fc q
             ((accept_ok <$> oks) ++ {| drained := d; accepted := inr err |} :: rest) in
  status r = Exited ∧ failedCount r = fc + 1 ∧ unread r = rest ∧
  ∃ evs, mux_trace r = evs ++ [MuxAcceptFailed err fc] ∧
         forallb (λ ev, negb (is_failure ev)) evs = true.
Proof.
  induction oks as [|[d' stream] oks IH]; intros fc q Hfc; cbn zeta.
  - cbn [fmap list_fmap app]. rewrite mux_loop_cons_err by done.
    cbn [status failedCount unread mux_trace].
    split_and!; [done..|]. by exists [].
  - cbn [fmap list_fmap app].
    change (accept_ok (d', stream)) with {| drained := d'; accepted := inl stream |}.
    rewrite mux_loop_cons_ok by done.
    destruct (IH fc (offer (drain d' q) (MuxStream phys stream)).1 Hfc)
      as (Hst & Hcnt & Hun & evs & Htr & Hevs).
    unfold mux_after; cbn [status failedCount unread mux_trace].
    split_and!; [done..|].
    eexists (_ :: _ :: evs). rewrite Htr. split; [done|].
    cbn [forallb is_failure negb andb]. by rewrite offer_not_failure.
Qed.

(** C1 (the code against the design document): the multiplexing loop does
    not survive a failed [AcceptStream].  Whatever streams were accepted
    before, the first failure raises [failedCount] from 0 to 1 and leaves
    the loop; the multiplexer is closed and the rest of the script is
    never read.  The bound of 5 is never reached. *)
Theorem mux_gives_up_on_first_failure phys q (oks : list (nat * nat)) d err rest :
  let r := mux phys None q
             ((accept_ok <$> oks) ++ {| drained := d; accepted := inr err |} :: rest) in
  status r = Exited ∧ failedCount r = 1 ∧ unread r = rest ∧
  ∃ evs, mux_trace r = evs ++ [MuxAcceptFailed err 0; MuxClosed] ∧
         forallb (λ ev, negb (is_failure ev)) evs = true.
Proof.
  cbn zeta. unfold mux.
  destruct (mux_loop_first_failure phys oks d err rest 0 q)
    as (Hst & Hcnt & Hun & evs & Htr & Hevs); [done|].
  cbn [status failedCount unread mux_trace]. rewrite Hst, Hcnt, Hun, Htr.
  split_and!; [done..|].
  exists evs. split; [by rewrite <- app_assoc | done].
Qed.

(** One transient failure followed by a stream that could be accepted:
    the loop is over after the failure and the stream is never asked
    for. *)
Example mux_single_failure :
  mux 7 None (make 1024)
    [ {| drained := 0; accepted := inr (Error "timeout" true true) |};
      {| drained := 0; accepted := inl 1%nat |} ]
  = {| failedCount := 1; queue := make 1024;
       mux_trace := [MuxAcceptFailed (Error "timeout" true true) 0; MuxClosed];
       status := Exited;
       unread := [ {| drained := 0; accepted := inl 1%nat |} ] |}.
Proof. reflexivity. Qed.

(** C5: when [connChan] is at capacity the accepted stream is closed at
    once and the queue is left as it is; when there is room the stream is
    enqueued.  Either way the loop goes on to its next turn, and no run of
    the loop, whatever the consumer took off the queue, parks it on the
    channel. *)
Theorem mux_offer_never_blocks phys fc q d stream rest :
  fc < 5 →
  let q0 := drain d q in
  let cc := MuxStream phys stream in
  let r := mux_loop phys fc q ({| drained := d; accepted := inl stream |} :: rest) in
  (full q0 = true →
     r = mux_after [MuxAccepted stream; MuxStreamClosed cc] (mux_loop phys fc q0 rest)) ∧
  (full q0 = false →
     r = mux_after [MuxAccepted stream; MuxEnqueued cc]
           (mux_loop phys fc (Chan (buf q0 ++ [cc]) (cap q0) (is_closed q0)) rest)) ∧
  status r ≠ Parked.
Proof.
  intros Hfc. cbn zeta. split; [|split].
  - intros Hfull. rewrite mux_loop_cons_ok by done. by rewrite offer_full.
  - intros Hroom. rewrite mux_loop_cons_ok by done. by rewrite offer_room.
  - apply mux_loop_not_parked.
Qed.

Lemma mux_offer_never_blocks_witness :
  mux_loop 7 0 (Chan [MuxStream 7 1; MuxStream 7 2] 2 false)
    [ {| drained := 0; accepted := inl 3%nat |} ]
  = {| failedCount := 0; queue := Chan [MuxStream 7 1; MuxStream 7 2] 2 false;
       mux_trace := [MuxAccepted 3; MuxStreamClosed (MuxStream 7 3)];
       status := Waiting; unread := [] |}.
Proof.
  destruct (mux_offer_never_blocks 7 0 (Chan [MuxStream 7 1; MuxStream 7 2] 2 false)
              0 3 []) as [Hfull _]; [lia|].
  rewrite Hfull; reflexivity.
Defined.

(** Six streams arrive over one connection while nothing is consumed and
    the queue holds four: the first four are enqueued, the last two are
    closed, and the loop waits for a seventh. *)
Example mux_six_streams_capacity_four :
  mux_loop 0 0 (make 4) ((λ n, {| drained := 0; accepted := inl n |}) <$> seq 1 6)
  = {| failedCount := 0;
       queue := Chan (MuxStream 0 <$> [1; 2; 3; 4]%nat) 4 false;
       mux_trace :=
         [MuxAccepted 1; MuxEnqueued (MuxStream 0 1);
          MuxAccepted 2; MuxEnqueued (MuxStream 0 2);
          MuxAccepted 3; MuxEnqueued (MuxStream 0 3);
          MuxAccepted 4; MuxEnqueued (MuxStream 0 4);
          MuxAccepted 5; MuxStreamClosed (MuxStream 0 5);
          MuxAccepted 6; MuxStreamClosed (MuxStream 0 6)];
       status := Waiting; unread := [] |}.
Proof. reflexivity. Qed.

(** ** The accept loop *)

Lemma wrap64_small z : - 2 ^ 63 ≤ z < 2 ^ 63 → wrap64 z = z.
Proof. intros Hz. unfold wrap64. rewrite Z.mod_small; lia. Qed.

Lemma backoff_range k : (0 < k)%nat → 0 < backoff k ≤ Second.
Proof.
  intros Hk. unfold backoff, Second, Millisecond.
  assert (0 < 2 ^ (Z.of_nat k - 1)) by (apply Z.pow_pos_nonneg; lia).
  lia.
Qed.

Lemma next_delay_0 : next_delay 0 = backoff 1.
Proof. reflexivity. Qed.

Lemma next_delay_backoff k : (0 < k)%nat → next_delay (backoff k) = backoff (S k).
Proof.
  intros Hk. pose proof (backoff_range k Hk) as Hr.
  unfold next_delay. cbn zeta.
  destruct (decide (backoff k = 0)) as [H0|_]; [lia|].
  rewrite wrap64_small
    by (unfold Second, Millisecond in *;
        change (2 ^ 63) with 9223372036854775808; lia).
  unfold backoff in *.
  replace (Z.of_nat (S k) - 1) with (Z.succ (Z.of_nat k - 1)) by lia.
  rewrite Z.pow_succ_r by lia.
  unfold Second, Millisecond in *. case_decide; lia.
Qed.

Lemma next_delay_after k : next_delay (delay_after k) = backoff (S k).
Proof. destruct k; [apply next_delay_0 | apply next_delay_backoff; lia]. Qed.

Lemma accept_after_app evs1 evs2 r :
  accept_after evs1 (accept_after evs2 r) = accept_after (evs1 ++ evs2) r.
Proof. unfold accept_after; cbn. by rewrite app_assoc. Qed.

Lemma accept_loop_temps temps rest :
  Forall temp_failure temps →
  ∀ k, accept_loop (delay_after k) (temps ++ rest) =
       accept_after (Slept <$> (backoff <$> seq (S k) (length temps)))
         (accept_loop (delay_after (k + length temps)) rest).
Proof.
  induction 1 as [|[c oe] temps (e & He & Htemp) _ IH]; intros k.
  - cbn [app length seq fmap list_fmap]. rewrite Nat.add_0_r.
    unfold accept_after. by destruct (accept_loop _ _).
  - cbn in He. subst oe. cbn [app accept_loop length]. rewrite Htemp. cbn zeta.
    rewrite next_delay_after.
    specialize (IH (S k)). cbn [delay_after] in IH. rewrite IH, accept_after_app.
    by replace (k + S (length temps))%nat with (S k + length temps)%nat by lia.
Qed.

(** C6: from [tempDelay = 0] (at the start, or after a successful
    accept) a run of consecutive temporary accept errors sleeps 5ms,
    10ms, 20ms, ..., doubling each time and never more than one second; a
    successful accept sets the delay back to 0; an accept error that is
    not temporary ends the loop, which returns that error. *)
Theorem accept_loop_backoff temps c e d rest :
  Forall temp_failure temps →
  accept_loop 0 (temps ++ rest) =
    accept_after (Slept <$> (backoff <$> seq 1 (length temps)))
      (accept_loop (delay_after (length temps)) rest) ∧
  accept_loop d ((c, None) :: rest) = accept_after [Spawned c] (accept_loop 0 rest) ∧
  (is_temporary e = false →
   accept_loop d ((c, Some e) :: rest) =
     {| tempDelay := d; accept_trace := []; returned := Some e |}).
Proof.
  intros Htemps. split_and!.
  - apply (accept_loop_temps temps rest Htemps 0).
  - reflexivity.
  - intros Hfatal. cbn [accept_loop]. by rewrite Hfatal.
Qed.

(** Three temporary failures, then a connection, then another failure. *)
Lemma accept_loop_backoff_witness :
  accept_trace (accept_loop 0 ([temp_err; temp_err; temp_err] ++
                  [(Some (MuxStream 0 1), None); temp_err])) =
  [Slept 5000000; Slept 10000000; Slept 20000000;
   Spawned (Some (MuxStream 0 1)); Slept 5000000].
Proof.
  destruct (accept_loop_backoff [temp_err; temp_err; temp_err] None
              (Error "" false false) 0
              [(Some (MuxStream 0 1), None); temp_err]) as [Hrun _].
  - repeat constructor; exists (Error "accept: too many open files" true true);
      split; reflexivity.
  - rewrite Hrun. reflexivity.
Defined.

(** Twelve temporary failures in a row, in milliseconds. *)
Example accept_loop_twelve_failures :
  accept_trace (accept_loop 0 (replicate 12 temp_err)) =
  (λ ms, Slept (ms * Millisecond)) <$>
    [5; 10; 20; 40; 80; 160; 320; 640; 1000; 1000; 1000; 1000].
Proof. reflexivity. Qed.

(** ** The channels of the server *)

Lemma send_cap {A} (ch ch' : chan A) v : send ch v = Sent ch' → cap ch' = cap ch.
Proof. unfold send. destruct (full ch); [done|]. by intros [= <-]. Qed.

Lemma recv_cap {A} (ch ch' : chan A) v : recv ch = Some (v, ch') → cap ch' = cap ch.
Proof.
  unfold recv. destruct (buf ch); [destruct (is_closed ch)|]; [| done |];
    by intros [= _ <-].
Qed.

Lemma serve_goroutine_cap serve_err ch ch' st :
  serve_goroutine serve_err ch = (ch', st) → cap ch' = cap ch.
Proof.
  unfold serve_goroutine. destruct serve_err as [err|]; [|by intros [= <- _]].
  destruct (send ch err) as [ch1|] eqn:Hsend; intros [= <- _]; [|done].
  cbn. by eapply send_cap.
Qed.

Lemma server_step_caps s s' :
  server_step s s' →
  cap (connChan s') = cap (connChan s) ∧ cap (errChan s') = cap (errChan s).
Proof.
  destruct 1 as [s cc | s c conn err s' Hacc | s serve_err ch st Hserve]; cbn.
  - by rewrite offer_cap.
  - unfold Accept in Hacc. destruct c.
    + destruct (recv (connChan s)) as [[v ch]|] eqn:Hrecv; [|done].
      injection Hacc as _ _ <-. cbn. split; [by eapply recv_cap | done].
    + destruct (recv (errChan s)) as [[v ch]|] eqn:Hrecv; [|done].
      injection Hacc as _ _ <-. cbn. split; [done | by eapply recv_cap].
  - split; [done | by eapply serve_goroutine_cap].
Qed.

Lemma server_run_caps s s' :
  rtc server_step s s' →
  cap (connChan s') = cap (connChan s) ∧ cap (errChan s') = cap (errChan s).
Proof.
  induction 1 as [s | s s1 s' Hstep _ [IHc IHe]]; [done|].
  apply server_step_caps in Hstep as [Hc He]. split; congruence.
Qed.

(** C10: the server is built with an accept queue of capacity 1024 and an
    error channel of capacity 1, and whatever the goroutines of the
    server do afterwards (offers of the multiplexing loops, receives of the
    accept loop, the report and the close of the serving goroutine), both
    capacities stay what they were. *)
Theorem server_capacities_fixed a s :
  rtc server_step (newServer a) s →
  cap (connChan (newServer a)) = 1024%nat ∧ cap (errChan (newServer a)) = 1%nat ∧
  cap (connChan s) = 1024%nat ∧ cap (errChan s) = 1%nat.
Proof.
  intros Hreach. apply server_run_caps in Hreach as [-> ->]. done.
Qed.

Lemma server_capacities_fixed_witness :
  let s := {| addr := ":443"; connChan := Chan [MuxStream 0 1] 1024 false;
              errChan := Chan [] 1 true |} in
  cap (connChan s) = 1024%nat ∧ cap (errChan s) = 1%nat.
Proof.
  cbn zeta.
  refine (proj2 (proj2 (server_capacities_fixed ":443" _ _))).
  eapply rtc_l; [apply (step_offer _ (MuxStream 0 1))|].
  eapply rtc_l; [eapply (step_serve _ None); reflexivity|].
  apply rtc_refl.
Defined.

End ServerProps.

(** * Properties of slices *)
Module GoSliceProps.
Import GoSlice.

Lemma heap_le_refl h : heap_le h h.
Proof. by intros a. Qed.

Lemma heap_le_trans h1 h2 h3 : heap_le h1 h2 → heap_le h2 h3 → heap_le h1 h3.
Proof. intros H12 H23 a. specialize (H12 a). specialize (H23 a). lia. Qed.

Lemma wf_slice_heap_le h h' s : heap_le h h' → wf_slice h s → wf_slice h' s.
Proof. intros Hle [Hlen Hcap]. specialize (Hle (sl_arr s)). split; lia. Qed.

Lemma wf_nil_slice h : wf_slice h nil_slice.
Proof. split; cbn; lia. Qed.

Lemma length_sl_elems h s : wf_slice h s → length (sl_elems h s) = sl_len s.
Proof. intros [Hlen Hcap]. unfold sl_elems. rewrite length_take. lia. Qed.

Lemma list_inserts_take_drop {A} (l k : list A) i :
  (i + length k ≤ length l)%nat →
  list_inserts i k l = take i l ++ k ++ drop (i + length k) l.
Proof.
  intros Hle.
  rewrite <- (take_drop i l) at 1.
  rewrite <- (take_drop (length k) (drop i l)) at 1.
  replace i with (length (take i l) + 0)%nat at 1 by (rewrite length_take; lia).
  rewrite list_inserts_app_r, list_inserts_0_r, drop_drop; [done|].
  rewrite length_take, length_drop. lia.
Qed.

Lemma array_at_alter_eq h a i k :
  array_at (alter (list_inserts i k) a h) a = list_inserts i k (array_at h a).
Proof.
  unfold array_at. rewrite list_lookup_alter_eq.
  destruct (h !! a); cbn; [done|]. by rewrite list_inserts_nil.
Qed.

Lemma array_at_alter_ne h a b (f : list ptr → list ptr) :
  a ≠ b → array_at (alter f a h) b = array_at h b.
Proof. intros Hne. unfold array_at. by rewrite list_lookup_alter_ne. Qed.

Lemma array_at_app_old h arr a :
  (a < length h)%nat → array_at (h ++ [arr]) a = array_at h a.
Proof. intros Hlt. unfold array_at. by rewrite lookup_app_l. Qed.

Lemma array_at_app_new h arr : array_at (h ++ [arr]) (length h) = arr.
Proof.
  unfold array_at. rewrite lookup_app_r by lia. by rewrite Nat.sub_diag.
Qed.

Lemma array_at_out h a : (length h ≤ a)%nat → array_at h a = [].
Proof. intros Hge. unfold array_at. by rewrite lookup_ge_None_2. Qed.

Lemma heap_le_alter_inserts h a i k : heap_le h (alter (list_inserts i k) a h).
Proof.
  intros b. destruct (decide (a = b)) as [->|Hne].
  - by rewrite array_at_alter_eq, length_inserts.
  - by rewrite array_at_alter_ne.
Qed.

Lemma heap_le_app h arr : heap_le h (h ++ [arr]).
Proof.
  intros a. destruct (decide (a < length h)%nat).
  - by rewrite array_at_app_old.
  - rewrite (array_at_out h a) by lia. cbn. lia.
Qed.

Section Append.
Variable growcap : nat → nat → nat.

(** [append] in place: the array once written, and the new header. *)
Lemma append_in_place h s vals :
  (sl_len s + length vals ≤ sl_cap s)%nat →
  append growcap h s vals =
    (alter (list_inserts (sl_len s) vals) (sl_arr s) h,
     Slice (sl_arr s) (sl_len s + length vals) (sl_cap s)).
Proof. intros Hle. unfold append. cbn zeta. by rewrite decide_True. Qed.

Lemma append_heap_le h s vals : heap_le h (append growcap h s vals).1.
Proof.
  unfold append. cbn zeta. case_decide; cbn.
  - apply heap_le_alter_inserts.
  - apply heap_le_app.
Qed.

(** What [append] returns reads as the old elements followed by the
    new ones, and fits the new heap. *)
Lemma append_elems h s vals :
  wf_slice h s →
  sl_elems (append growcap h s vals).1 (append growcap h s vals).2
    = sl_elems h s ++ vals ∧
  wf_slice (append growcap h s vals).1 (append growcap h s vals).2.
Proof.
  intros [Hlen Hcap]. unfold append. cbn zeta.
  case_decide as Hroom; cbn [fst snd].
  - unfold sl_elems, wf_slice. cbn [sl_arr sl_len sl_cap].
    rewrite array_at_alter_eq, length_inserts.
    split; [|lia].
    rewrite list_inserts_take_drop by lia.
    rewrite app_assoc, take_app_length'; [done|].
    rewrite length_app, length_take. lia.
  - assert (length (sl_elems h s) = sl_len s) as Hl
      by (unfold sl_elems; rewrite length_take; lia).
    unfold sl_elems at 1, wf_slice. cbn [sl_arr sl_len sl_cap].
    rewrite array_at_app_new. split.
    + rewrite app_assoc, take_app_length'; [done|].
      rewrite length_app. lia.
    + rewrite !length_app, length_replicate. lia.
Qed.

(** In place, a slice over the same array that is long enough to see
    the written cells reads them. *)
Lemma append_in_place_view h s vals n :
  wf_slice h s →
  (sl_len s + length vals ≤ sl_cap s)%nat →
  (sl_len s + length vals ≤ n)%nat →
  take n (array_at (append growcap h s vals).1 (sl_arr s)) =
    sl_elems h s ++ vals ++
    take (n - (sl_len s + length vals))
      (drop (sl_len s + length vals) (array_at h (sl_arr s))).
Proof.
  intros [Hlen Hcap] Hroom Hn. rewrite append_in_place by done. cbn.
  rewrite array_at_alter_eq, list_inserts_take_drop by lia.
  unfold sl_elems.
  rewrite !(app_assoc _ vals), take_app_ge; rewrite length_app, length_take; [|lia].
  by rewrite (Nat.min_l (sl_len s)) by lia.
Qed.
End Append.

End GoSliceProps.

(** * Properties of the session pool *)
Module PoolProps.
Import GoSlice GoSliceProps Pool.

Lemma valid_mono σ σ' p : (length σ ≤ length σ')%nat → valid σ p → valid σ' p.
Proof. intros Hle Hp s Hs. specialize (Hp s Hs). lia. Qed.

Lemma heap_valid_mono σ σ' (h : heap) :
  (length σ ≤ length σ')%nat →
  Forall (Forall (valid σ)) h → Forall (Forall (valid σ')) h.
Proof.
  intros Hle Hh. eapply Forall_impl; [done|]. intros arr Harr.
  eapply Forall_impl; [done|]. intros p. by apply valid_mono.
Qed.

Lemma array_at_valid σ (h : heap) a :
  Forall (Forall (valid σ)) h → Forall (valid σ) (array_at h a).
Proof.
  intros Hh. unfold array_at. destruct (h !! a) as [arr|] eqn:Ha; cbn; [|done].
  by eapply Forall_lookup_1.
Qed.

Lemma sl_elems_valid σ (h : heap) s :
  Forall (Forall (valid σ)) h → Forall (valid σ) (sl_elems h s).
Proof. intros Hh. apply Forall_take. by apply array_at_valid. Qed.

Lemma length_Close σ s : length (Close σ s) = length σ.
Proof. apply length_alter. Qed.

Lemma length_open_stream σ s : length (open_stream σ s) = length σ.
Proof. apply length_alter. Qed.

Lemma length_stream_ends σ s : length (stream_ends σ s) = length σ.
Proof. apply length_alter. Qed.

Lemma deref_alter_ne σ f s s' : s ≠ s' → deref (alter f s σ) s' = deref σ s'.
Proof. intros Hne. unfold deref. by rewrite list_lookup_alter_ne. Qed.

Lemma deref_alter_eq σ f s :
  (s < length σ)%nat → deref (alter f s σ) s = f (deref σ s).
Proof.
  intros Hlt. unfold deref. rewrite list_lookup_alter_eq.
  destruct (lookup_lt_is_Some_2 σ s Hlt) as [m ->]. done.
Qed.

Lemma deref_app_old σ m s : (s < length σ)%nat → deref (σ ++ [m]) s = deref σ s.
Proof. intros Hlt. unfold deref. by rewrite lookup_app_l. Qed.

Lemma deref_app_new σ m : deref (σ ++ [m]) (length σ) = m.
Proof. unfold deref. rewrite lookup_app_r by lia. by rewrite Nat.sub_diag. Qed.



Lemma IsClosed_open_stream σ s s' : IsClosed (open_stream σ s) s' = IsClosed σ s'.
Proof.
  unfold IsClosed, open_stream.
  destruct (decide (s = s')) as [->|Hne]; [|by rewrite deref_alter_ne].
  destruct (decide (s' < length σ)%nat); [by rewrite deref_alter_eq|].
  unfold deref. rewrite list_lookup_alter_eq.
  by rewrite lookup_ge_None_2 by lia.
Qed.



(** ** The scan *)

(** Where the [range] loop stops: at the first session that fits, with
    [ok] set, or past the last one, with [ok] cleared and the last session
    in hand; over the empty sequence nothing changes. *)
Lemma range_sessions_first_fit σ (ss : list sid) :
  ∀ i idx0 sess0 ok0,
  range_sessions σ i (Some <$> ss) idx0 sess0 ok0 =
    match list_find (fits σ) ss with
    | Some (j, s) => ScanDone (i + j) (Some s) true
    | None =>
        match last ss with
        | Some s => ScanDone (i + length ss - 1) (Some s) false
        | None => ScanDone idx0 sess0 ok0
        end
    end.
Proof.
  induction ss as [|s ss IH]; intros i idx0 sess0 ok0; [done|].
  cbn [fmap list_fmap range_sessions list_find].
  destruct (decide (NumStreams σ s >= maxStreamCnt (deref σ s))) as [Hfull|Hfit].
  - rewrite decide_False by (unfold fits; lia).
    rewrite IH. destruct (list_find (fits σ) ss) as [[j s']|]; cbn.
    + f_equal. lia.
    + destruct ss as [|s1 ss]; cbn [last length].
      * f_equal. lia.
      * destruct (last (s1 :: ss)) eqn:Hlast; [f_equal; lia|].
        by apply last_None in Hlast.
  - rewrite decide_True by (unfold fits; lia). cbn. f_equal. lia.
Qed.

(** What the scan hands over is an element of the sequence, at the index
    it reports. *)
Lemma range_sessions_lookup σ l i idx0 ok0 j s ok :
  range_sessions σ i l idx0 None ok0 = ScanDone j (Some s) ok →
  (i ≤ j)%nat ∧ l !! (j - i)%nat = Some (Some s).
Proof.
  assert (∀ l i idx0 s0 ok0 j s ok,
    range_sessions σ i l idx0 (Some s0) ok0 = ScanDone j (Some s) ok →
    (idx0 = j ∧ s0 = s) ∨ ((i ≤ j)%nat ∧ l !! (j - i)%nat = Some (Some s))) as Hgen.
  { clear. induction l as [|[s1|] l IH]; intros i idx0 s0 ok0 j s ok Hscan;
      cbn in Hscan; [left; by simplify_eq | | done].
    case_decide.
    - apply IH in Hscan as [[-> ->]|[Hle Hl]]; right.
      + rewrite Nat.sub_diag. done.
      + split; [lia|]. by replace (j - i)%nat with (S (j - S i)) by lia.
    - simplify_eq. right. by rewrite Nat.sub_diag. }
  intros Hs. destruct l as [|[s1|] l]; [done | | done].
  cbn in Hs. case_decide.
  - apply Hgen in Hs as [[-> ->]|[Hle Hl]].
    + by rewrite Nat.sub_diag.
    + split; [lia|]. by replace (j - i)%nat with (S (j - S i)) by lia.
  - simplify_eq. by rewrite Nat.sub_diag.
Qed.

(** ** [append] and eviction in [Dial] *)
Section Dial.
Variable growcap : nat → nat → nat.
Variable MaxMWSSStreamCnt : Z.

Lemma append_valid σ h s vals :
  Forall (Forall (valid σ)) h → Forall (valid σ) vals →
  Forall (Forall (valid σ)) (append growcap h s vals).1.
Proof.
  intros Hh Hvals. unfold append. cbn zeta. case_decide; cbn [fst].
  - apply Forall_alter; [done|]. intros arr _ Harr. by apply Forall_inserts.
  - apply Forall_app. split; [done|]. constructor; [|done].
    rewrite !Forall_app. split_and!; [by apply sl_elems_valid | done |].
    apply Forall_replicate. by intros s' ?.
Qed.

(** A prefix slice of the one appended to never sees the write. *)
Lemma append_old_view h s vals :
  wf_slice h s → sl_elems (append growcap h s vals).1 s = sl_elems h s.
Proof.
  intros [Hlen Hcap]. unfold append. cbn zeta. case_decide; cbn [fst].
  - unfold sl_elems. rewrite array_at_alter_eq, list_inserts_take_drop by lia.
    rewrite take_app_le by (rewrite length_take; lia).
    by rewrite take_take, Nat.min_id.
  - unfold sl_elems. destruct (decide (sl_arr s < length h)%nat).
    + by rewrite array_at_app_old.
    + rewrite (array_at_out h) in * by lia. cbn in Hcap.
      by replace (sl_len s) with 0%nat by lia.
Qed.

(** Eviction is always in place: the cells from [i+1] on move one to
    the left, and the header loses one element. *)
Lemma evict_spec h s i :
  wf_slice h s → (i < sl_len s)%nat →
  (evict growcap h s i).2 = Slice (sl_arr s) (sl_len s - 1) (sl_cap s) ∧
  sl_elems (evict growcap h s i).1 (evict growcap h s i).2 = delete i (sl_elems h s) ∧
  wf_slice (evict growcap h s i).1 (evict growcap h s i).2 ∧
  heap_le h (evict growcap h s i).1.
Proof.
  intros Hwf Hi. pose proof Hwf as [Hlen Hcap].
  assert (wf_slice h (slice_to s i)) as Hwf' by (split; cbn; lia).
  assert (length (slice_from h s (S i)) = sl_len s - S i)%nat as Hvals.
  { unfold slice_from. rewrite length_drop, length_sl_elems by done. done. }
  unfold evict.
  destruct (append_elems growcap h (slice_to s i) (slice_from h s (S i)) Hwf')
    as [Helems Hwf1].
  split_and!; [| |done|apply append_heap_le].
  - rewrite append_in_place by (cbn; lia). cbn. f_equal. lia.
  - rewrite Helems, delete_take_drop. unfold slice_from, sl_elems. cbn.
    by rewrite take_take, Nat.min_l by lia.
Qed.

Lemma evict_valid σ h s i :
  Forall (Forall (valid σ)) h → Forall (Forall (valid σ)) (evict growcap h s i).1.
Proof.
  intros Hh. apply append_valid; [done|].
  apply Forall_drop. by apply sl_elems_valid.
Qed.

(** After an eviction there is room for one element: the [append] of
    the new session writes in place. *)
Lemma append_after_evict h s i x :
  wf_slice h s → (i < sl_len s)%nat →
  let e := evict growcap h s i in
  append growcap e.1 e.2 [x] =
    (alter (list_inserts (sl_len s - 1) [x]) (sl_arr s) e.1, s).
Proof.
  intros Hwf Hi e. pose proof Hwf as [Hlen Hcap].
  destruct (evict_spec h s i Hwf Hi) as (Hsl & _). fold e in Hsl.
  rewrite append_in_place by (rewrite Hsl; cbn; lia).
  rewrite Hsl. cbn. f_equal. destruct s as [a n c]; cbn in *. f_equal. lia.
Qed.

(** The eviction shifts the cells in place: the slice that is stored, which
    keeps its length, reads the sequence without the evicted session,
    followed by its old last element once more. *)
Lemma evict_old_view h s i :
  wf_slice h s → (i < sl_len s)%nat →
  sl_elems (evict growcap h s i).1 s =
    delete i (sl_elems h s) ++ drop (sl_len s - 1) (sl_elems h s).
Proof.
  intros Hwf Hi. pose proof Hwf as [Hlen Hcap].
  assert (wf_slice h (slice_to s i)) as Hwf' by (split; cbn; lia).
  assert (length (slice_from h s (S i)) = sl_len s - S i)%nat as Hvals.
  { unfold slice_from. by rewrite length_drop, length_sl_elems. }
  pose proof (append_in_place_view growcap h (slice_to s i) (slice_from h s (S i))
                (sl_len s) Hwf') as Hview.
  rewrite Hvals in Hview. cbn [sl_len sl_cap sl_arr slice_to] in Hview.
  unfold evict, sl_elems at 1. rewrite Hview by lia.
  rewrite delete_take_drop, <- app_assoc. unfold slice_from, sl_elems.
  rewrite take_take, (Nat.min_l i) by lia. do 2 f_equal.
  replace (i + (sl_len s - S i))%nat with (sl_len s - 1)%nat by lia.
  rewrite take_drop_commute. do 2 f_equal. lia.
Qed.

(** The new session is then appended in place, over that last cell. *)
Lemma evict_append_old_view h s i x :
  wf_slice h s → (i < sl_len s)%nat →
  let e := evict growcap h s i in
  sl_elems (append growcap e.1 e.2 [x]).1 s = delete i (sl_elems h s) ++ [x].
Proof.
  intros Hwf Hi e. pose proof Hwf as [Hlen Hcap].
  destruct (evict_spec h s i Hwf Hi) as (Hhdr & Helems & Hwf1 & _).
  fold e in Hhdr, Helems, Hwf1. rewrite Hhdr in Helems, Hwf1 |- *.
  pose proof (append_in_place_view growcap e.1 _ [x] (sl_len s) Hwf1) as Hview.
  cbn [sl_len sl_cap sl_arr length] in Hview.
  unfold sl_elems at 1. rewrite Hview by lia.
  rewrite Helems. replace (sl_len s - (sl_len s - 1 + 1))%nat with 0%nat by lia.
  by rewrite take_0, app_nil_r.
Qed.

(** *** The paths through [Dial] *)

Local Abbreviation create := (Pool.create growcap MaxMWSSStreamCnt).

(** [Dial_body] by the outcome of its scan. *)
Lemma Dial_body_paths st addr io :
  Dial_body growcap MaxMWSSStreamCnt st addr io =
    let sessions := (lookup_sessions st addr).1 in
    match scan st addr with
    | ScanPanic => (st, Panicked, [])
    | ScanDone i None true => (st, Panicked, [])
    | ScanDone i None false => create st addr io (arrays st) sessions []
    | ScanDone i (Some s) ok =>
        if IsClosed (objs st) s then
          let e := evict growcap (arrays st) sessions i in
          create st addr io e.1 e.2 [EvIsClosed s true]
        else if ok then reuse st addr io sessions s
        else create st addr io (arrays st) sessions [EvIsClosed s false]
    end.
Proof.
  unfold Dial_body, scan. destruct (lookup_sessions st addr) as [sessions ok0].
  cbn [fst]. cbn zeta.
  destruct (range_sessions _ _ _ _ _ _) as [i [s|] ok|]; [| |done].
  - destruct (IsClosed (objs st) s).
    + destruct (evict growcap (arrays st) sessions i) as [h sl]. cbn [fst snd].
      unfold create, initSession. destruct (io_initSession io); [done|].
      destruct (append growcap h sl _) as [h' sl']. cbn [fst snd].
      by destruct (io_GetConn io).
    + destruct ok.
      * unfold reuse. by destruct (io_GetConn io).
      * unfold create, initSession. destruct (io_initSession io); [done|].
        destruct (append growcap (arrays st) sessions _) as [h' sl']. cbn [fst snd].
        by destruct (io_GetConn io).
  - destruct ok.
    + by destruct st.
    + unfold create, initSession. destruct (io_initSession io); [done|].
      destruct (append growcap (arrays st) sessions _) as [h' sl']. cbn [fst snd].
      by destruct (io_GetConn io).
Qed.

(** What the scan needs to know about a state that is well formed. *)
Lemma lookup_sessions_wf st addr :
  wf st → wf_slice (arrays st) (lookup_sessions st addr).1.
Proof.
  intros Hwf. unfold lookup_sessions.
  destruct (tr_sessions st !! addr) as [sl|] eqn:Hsl; cbn.
  - by eapply wf_slices.
  - apply wf_nil_slice.
Qed.

Lemma lookup_sessions_stored st addr l :
  stored st addr = Some l → sl_elems (arrays st) (lookup_sessions st addr).1 = l.
Proof.
  unfold stored, lookup_sessions.
  destruct (tr_sessions st !! addr); cbn; by intros [= <-].
Qed.

Lemma scan_session st addr i s ok :
  wf st → scan st addr = ScanDone i (Some s) ok →
  (i < sl_len (lookup_sessions st addr).1)%nat ∧
  sl_elems (arrays st) (lookup_sessions st addr).1 !! i = Some (Some s) ∧
  (s < length (objs st))%nat.
Proof.
  intros Hwf Hscan. pose proof (lookup_sessions_wf st addr Hwf) as Hsl.
  unfold scan in Hscan. destruct (lookup_sessions st addr) as [sl ok0]. cbn [fst] in *.
  apply range_sessions_lookup in Hscan as [_ Hl]. rewrite Nat.sub_0_r in Hl.
  split_and!; [|done|].
  - apply lookup_lt_Some in Hl. by rewrite length_sl_elems in Hl.
  - eapply (Forall_lookup_1 _ _ _ _ (sl_elems_valid _ _ sl (wf_ptrs _ Hwf)) Hl).
    done.
Qed.

(** A scan that ends with a session in hand has read it from the map. *)
Lemma scan_in_map st addr i s ok :
  scan st addr = ScanDone i (Some s) ok →
  ∃ s0, tr_sessions st !! addr = Some s0 ∧ lookup_sessions st addr = (s0, true).
Proof.
  unfold scan, lookup_sessions.
  destruct (tr_sessions st !! addr) as [s0|]; [by eauto|]. done.
Qed.

(** *** Well-formedness is an invariant *)

Lemma wf_update st m h σ :
  wf st →
  heap_le (arrays st) h →
  (length (objs st) ≤ length σ)%nat →
  Forall (Forall (valid σ)) h →
  (∀ addr sl, m !! addr = Some sl →
     tr_sessions st !! addr = Some sl ∨ wf_slice h sl) →
  wf (State m h σ).
Proof.
  intros Hwf Hle Hlen Hptrs Hm. split; cbn; [|done].
  intros addr sl Hsl. destruct (Hm addr sl Hsl) as [Hold|Hnew]; [|done].
  eapply wf_slice_heap_le; [done|]. by eapply wf_slices.
Qed.

Lemma reuse_wf st addr io s :
  wf st → wf (reuse st addr io (lookup_sessions st addr).1 s).1.1.
Proof.
  intros Hwf. unfold reuse. destruct (io_GetConn io); cbn [fst].
  - apply (wf_update st); [done|apply heap_le_refl|by rewrite length_Close| |by left].
    eapply heap_valid_mono; [|by apply wf_ptrs]. by rewrite length_Close.
  - apply (wf_update st);
      [done|apply heap_le_refl|by rewrite length_open_stream| |].
    + eapply heap_valid_mono; [|by apply wf_ptrs]. by rewrite length_open_stream.
    + intros a sl. rewrite lookup_insert. case_decide; [|by left].
      intros [= <-]. right. by apply lookup_sessions_wf.
Qed.

Lemma create_wf st addr io h sessions ev1 :
  wf st →
  heap_le (arrays st) h →
  Forall (Forall (valid (objs st))) h →
  wf_slice h sessions →
  wf (create st addr io h sessions ev1).1.1.
Proof.
  intros Hwf Hle Hptrs Hsl. unfold create.
  destruct (io_initSession io) as [err|]; cbn [fst].
  { apply (wf_update st); [done..|by left]. }
  cbn zeta.
  destruct (append_elems growcap h sessions [Some (length (objs st))] Hsl)
    as [_ Hsl'].
  pose proof (append_heap_le growcap h sessions [Some (length (objs st))]) as Hle'.
  assert (Forall (Forall (valid (objs st ++ [MuxSession 0 MaxMWSSStreamCnt false])))
            (append growcap h sessions [Some (length (objs st))]).1) as Hptrs'.
  { apply append_valid.
    - eapply heap_valid_mono; [|done]. rewrite length_app. lia.
    - constructor; [|done]. intros s' [= <-]. rewrite length_app. cbn. lia. }
  destruct (io_GetConn io); cbn [fst].
  - apply (wf_update st); [done|by eapply heap_le_trans|..|by left].
    + rewrite length_Close, length_app. lia.
    + eapply heap_valid_mono; [|done]. by rewrite length_Close.
  - apply (wf_update st); [done|by eapply heap_le_trans|..].
    + rewrite length_open_stream, length_app. lia.
    + eapply heap_valid_mono; [|done]. by rewrite length_open_stream.
    + intros a sl. rewrite lookup_insert. case_decide; [|by left].
      intros [= <-]. by right.
Qed.

Lemma Dial_body_wf st addr io :
  wf st → wf (Dial_body growcap MaxMWSSStreamCnt st addr io).1.1.
Proof.
  intros Hwf. rewrite Dial_body_paths. cbn zeta.
  pose proof (lookup_sessions_wf st addr Hwf) as Hsl.
  destruct (scan st addr) as [i [s|] ok|] eqn:Hscan; [| |done].
  - destruct (scan_session st addr i s ok Hwf Hscan) as (Hi & _ & _).
    destruct (IsClosed (objs st) s).
    + destruct (evict_spec _ _ i Hsl Hi) as (_ & _ & Hsl' & Hle).
      apply create_wf; [done..| |done]. apply evict_valid, Hwf.
    + destruct ok; [by apply reuse_wf|].
      apply create_wf; [done|apply heap_le_refl|apply Hwf|done].
  - destruct ok; [done|].
    apply create_wf; [done|apply heap_le_refl|apply Hwf|done].
Qed.

Lemma Dial_wf st addr io :
  wf st → wf (Dial growcap MaxMWSSStreamCnt st addr io).1.1.
Proof.
  intros Hwf. unfold Dial.
  pose proof (Dial_body_wf st addr io Hwf) as Hwf'.
  by destruct (Dial_body growcap MaxMWSSStreamCnt st addr io) as [[st' out] ev].
Qed.

Lemma NewMWSSTransporter_wf : wf NewMWSSTransporter.
Proof. split; cbn; [|done]. intros addr sl. by rewrite lookup_empty. Qed.

Lemma do_step_wf st x :
  wf st → wf (do_step growcap MaxMWSSStreamCnt st x).1.1.
Proof.
  intros Hwf. destruct x as [addr io|s|s]; cbn.
  - pose proof (Dial_wf st addr io Hwf) as Hwf'.
    by destruct (Dial growcap MaxMWSSStreamCnt st addr io) as [[st' out] ev].
  - apply (wf_update st);
      [done|apply heap_le_refl|by rewrite length_stream_ends| |by left].
    eapply heap_valid_mono; [|by apply wf_ptrs]. by rewrite length_stream_ends.
  - apply (wf_update st); [done|apply heap_le_refl|by rewrite length_Close| |by left].
    eapply heap_valid_mono; [|by apply wf_ptrs]. by rewrite length_Close.
Qed.


(** *** The lock *)

Lemma reuse_no_lock st addr io sl s : Forall not_lock_event (reuse st addr io sl s).2.
Proof. unfold reuse. destruct (io_GetConn io); cbn; repeat constructor; done. Qed.

Lemma create_no_lock st addr io h sl ev1 :
  Forall not_lock_event ev1 → Forall not_lock_event (create st addr io h sl ev1).2.
Proof.
  intros Hev1. unfold create.
  destruct (io_initSession io); [|destruct (io_GetConn io)]; cbn;
    apply Forall_app; (split; [done|]); repeat constructor; done.
Qed.

Lemma Dial_body_no_lock st addr io :
  Forall not_lock_event (Dial_body growcap MaxMWSSStreamCnt st addr io).2.
Proof.
  rewrite Dial_body_paths. cbn zeta.
  destruct (scan st addr) as [i [s|] [|]|]; try destruct (IsClosed (objs st) s);
    try done; try apply reuse_no_lock; apply create_no_lock;
    repeat constructor; done.
Qed.

Lemma lock_held_body ev :
  Forall not_lock_event ev →
  Forall (λ p, p.1 ≠ EvLock → p.2 = true) (lock_held true (ev ++ [EvUnlock])).
Proof.
  induction 1 as [|e ev [Hl Hu] _ IH]; cbn.
  - by repeat constructor.
  - destruct e; try done; by constructor.
Qed.

(** The trace of [Dial]: the lock, the body, the unlock. *)
Lemma Dial_trace st addr io :
  (Dial growcap MaxMWSSStreamCnt st addr io).2 =
    EvLock :: (Dial_body growcap MaxMWSSStreamCnt st addr io).2 ++ [EvUnlock].
Proof.
  unfold Dial. by destruct (Dial_body growcap MaxMWSSStreamCnt st addr io) as [[??]?].
Qed.

(** C2 (as the code has it): [Dial] takes the lock first and gives it
    back through the deferred unlock, when it returns; every step in
    between, the opening of a session and the request for the logical
    stream included, runs with the lock held. *)
Theorem Dial_holds_lock_throughout st addr io :
  let tr := (Dial growcap MaxMWSSStreamCnt st addr io).2 in
  all_under_lock tr ∧
  ∃ body, tr = EvLock :: body ++ [EvUnlock] ∧ Forall not_lock_event body.
Proof.
  cbn zeta. rewrite Dial_trace. split.
  - unfold all_under_lock. cbn [lock_held]. constructor; [done|].
    apply lock_held_body, Dial_body_no_lock.
  - eexists. split; [done|]. apply Dial_body_no_lock.
Qed.

(** *** What each path leaves behind *)

(** Membership in a trace that is written out. *)
Ltac trace_mem :=
  intros;
  lazymatch goal with
  | |- _ ∉ _ =>
      rewrite ?not_elem_of_cons; split_and?; first [done | apply not_elem_of_nil]
  | |- _ ∈ _ =>
      repeat first [apply list_elem_of_here | apply list_elem_of_further]
  end.

Lemma Dial_fst st addr io :
  (Dial growcap MaxMWSSStreamCnt st addr io).1 =
  (Dial_body growcap MaxMWSSStreamCnt st addr io).1.
Proof.
  unfold Dial. by destruct (Dial_body growcap MaxMWSSStreamCnt st addr io) as [[??]?].
Qed.

Lemma stored_insert m h σ addr sl :
  stored (State (<[addr := sl]> m) h σ) addr = Some (sl_elems h sl).
Proof. unfold stored. cbn. by rewrite lookup_insert_eq. Qed.

Lemma stored_lookup_sessions st addr :
  is_Some (stored st addr) →
  stored st addr = Some (sl_elems (arrays st) (lookup_sessions st addr).1).
Proof.
  unfold stored, lookup_sessions. destruct (tr_sessions st !! addr); cbn; [done|].
  by intros [? [=]].
Qed.

Lemma NumStreams_open_stream σ s :
  (s < length σ)%nat → NumStreams (open_stream σ s) s = NumStreams σ s + 1.
Proof. intros Hs. unfold NumStreams, open_stream. by rewrite deref_alter_eq. Qed.

(** A session of the sequence gives the stream: the sequence stays as
    it was and the session has one more stream. *)
Lemma reuse_ok st addr io s :
  (s < length (objs st))%nat → io_GetConn io = None →
  let r := reuse st addr io (lookup_sessions st addr).1 s in
  r.1.2 = Returned {| conn_session := s;
                      conn_stream := NumStreams (objs st) s + 1 |} ∧
  stored r.1.1 addr = Some (sl_elems (arrays st) (lookup_sessions st addr).1) ∧
  objs r.1.1 = open_stream (objs st) s.
Proof.
  intros Hs Hio. unfold reuse. rewrite Hio. cbn.
  by rewrite stored_insert, NumStreams_open_stream.
Qed.

(** A new session gives the stream: it is the last of the sequence
    that is stored, after the elements of the local slice. *)
Lemma create_ok st addr io h sessions ev1 :
  wf_slice h sessions → io_initSession io = None → io_GetConn io = None →
  let n := length (objs st) in
  let r := create st addr io h sessions ev1 in
  r.1.2 = Returned {| conn_session := n; conn_stream := 1 |} ∧
  stored r.1.1 addr = Some (sl_elems h sessions ++ [Some n]) ∧
  objs r.1.1 = open_stream (objs st ++ [MuxSession 0 MaxMWSSStreamCnt false]) n.
Proof.
  intros Hsl Hinit Hconn. unfold create. rewrite Hinit, Hconn. cbn.
  destruct (append_elems growcap h sessions [Some (length (objs st))] Hsl)
    as [Helems _].
  rewrite stored_insert, Helems. split_and!; [|done..].
  rewrite NumStreams_open_stream by (rewrite length_app; cbn; lia).
  unfold NumStreams. by rewrite deref_app_new.
Qed.

(** The scan on a stored sequence without nil: the first session that
    fits, or the last session and no fit. *)
Lemma scan_first_fit st addr (ss : list sid) :
  stored st addr = Some (Some <$> ss) → ss ≠ [] →
  scan st addr =
    match list_find (fits (objs st)) ss with
    | Some (i, s) => ScanDone i (Some s) true
    | None => ScanDone (length ss - 1) (last ss) false
    end.
Proof.
  intros Hst Hne. unfold scan.
  pose proof (lookup_sessions_stored st addr _ Hst) as Hl.
  destruct (lookup_sessions st addr) as [sl ok0]. cbn [fst] in Hl. rewrite Hl.
  rewrite range_sessions_first_fit.
  destruct (list_find _ ss) as [[i s]|]; [done|].
  apply last_is_Some in Hne as [s ->]. done.
Qed.

(** A first fit that is open is the session [Dial] asks: no session is
    opened, and on success the stored sequence is what it was. *)
Lemma Dial_first_fit_open st addr io (ss : list sid) i s :
  wf st → stored st addr = Some (Some <$> ss) →
  list_find (fits (objs st)) ss = Some (i, s) →
  IsClosed (objs st) s = false →
  let d := Dial growcap MaxMWSSStreamCnt st addr io in
  (∀ err, EvInitSession addr err ∉ d.2) ∧
  EvGetConn s (io_GetConn io) ∈ d.2 ∧
  (io_GetConn io = None →
     d.1.2 = Returned {| conn_session := s;
                         conn_stream := NumStreams (objs st) s + 1 |} ∧
     stored d.1.1 addr = Some (Some <$> ss) ∧
     objs d.1.1 = open_stream (objs st) s).
Proof.
  intros Hwf Hst Hfind Hopen. cbn zeta.
  assert (ss ≠ []) as Hne by (by destruct ss).
  pose proof (scan_first_fit st addr ss Hst Hne) as Hscan. rewrite Hfind in Hscan.
  destruct (scan_session st addr i s true Hwf Hscan) as (_ & _ & Hs).
  rewrite Dial_trace, Dial_fst, Dial_body_paths. cbn zeta.
  rewrite Hscan, Hopen.
  split_and!.
  - unfold reuse. destruct (io_GetConn io); cbn; trace_mem.
  - unfold reuse. destruct (io_GetConn io); cbn; trace_mem.
  - intros Hio. destruct (reuse_ok st addr io s Hs Hio) as (Hout & Hsto & Hobjs).
    by rewrite (lookup_sessions_stored st addr _ Hst) in Hsto.
Qed.

(** No session fits: a session is opened, and on success it is
    appended to the sequence, from which the last session has been
    removed if it was closed. *)
Lemma Dial_no_fit st addr io (ss : list sid) s :
  wf st → stored st addr = Some (Some <$> ss) →
  list_find (fits (objs st)) ss = None → last ss = Some s →
  let d := Dial growcap MaxMWSSStreamCnt st addr io in
  let n := length (objs st) in
  let kept := if IsClosed (objs st) s then delete (length ss - 1)%nat ss else ss in
  EvInitSession addr (io_initSession io) ∈ d.2 ∧
  (io_initSession io = None → io_GetConn io = None →
     d.1.2 = Returned {| conn_session := n; conn_stream := 1 |} ∧
     stored d.1.1 addr = Some (Some <$> (kept ++ [n])) ∧
     objs d.1.1 = open_stream (objs st ++ [MuxSession 0 MaxMWSSStreamCnt false]) n).
Proof.
  intros Hwf Hst Hfind Hlast. cbn zeta.
  assert (ss ≠ []) as Hne by (by destruct ss).
  pose proof (scan_first_fit st addr ss Hst Hne) as Hscan.
  rewrite Hfind, Hlast in Hscan. cbn in Hscan.
  destruct (scan_session st addr _ s false Hwf Hscan) as (Hi & _ & Hs).
  pose proof (lookup_sessions_wf st addr Hwf) as Hsl.
  pose proof (lookup_sessions_stored st addr _ Hst) as Hl.
  rewrite Dial_trace, Dial_fst, Dial_body_paths. cbn zeta. rewrite Hscan.
  destruct (IsClosed (objs st) s).
  - destruct (evict_spec _ _ _ Hsl Hi) as (_ & Helems & Hsl' & _).
    split.
    + unfold create. destruct (io_initSession io); [|destruct (io_GetConn io)];
        cbn; trace_mem.
    + intros Hinit Hconn.
      destruct (create_ok st addr io _ _ [EvIsClosed s true] Hsl' Hinit Hconn)
        as (Hout & Hsto & Hobjs).
      rewrite Helems, Hl in Hsto.
      by rewrite fmap_app, list_fmap_delete.
  - split.
    + unfold create. destruct (io_initSession io); [|destruct (io_GetConn io)];
        cbn; trace_mem.
    + intros Hinit Hconn.
      destruct (create_ok st addr io _ _ [EvIsClosed s false] Hsl Hinit Hconn)
        as (Hout & Hsto & Hobjs).
      rewrite Hl in Hsto. by rewrite fmap_app.
Qed.

(** The first [Dial] to a destination opens its first session. *)
Lemma Dial_new_destination st addr io :
  wf st → stored st addr = None →
  io_initSession io = None → io_GetConn io = None →
  let d := Dial growcap MaxMWSSStreamCnt st addr io in
  let n := length (objs st) in
  d.1.2 = Returned {| conn_session := n; conn_stream := 1 |} ∧
  stored d.1.1 addr = Some [Some n] ∧
  objs d.1.1 = open_stream (objs st ++ [MuxSession 0 MaxMWSSStreamCnt false]) n.
Proof.
  intros Hwf Hst Hinit Hconn. cbn zeta.
  rewrite Dial_fst, Dial_body_paths. cbn zeta.
  unfold stored in Hst. unfold scan, lookup_sessions.
  destruct (tr_sessions st !! addr) eqn:Hm; [done|]. cbn.
  apply (create_ok st addr io (arrays st) nil_slice []);
    [apply wf_nil_slice|done..].
Qed.

(** *** When [Dial] fails *)




(** The stored sequence of [addr] is read through the slice that the
    scan got from the map. *)
Lemma stored_same_map st h σ addr :
  stored (State (tr_sessions st) h σ) addr =
  (λ _, sl_elems h (lookup_sessions st addr).1) <$> tr_sessions st !! addr.
Proof.
  unfold stored, lookup_sessions. cbn. by destruct (tr_sessions st !! addr).
Qed.

Lemma stored_elems st addr :
  stored st addr =
  (λ _, sl_elems (arrays st) (lookup_sessions st addr).1) <$> tr_sessions st !! addr.
Proof. destruct st as [m h σ]. apply (stored_same_map (State m h σ)). Qed.

(** A sequence that is stored holds no session that does not exist
    yet. *)
Lemma stored_not_fresh st addr l s :
  wf st → stored st addr = Some l → (length (objs st) ≤ s)%nat → Some s ∉ l.
Proof.
  intros Hwf Hst Hs Hin. rewrite stored_elems in Hst.
  destruct (tr_sessions st !! addr); [|done]. injection Hst as <-.
  pose proof (sl_elems_valid _ _ (lookup_sessions st addr).1 (wf_ptrs _ Hwf)) as Hv.
  rewrite Forall_forall in Hv. specialize (Hv _ Hin s eq_refl). lia.
Qed.

(** A session is opened and refuses the stream, and nothing was
    evicted before: the map is not written, and the [append] of the new
    session stays out of sight of the stored slice. *)
Lemma create_fails_unseen st addr io ev1 :
  wf st → io_initSession io = None → is_Some (io_GetConn io) →
  let r := create st addr io (arrays st) (lookup_sessions st addr).1 ev1 in
  tr_sessions r.1.1 = tr_sessions st ∧ stored r.1.1 addr = stored st addr.
Proof.
  intros Hwf Hinit [err Hconn]. unfold create. rewrite Hinit, Hconn. cbn.
  split; [done|]. rewrite stored_same_map, stored_elems.
  by rewrite append_old_view by (by apply lookup_sessions_wf).
Qed.


Lemma create_outcome_failed st addr io h sl ev1 err :
  (create st addr io h sl ev1).1.2 = Failed err →
  io_initSession io = Some err ∨
  (io_initSession io = None ∧ io_GetConn io = Some err).
Proof.
  unfold create.
  destruct (io_initSession io) as [e0|]; [|destruct (io_GetConn io) as [e|]]; cbn;
    intros [= ->]; auto.
Qed.

(** [create] fails and nothing was evicted: the stored sequence reads
    as before. *)
Lemma create_failed_unseen st addr io ev1 err :
  wf st →
  let r := create st addr io (arrays st) (lookup_sessions st addr).1 ev1 in
  r.1.2 = Failed err →
  tr_sessions r.1.1 = tr_sessions st ∧ stored r.1.1 addr = stored st addr ∧
  (∀ a sl, EvStore a sl ∉ ev1 → EvStore a sl ∉ EvLock :: r.2 ++ [EvUnlock]).
Proof.
  intros Hwf. cbn zeta. intros Hfail.
  apply create_outcome_failed in Hfail as [Hinit|[Hinit Hconn]].
  - unfold create. rewrite Hinit. cbn. destruct st as [m h σ]. split_and!; [done..|].
    intros a sl Hev1. rewrite not_elem_of_cons, !not_elem_of_app.
    split_and!; [done|done|..]; trace_mem.
  - destruct (create_fails_unseen st addr io ev1 Hwf Hinit) as [Hmap Hsto];
      [by rewrite Hconn|].
    split_and!; [done..|]. unfold create. rewrite Hinit, Hconn. cbn.
    intros a sl Hev1. rewrite not_elem_of_cons, !not_elem_of_app.
    split_and!; [done|done|..]; trace_mem.
Qed.

(** C8 (as the code has it): when [Dial] returns an error the map is
    not assigned: the entry of the destination keeps its slice header.
    When nothing was evicted during the call, the stored sequence reads
    exactly as before the call, and a session opened by the call is not
    in it. *)
Theorem Dial_error_keeps_mapping st addr io err :
  wf st →
  let d := Dial growcap MaxMWSSStreamCnt st addr io in
  d.1.2 = Failed err →
  tr_sessions d.1.1 = tr_sessions st ∧ (∀ a sl, EvStore a sl ∉ d.2) ∧
  ((∀ s, EvIsClosed s true ∉ d.2) →
     stored d.1.1 addr = stored st addr ∧
     ∀ l s, stored d.1.1 addr = Some l → (length (objs st) ≤ s)%nat → Some s ∉ l).
Proof.
  intros Hwf. cbn zeta. rewrite Dial_trace, Dial_fst, Dial_body_paths. cbn zeta.
  assert (∀ ev1, (∀ a sl, EvStore a sl ∉ ev1) →
            let r := create st addr io (arrays st) (lookup_sessions st addr).1 ev1 in
            r.1.2 = Failed err →
            tr_sessions r.1.1 = tr_sessions st ∧
            (∀ a sl, EvStore a sl ∉ EvLock :: r.2 ++ [EvUnlock]) ∧
            ((∀ s, EvIsClosed s true ∉ EvLock :: r.2 ++ [EvUnlock]) →
               stored r.1.1 addr = stored st addr ∧
               ∀ l s, stored r.1.1 addr = Some l →
                      (length (objs st) ≤ s)%nat → Some s ∉ l)) as Hcreate.
  { intros ev1 Hev1. cbn zeta. intros Hfail.
    destruct (create_failed_unseen st addr io ev1 err Hwf Hfail) as (Hmap & Hsto & Hst).
    split_and!; [done|by auto|]. intros _. split; [done|].
    intros l s. rewrite Hsto. intros Hl Hs. by eapply stored_not_fresh. }
  destruct (scan st addr) as [i [s0|] ok|] eqn:Hscan; [| |done].
  - destruct (IsClosed (objs st) s0) eqn:Hclosed.
    + intros Hfail. cbn zeta in *.
      apply create_outcome_failed in Hfail as Hio. split_and!.
      * unfold create.
        destruct Hio as [->|[-> ->]]; done.
      * unfold create.
        destruct Hio as [->|[-> ->]]; cbn; trace_mem.
      * intros Hno. exfalso. apply (Hno s0).
        unfold create. destruct Hio as [->|[-> ->]]; cbn; trace_mem.
    + destruct ok.
      * unfold reuse. destruct (io_GetConn io) as [e|]; [|done].
        cbn. intros [= ->]. split_and!; [done|trace_mem|].
        intros _. rewrite !stored_same_map, !stored_elems. split; [done|].
        intros l s Hl Hs.
        eapply (stored_not_fresh st); [done| |done]. by rewrite stored_elems.
      * apply Hcreate. trace_mem.
  - destruct ok; [done|]. apply Hcreate. trace_mem.
Qed.

(** *** Closed sessions *)











Lemma run_cons st x rest :
  run growcap MaxMWSSStreamCnt st (x :: rest) =
    let d := do_step growcap MaxMWSSStreamCnt st x in
    let r := run growcap MaxMWSSStreamCnt d.1.1 rest in
    (r.1.1, d.1.2 ++ r.1.2, d.2 ++ r.2).
Proof.
  cbn [run]. destruct (do_step growcap MaxMWSSStreamCnt st x) as [[st1 out1] ev1].
  cbn [fst snd]. by destruct (run growcap MaxMWSSStreamCnt st1 rest) as [[??]?].
Qed.





Lemma create_outcome_returned st addr io h sl ev1 conn :
  (create st addr io h sl ev1).1.2 = Returned conn →
  io_initSession io = None ∧ io_GetConn io = None.
Proof.
  unfold create. by destruct (io_initSession io); [|destruct (io_GetConn io)].
Qed.






End Dial.

(** ** Three dials, at most two streams per session *)

Lemma run_Dial growcap Max st addr io rest :
  run growcap Max st (StepDial addr io :: rest) =
    let d := Dial growcap Max st addr io in
    let r := run growcap Max d.1.1 rest in
    (r.1.1, d.1.2 :: r.1.2, d.2 ++ r.2).
Proof.
  cbn [run do_step]. destruct (Dial growcap Max st addr io) as [[st1 out1] ev1].
  cbn [fst snd]. by destruct (run growcap Max st1 rest) as [[st2 out2] ev2].
Qed.

Lemma three_dials growcap addr :
  let r := run growcap 2 NewMWSSTransporter
             [StepDial addr io_ok; StepDial addr io_ok; StepDial addr io_ok] in
  r.1.2 = [Returned {| conn_session := 0; conn_stream := 1 |};
           Returned {| conn_session := 0; conn_stream := 2 |};
           Returned {| conn_session := 1; conn_stream := 1 |}] ∧
  stored r.1.1 addr = Some [Some 0%nat; Some 1%nat] ∧
  length (objs r.1.1) = 2%nat.
Proof.
  cbn zeta. do 3 (rewrite run_Dial; cbn zeta). cbn [run fst snd].
  (* the first dial opens session 0 *)
  destruct (Dial_new_destination growcap 2 NewMWSSTransporter addr io_ok)
    as (Hout1 & Hsto1 & Hobjs1); [apply NewMWSSTransporter_wf|done..|].
  pose proof (Dial_wf growcap 2 _ addr io_ok NewMWSSTransporter_wf) as Hwf1.
  set (d1 := Dial growcap 2 NewMWSSTransporter addr io_ok) in *.
  cbn in Hout1, Hsto1, Hobjs1.
  (* the second dial finds room on session 0 *)
  destruct (Dial_first_fit_open growcap 2 d1.1.1 addr io_ok [0%nat] 0 0)
    as (_ & _ & Hd2); [done|done|by rewrite Hobjs1|by rewrite Hobjs1|].
  destruct (Hd2 eq_refl) as (Hout2 & Hsto2 & Hobjs2). clear Hd2.
  pose proof (Dial_wf growcap 2 _ addr io_ok Hwf1) as Hwf2.
  set (d2 := Dial growcap 2 d1.1.1 addr io_ok) in *.
  rewrite Hobjs1 in Hout2, Hobjs2. cbn in Hout2, Hobjs2.
  (* the third dial finds session 0 full and opens session 1 *)
  destruct (Dial_no_fit growcap 2 d2.1.1 addr io_ok [0%nat] 0)
    as (_ & Hd3); [done|done|by rewrite Hobjs2|done|].
  destruct (Hd3 eq_refl eq_refl) as (Hout3 & Hsto3 & Hobjs3). clear Hd3.
  set (d3 := Dial growcap 2 d2.1.1 addr io_ok) in *.
  rewrite Hobjs2 in Hout3, Hsto3, Hobjs3. cbn in Hout3, Hsto3, Hobjs3.
  rewrite Hout1, Hout2, Hout3, Hsto3, Hobjs3. done.
Qed.

(** C3: over a stored sequence that is not empty the scan of [Dial]
    stops at the first session, in the order of the sequence, whose count
    of streams is below its maximum.  When that session is open, [Dial]
    asks it for the stream and opens no session, and the sequence stays
    as it is.  When no session fits, [Dial] opens a session and, once the
    stream is there, has appended it to the sequence (without its last
    session if that one was closed).  So three dials to one destination
    with at most two streams per session open two sessions: the first
    two streams are on the first session, the third on the second. *)
Theorem Dial_first_fit growcap :
  (∀ Max st addr io (ss : list sid),
     wf st → stored st addr = Some (Some <$> ss) → ss ≠ [] →
     let d := Dial growcap Max st addr io in
     match list_find (fits (objs st)) ss with
     | Some (i, s) =>
         scan st addr = ScanDone i (Some s) true ∧
         (IsClosed (objs st) s = false →
            (∀ err, EvInitSession addr err ∉ d.2) ∧
            EvGetConn s (io_GetConn io) ∈ d.2 ∧
            (io_GetConn io = None →
               d.1.2 = Returned {| conn_session := s;
                                   conn_stream := NumStreams (objs st) s + 1 |} ∧
               stored d.1.1 addr = Some (Some <$> ss)))
     | None =>
         scan st addr = ScanDone (length ss - 1) (last ss) false ∧
         EvInitSession addr (io_initSession io) ∈ d.2 ∧
         (io_initSession io = None → io_GetConn io = None →
            let n := length (objs st) in
            let kept :=
              match last ss with
              | Some s => if IsClosed (objs st) s
                          then delete (length ss - 1)%nat ss else ss
              | None => ss
              end in
            d.1.2 = Returned {| conn_session := n; conn_stream := 1 |} ∧
            stored d.1.1 addr = Some (Some <$> (kept ++ [n])))
     end) ∧
  (∀ addr,
     let r := run growcap 2 NewMWSSTransporter
                [StepDial addr io_ok; StepDial addr io_ok; StepDial addr io_ok] in
     r.1.2 = [Returned {| conn_session := 0; conn_stream := 1 |};
              Returned {| conn_session := 0; conn_stream := 2 |};
              Returned {| conn_session := 1; conn_stream := 1 |}] ∧
     stored r.1.1 addr = Some [Some 0%nat; Some 1%nat] ∧
     length (objs r.1.1) = 2%nat).
Proof.
  split; [|apply three_dials].
  intros Max st addr io ss Hwf Hst Hne. cbn zeta.
  pose proof (scan_first_fit st addr ss Hst Hne) as Hscan.
  destruct (list_find (fits (objs st)) ss) as [[i s]|] eqn:Hfind.
  - split; [done|]. intros Hopen.
    destruct (Dial_first_fit_open growcap Max st addr io ss i s Hwf Hst Hfind Hopen)
      as (Hinit & Hget & Hok).
    split_and!; [done..|]. intros Hio. by destruct (Hok Hio) as (? & ? & _).
  - split; [done|].
    destruct (proj2 (last_is_Some ss) Hne) as [s Hlast]. rewrite Hlast.
    destruct (Dial_no_fit growcap Max st addr io ss s Hwf Hst Hfind Hlast)
      as (Hinit & Hok).
    split; [done|]. intros Hi Hc. by destruct (Hok Hi Hc) as (? & ? & _).
Qed.

Lemma pool_full_wf : wf pool_full.
Proof.
  split; cbn.
  - intros addr sl [<- <-]%lookup_singleton_Some. split; cbn; lia.
  - constructor; [|done]. constructor; [|done]. intros s [= <-]. cbn. lia.
Defined.

Lemma Dial_first_fit_witness :
  (Dial double_cap 2 pool_full "D" io_ok).1.2 =
    Returned {| conn_session := 1; conn_stream := 1 |} ∧
  stored (Dial double_cap 2 pool_full "D" io_ok).1.1 "D" = Some [Some 0%nat; Some 1%nat].
Proof.
  pose proof (proj1 (Dial_first_fit double_cap) 2 pool_full "D" io_ok [0%nat]
                pool_full_wf eq_refl ltac:(done)) as H.
  cbn zeta in H.
  change (list_find (fits (objs pool_full)) [0%nat]) with (@None (nat * nat)) in H.
  destruct H as (_ & _ & H). exact (H eq_refl eq_refl).
Defined.

(** ** Runs that end in an error *)

Lemma pool_one_wf : wf pool_one.
Proof.
  split; cbn.
  - intros addr sl [<- <-]%lookup_singleton_Some. split; cbn; lia.
  - constructor; [|done]. constructor; [|done]. intros s [= <-]. cbn. lia.
Defined.

Example pool_closed_eq :
  pool_closed = State {[ "D" := Slice 0 1 1 ]} [[Some 0%nat]] [MuxSession 0 2 true].
Proof. reflexivity. Qed.



(** A closed session that the scan does not reach stays in the stored
    sequence: of two sessions the first has room again and gives the
    stream, and the second, torn down, is still stored after the call. *)
Example unreached_closed_session_persists :
  let r := run double_cap 2 NewMWSSTransporter
             [StepDial "D" io_ok; StepDial "D" io_ok; StepDial "D" io_ok;
              StepSessionCloses 1; StepStreamEnds 0; StepDial "D" io_ok] in
  last r.1.2 = Some (Returned {| conn_session := 0; conn_stream := 2 |}) ∧
  stored r.1.1 "D" = Some [Some 0%nat; Some 1%nat] ∧
  IsClosed (objs r.1.1) 1 = true.
Proof. cbn zeta. split_and!; reflexivity. Qed.

(** A closed session that the scan passes over stays as well.  A session
    that is torn down has no live stream, so the scan passes over it only
    when the maximum is below 1: every session is full then, the scan
    ends at the last one, and the closed first session is still stored
    after the call. *)
Example skipped_closed_session_persists :
  let r := run double_cap 0 NewMWSSTransporter
             [StepDial "D" io_ok; StepDial "D" io_ok; StepSessionCloses 0;
              StepDial "D" io_ok] in
  last r.1.2 = Some (Returned {| conn_session := 2; conn_stream := 1 |}) ∧
  stored r.1.1 "D" = Some [Some 0%nat; Some 1%nat; Some 2%nat] ∧
  IsClosed (objs r.1.1) 0 = true.
Proof. cbn zeta. split_and!; reflexivity. Qed.



(** C8 (counterexample to the design document): the session of "D" is
    closed.  [Dial] evicts it from its local slice, opens session 1 and
    appends it, in place, to the array the stored slice shares; session 1
    then refuses the stream. [Dial] returns the error without writing the
    map, and the stored sequence now holds session 1 where session 0 was. *)
Lemma failed_Dial_rewrites_stored_sequence :
  let d := Dial double_cap 2 pool_closed "D" io_no_stream in
  d.2 = [EvLock; EvIsClosed 0 true; EvInitSession "D" None;
         EvGetConn 1 (Some broken); EvClose 1; EvUnlock] ∧
  d.1.2 = Failed broken ∧
  tr_sessions d.1.1 = tr_sessions pool_closed ∧
  stored pool_closed "D" = Some [Some 0%nat] ∧
  stored d.1.1 "D" = Some [Some 1%nat].
Proof. cbn zeta. split_and!; reflexivity. Qed.

(** The same slip without a new session: the first of two sessions is
    closed and evicted, no session can be opened, and the stored
    sequence has lost the first session and holds the second twice. *)
Example failed_Dial_shifts_stored_sequence :
  let st := State {[ "D" := Slice 0 2 2 ]} [[Some 0%nat; Some 1%nat]]
              [MuxSession 0 2 true; MuxSession 2 2 false] in
  let d := Dial double_cap 2 st "D" io_no_session in
  d.1.2 = Failed broken ∧
  stored d.1.1 "D" = Some [Some 1%nat; Some 1%nat].
Proof. cbn zeta. split; reflexivity. Qed.

Lemma Dial_error_keeps_mapping_witness :
  let d := Dial double_cap 2 pool_one "D" io_no_stream in
  tr_sessions d.1.1 = tr_sessions pool_one ∧
  stored d.1.1 "D" = stored pool_one "D".
Proof.
  cbn zeta.
  destruct (Dial_error_keeps_mapping double_cap 2 pool_one "D" io_no_stream broken
              pool_one_wf) as (Hmap & _ & Hsto).
  - reflexivity.
  - split; [done|]. apply Hsto.
    intros s. vm_compute. intros Hin.
    repeat (apply elem_of_cons in Hin as [Hin|Hin]; [discriminate Hin|]).
    by apply elem_of_nil in Hin.
Defined.

(** C2 (counterexample to the design document): the first [Dial] to a
    destination asks the new session for its stream between the lock and
    the unlock. *)
Lemma Dial_requests_stream_under_lock :
  (Dial double_cap 2 NewMWSSTransporter "D" {| io_initSession := None; io_GetConn := None |}).2
    = [EvLock; EvInitSession "D" None; EvGetConn 0 None;
       EvStore "D" (Slice 0 1 1); EvUnlock] ∧
  ¬ requests_outside_lock
      (Dial double_cap 2 NewMWSSTransporter "D"
         {| io_initSession := None; io_GetConn := None |}).2.
Proof.
  split; [reflexivity|]. intros Hout.
  apply (Forall_lookup_1 _ _ 2%nat (EvGetConn 0 None, true)) in Hout; [|reflexivity].
  by specialize (Hout eq_refl).
Qed.

End PoolProps.

(** * Properties of the relay handlers *)
Module RelayProps.
Import Relay.

Lemma defer_trace {S R} (f : hevent) (rest : S * R * list hevent) :
  (defer f rest).2 = rest.2 ++ [f].
Proof. by destruct rest as [[??]?]. Qed.

Lemma defer_result {S R} (f : hevent) (rest : S * R * list hevent) :
  (defer f rest).1 = rest.1.
Proof. by destruct rest as [[??]?]. Qed.

Section Handlers.
Variable growcap : nat → nat → nat.
Variable MaxMWSSStreamCnt : Z.
Variable RemoteTCPAddr : string.

(** C9: each handler closes the connection it was given, once and as
    the last thing it does, however it ends.  The client-side handler
    closes the wrapper of the plaintext connection, and with it the
    connection, also when [Dial] fails or panics; the server-side
    handler closes the accepted stream also when the dial to the final
    destination fails. *)
Theorem handlers_close_their_connection :
  (∀ tr c io,
     let dc := DeadLinerConn (TCPConn c) in
     let h := handleTcpOverMWSS growcap MaxMWSSStreamCnt RemoteTCPAddr tr c io in
     closes dc (TCPConn c) ∧
     last h.2 = Some (HClose dc) ∧ closed_times dc h.2 = 1%nat ∧
     h.1.2 =
       match (Pool.Dial growcap MaxMWSSStreamCnt tr (RemoteTCPAddr +:+ "/tcp/") io).1.2 with
       | Pool.Failed err => HReturn (Some err)
       | Pool.Panicked => HPanic
       | Pool.Returned _ => HReturn None
       end) ∧
  (∀ c dialed,
     let h := handleMWSSConnToTcp RemoteTCPAddr c dialed in
     last h.2 = Some (HClose (Accepted c)) ∧
     closed_times (Accepted c) h.2 = 1%nat) ∧
  (∀ c err,
     (handleMWSSConnToTcp RemoteTCPAddr c (inr err)).2 =
       [HNetDial RemoteTCPAddr; HClose (Accepted c)]).
Proof.
  split_and!.
  - intros tr c io. cbn zeta. unfold handleTcpOverMWSS. cbn zeta.
    rewrite defer_trace, defer_result.
    destruct (Pool.Dial growcap MaxMWSSStreamCnt tr _ io) as [[tr' out] ev].
    split; [right; by left|].
    rewrite last_snoc. split; [done|].
    destruct out as [conn|err|]; cbn; unfold closed_times; cbn;
      repeat (rewrite decide_False by done); rewrite ?decide_True by done; done.
  - intros c dialed. cbn zeta. unfold handleMWSSConnToTcp.
    rewrite defer_trace, last_snoc. split; [done|].
    destruct dialed as [rc|err]; cbn; unfold closed_times; cbn;
      repeat (rewrite decide_False by done); rewrite ?decide_True by done; done.
  - done.
Qed.
End Handlers.

(** The first connection of a client, while no session can be opened:
    [Dial] fails, and the handler returns the error after closing the
    connection it was given. *)
Example handleTcpOverMWSS_Dial_fails :
  (handleTcpOverMWSS GoSlice.double_cap 2 "relay.example:443"
     Pool.NewMWSSTransporter 5 Pool.io_no_session).1.2
    = HReturn (Some Pool.broken) ∧
  (handleTcpOverMWSS GoSlice.double_cap 2 "relay.example:443"
     Pool.NewMWSSTransporter 5 Pool.io_no_session).2
    = [HDial "relay.example:443/tcp/"; HClose (DeadLinerConn (TCPConn 5))].
Proof. split; reflexivity. Qed.

End RelayProps.

(** * The invariant of the session pool *)
Module PoolInvariant.
Import GoSlice GoSliceProps Pool PoolProps.

Lemma benign_refl addr m h : benign addr m h h.
Proof. split_and!; [apply heap_le_refl|done|]. by intros a t _. Qed.

Lemma benign_trans addr m h1 h2 h3 :
  benign addr m h1 h2 → benign addr m h2 h3 → benign addr m h1 h3.
Proof.
  intros (Hle1 & Hlen1 & H1) (Hle2 & Hlen2 & H2).
  split_and!; [by eapply heap_le_trans|lia|].
  intros a t Hm. destruct (H1 a t Hm) as [Hf1 Hn1], (H2 a t Hm) as [Hf2 Hn2].
  split; [|by auto]. intros Hne. by rewrite Hf2, Hf1.
Qed.

(** A stored slice names an array of the heap. *)
Lemma inv_alloc st a t :
  pool_inv st → tr_sessions st !! a = Some t → (sl_arr t < length (arrays st))%nat.
Proof.
  intros Hinv Hm. destruct (wf_slices _ (inv_wf _ Hinv) a t Hm) as [Hlen Hcap].
  pose proof (inv_nonempty _ Hinv a t Hm) as Hpos.
  apply lookup_lt_is_Some. unfold array_at in Hcap.
  destruct (arrays st !! sl_arr t); [done|]. cbn in Hcap. lia.
Qed.

(** A write of sessions that are not nil leaves a prefix without nil so. *)
Lemma nonnil_inserts (arr vals : list ptr) n i :
  Forall is_Some (take n arr) → Forall is_Some vals →
  Forall is_Some (take n (list_inserts i vals arr)).
Proof.
  intros Harr Hvals. apply Forall_lookup_2. intros j y [Hj Hlt]%lookup_take_Some.
  apply list_lookup_inserts_Some in Hj as [[_ Hold]|(_ & _ & Hnew)].
  - eapply (Forall_lookup_1 _ _ j); [exact Harr|]. apply lookup_take_Some. done.
  - by eapply Forall_lookup_1.
Qed.

Section Dial.
Variable growcap : nat → nat → nat.
Variable MaxMWSSStreamCnt : Z.

(** [append] to a slice whose array no other destination uses, or that
    has to move to a new array, is a benign write. *)
Lemma append_benign addr (m : gmap string slice) h s vals :
  (∀ a t, m !! a = Some t → (sl_arr t < length h)%nat) →
  ((∀ a t, m !! a = Some t → a ≠ addr → sl_arr t ≠ sl_arr s) ∨
   (sl_cap s < sl_len s + length vals)%nat) →
  Forall is_Some vals →
  benign addr m h (append growcap h s vals).1.
Proof.
  intros Halloc Hown Hvals. unfold append. cbn zeta.
  case_decide as Hroom; cbn [fst].
  - destruct Hown as [Hown|?]; [|lia].
    split_and!; [apply heap_le_alter_inserts|by rewrite length_alter|].
    intros a t Hm. split.
    + intros Hne. unfold sl_elems.
      by rewrite array_at_alter_ne by (by apply not_eq_sym, (Hown a t)).
    + intros Hnn. unfold sl_elems in *.
      destruct (decide (sl_arr s = sl_arr t)) as [Heq|Hne].
      * rewrite <- Heq in *. rewrite array_at_alter_eq. by apply nonnil_inserts.
      * by rewrite array_at_alter_ne.
  - split_and!; [apply heap_le_app|rewrite length_app; lia|].
    intros a t Hm. unfold sl_elems.
    rewrite array_at_app_old by (by eapply Halloc). done.
Qed.

Lemma benign_alloc addr (m : gmap string slice) h h' :
  benign addr m h h' →
  (∀ a t, m !! a = Some t → (sl_arr t < length h)%nat) →
  ∀ a t, m !! a = Some t → (sl_arr t < length h')%nat.
Proof. intros (_ & Hlen & _) Halloc a t Hm. specialize (Halloc a t Hm). lia. Qed.

Lemma lookup_sessions_None st addr :
  tr_sessions st !! addr = None → lookup_sessions st addr = (nil_slice, false).
Proof. unfold lookup_sessions. by intros ->. Qed.

(** The array of the slice [append] returns: the old one when it wrote in
    place, a new one at the end of the heap else. *)
Lemma append_arr h s vals :
  (sl_arr (append growcap h s vals).2 = sl_arr s ∧
   (sl_len s + length vals ≤ sl_cap s)%nat) ∨
  sl_arr (append growcap h s vals).2 = length h.
Proof. unfold append. cbn zeta. case_decide; cbn; auto. Qed.

Lemma create_effect st addr io h sessions ev1 :
  pool_inv st →
  benign addr (tr_sessions st) (arrays st) h →
  wf_slice h sessions →
  Forall is_Some (sl_elems h sessions) →
  match tr_sessions st !! addr with
  | Some s0 => sl_arr sessions = sl_arr s0
  | None => sl_cap sessions = 0%nat
  end →
  handed_on st (create growcap MaxMWSSStreamCnt st addr io h sessions ev1).1.1 addr.
Proof.
  intros Hinv Hben Hsl Hnn Hown. unfold handed_on, create.
  destruct (io_initSession io) as [err|]; cbn [fst arrays tr_sessions]; [by auto|].
  cbn zeta.
  set (n := length (objs st)).
  destruct (append_elems growcap h sessions [Some n] Hsl) as [Helems Hsl'].
  assert (∀ a t, tr_sessions st !! a = Some t → (sl_arr t < length h)%nat) as Halloc.
  { eapply benign_alloc; [done|]. intros a t. by apply inv_alloc. }
  assert (benign addr (tr_sessions st) h (append growcap h sessions [Some n]).1) as Hben'.
  { apply append_benign; [done| |by repeat constructor].
    destruct (tr_sessions st !! addr) as [s0|] eqn:Hm.
    - left. intros a t Ha Hne. rewrite Hown. by eapply (inv_sep _ Hinv a addr).
    - right. cbn. lia. }
  assert (benign addr (tr_sessions st) (arrays st)
            (append growcap h sessions [Some n]).1) as Hall
    by (by eapply benign_trans).
  destruct (io_GetConn io) as [err|]; cbn [fst arrays tr_sessions]; [by auto|].
  split; [done|]. right. eexists. split; [done|]. split_and!.
  - rewrite <- (length_sl_elems _ _ Hsl'), Helems, length_app. cbn. lia.
  - rewrite Helems. apply Forall_app. split; [done|]. by repeat constructor.
  - intros b slb Hne Hb. pose proof (Halloc b slb Hb) as Hlt.
    destruct (append_arr h sessions [Some n]) as [[-> Hroom]| ->]; [|lia].
    destruct (tr_sessions st !! addr) as [s0|] eqn:Hm.
    + rewrite Hown. by eapply (inv_sep _ Hinv b addr).
    + cbn in Hroom. lia.
Qed.

(** The eviction in a pool that satisfies the invariant. *)
Lemma evict_effect st addr s0 i :
  pool_inv st → tr_sessions st !! addr = Some s0 → (i < sl_len s0)%nat →
  let e := evict growcap (arrays st) s0 i in
  benign addr (tr_sessions st) (arrays st) e.1 ∧ wf_slice e.1 e.2 ∧
  Forall is_Some (sl_elems e.1 e.2) ∧ sl_arr e.2 = sl_arr s0.
Proof.
  intros Hinv Hm Hi. cbn zeta.
  pose proof (wf_slices _ (inv_wf _ Hinv) addr s0 Hm) as Hsl.
  pose proof (inv_nonnil _ Hinv addr s0 Hm) as Hnn.
  destruct (evict_spec growcap _ _ i Hsl Hi) as (Hhdr & Helems & Hsl' & _).
  split_and!; [|done| |by rewrite Hhdr].
  - unfold evict. apply append_benign.
    + intros a t. by apply inv_alloc.
    + left. intros a t Ha Hne. cbn. by eapply (inv_sep _ Hinv a addr).
    + by apply Forall_drop.
  - rewrite Helems. by apply Forall_delete.
Qed.

Lemma Dial_body_effect st addr io :
  pool_inv st →
  handed_on st (Dial_body growcap MaxMWSSStreamCnt st addr io).1.1 addr.
Proof.
  intros Hinv. pose proof (inv_wf _ Hinv) as Hwf.
  rewrite Dial_body_paths. cbn zeta.
  pose proof (lookup_sessions_wf st addr Hwf) as Hsl.
  assert (handed_on st st addr) as Hsame by (split; [apply benign_refl|by left]).
  assert (∀ ev1, handed_on st
            (create growcap MaxMWSSStreamCnt st addr io (arrays st)
               (lookup_sessions st addr).1 ev1).1.1 addr) as Hcreate.
  { intros ev1. apply create_effect; [done|apply benign_refl|done|..].
    - unfold lookup_sessions. destruct (tr_sessions st !! addr) as [s0|] eqn:Hm; cbn.
      + by eapply inv_nonnil.
      + done.
    - unfold lookup_sessions. by destruct (tr_sessions st !! addr). }
  destruct (scan st addr) as [i [s|] ok|] eqn:Hscan; [| |done].
  - destruct (scan_in_map st addr i s ok Hscan) as (s0 & Hm & Hlook).
    destruct (scan_session st addr i s ok Hwf Hscan) as (Hi & _ & _).
    rewrite Hlook in *. cbn [fst] in *.
    destruct (IsClosed (objs st) s).
    + destruct (evict_effect st addr s0 i Hinv Hm Hi) as (Hben & Hsl' & Hnn & Harr).
      apply create_effect; [done..|]. by rewrite Hm.
    + destruct ok.
      * unfold reuse, handed_on. destruct (io_GetConn io); cbn [fst arrays tr_sessions].
        -- split; [apply benign_refl|by left].
        -- split; [apply benign_refl|]. left. by apply insert_id.
      * apply Hcreate.
  - destruct ok; [done|]. apply Hcreate.
Qed.

Lemma handed_on_inv st st' addr :
  pool_inv st → wf st' → handed_on st st' addr → pool_inv st'.
Proof.
  intros Hinv Hwf' ((Hle & Hlen & Hben) & Hmap). split; [done|..].
  - intros a t Ha. destruct Hmap as [Hmap|(sl & Hmap & Hpos & _)];
      rewrite Hmap in Ha; [by eapply inv_nonempty|].
    apply lookup_insert_Some in Ha as [[_ <-]|[_ Ha]]; [done|by eapply inv_nonempty].
  - intros a t Ha. destruct Hmap as [Hmap|(sl & Hmap & _ & Hnn & _)]; rewrite Hmap in Ha.
    + apply (Hben a t Ha). by eapply inv_nonnil.
    + apply lookup_insert_Some in Ha as [[_ <-]|[_ Ha]]; [done|].
      apply (Hben a t Ha). by eapply inv_nonnil.
  - intros a b sla slb Hne Ha Hb.
    destruct Hmap as [Hmap|(sl & Hmap & _ & _ & Hsep)]; rewrite Hmap in Ha, Hb;
      [by eapply inv_sep|].
    apply lookup_insert_Some in Ha as [[<- <-]|[Hane Ha]];
      apply lookup_insert_Some in Hb as [[<- <-]|[Hbne Hb]].
    + done.
    + apply not_eq_sym. apply (Hsep b slb); [by apply not_eq_sym|done].
    + apply (Hsep a sla); [by apply not_eq_sym|done].
    + by apply (inv_sep _ Hinv a b).
Qed.

Lemma Dial_pool_inv st addr io :
  pool_inv st → pool_inv (Dial growcap MaxMWSSStreamCnt st addr io).1.1.
Proof.
  intros Hinv. rewrite Dial_fst. eapply handed_on_inv; [done| |].
  - apply Dial_body_wf, Hinv.
  - by apply Dial_body_effect.
Qed.

Lemma NewMWSSTransporter_inv : pool_inv NewMWSSTransporter.
Proof.
  split; [apply NewMWSSTransporter_wf|..]; cbn; intros *; by rewrite ?lookup_empty.
Qed.

Lemma do_step_pool_inv st x :
  pool_inv st → pool_inv (do_step growcap MaxMWSSStreamCnt st x).1.1.
Proof.
  intros Hinv. pose proof (do_step_wf growcap MaxMWSSStreamCnt st x (inv_wf _ Hinv)) as Hwf.
  destruct x as [addr io|s|s]; cbn in *.
  - pose proof (Dial_pool_inv st addr io Hinv) as Hd.
    by destruct (Dial growcap MaxMWSSStreamCnt st addr io) as [[??]?].
  - split; [done|..]; cbn; apply Hinv.
  - split; [done|..]; cbn; apply Hinv.
Qed.

Lemma run_pool_inv script :
  ∀ st, pool_inv st → pool_inv (run growcap MaxMWSSStreamCnt st script).1.1.
Proof.
  induction script as [|x rest IH]; intros st Hinv; [done|].
  rewrite run_cons. cbn zeta. cbn [fst]. by apply IH, do_step_pool_inv.
Qed.

(** *** The scan never meets a nil *)

Lemma range_sessions_nonnil σ l :
  Forall is_Some l →
  ∀ i idx sess ok, range_sessions σ i l idx sess ok ≠ ScanPanic.
Proof.
  induction 1 as [|p l [s ->] _ IH]; intros i idx sess ok; [done|].
  cbn. case_decide; [apply IH|done].
Qed.

Lemma range_sessions_Some σ l :
  ∀ i idx s0 ok0 j sess ok,
  range_sessions σ i l idx (Some s0) ok0 = ScanDone j sess ok → is_Some sess.
Proof.
  induction l as [|[s1|] l IH]; intros i idx s0 ok0 j sess ok Hscan; cbn in Hscan.
  - by simplify_eq.
  - case_decide; [by eapply IH|by simplify_eq].
  - done.
Qed.

Lemma range_sessions_None σ l i idx ok0 j ok :
  range_sessions σ i l idx None ok0 = ScanDone j None ok → l = [] ∧ ok = ok0.
Proof.
  destruct l as [|[s1|] l]; cbn; [by intros [= _ ->]| |done].
  case_decide; [|done]. by intros [? [=]]%range_sessions_Some.
Qed.

Lemma reuse_not_panicked st addr io sl s : (reuse st addr io sl s).1.2 ≠ Panicked.
Proof. unfold reuse. by destruct (io_GetConn io). Qed.

Lemma create_not_panicked st addr io h sl ev1 :
  (create growcap MaxMWSSStreamCnt st addr io h sl ev1).1.2 ≠ Panicked.
Proof.
  unfold create. by destruct (io_initSession io); [|destruct (io_GetConn io)].
Qed.

Lemma Dial_not_panicked st addr io :
  pool_inv st → (Dial growcap MaxMWSSStreamCnt st addr io).1.2 ≠ Panicked.
Proof.
  intros Hinv. rewrite Dial_fst, Dial_body_paths. cbn zeta.
  destruct (scan st addr) as [i [s|] ok|] eqn:Hscan.
  - destruct (IsClosed (objs st) s); [apply create_not_panicked|].
    destruct ok; [apply reuse_not_panicked|apply create_not_panicked].
  - unfold scan, lookup_sessions in Hscan.
    destruct (tr_sessions st !! addr) as [s0|] eqn:Hm.
    + apply range_sessions_None in Hscan as [Hnil _].
      pose proof (length_sl_elems _ _ (wf_slices _ (inv_wf _ Hinv) addr s0 Hm)) as Hlen.
      pose proof (inv_nonempty _ Hinv addr s0 Hm). rewrite Hnil in Hlen. cbn in Hlen. lia.
    + apply range_sessions_None in Hscan as [_ ->]. apply create_not_panicked.
  - unfold scan, lookup_sessions in Hscan.
    destruct (tr_sessions st !! addr) as [s0|] eqn:Hm; [|done].
    by apply range_sessions_nonnil in Hscan; [|by eapply inv_nonnil].
Qed.

Lemma do_step_outcomes st x :
  (do_step growcap MaxMWSSStreamCnt st x).1.2 =
    match x with
    | StepDial addr io => [(Dial growcap MaxMWSSStreamCnt st addr io).1.2]
    | _ => []
    end.
Proof.
  destruct x as [addr io| |]; cbn; [|done..].
  by destruct (Dial growcap MaxMWSSStreamCnt st addr io) as [[??]?].
Qed.

Lemma run_not_panicked script :
  ∀ st, pool_inv st → Panicked ∉ (run growcap MaxMWSSStreamCnt st script).1.2.
Proof.
  induction script as [|x rest IH]; intros st Hinv.
  - cbn. apply not_elem_of_nil.
  - rewrite run_cons. cbn zeta. cbn [fst snd]. rewrite not_elem_of_app. split.
    + rewrite do_step_outcomes. destruct x as [addr io| |]; [|apply not_elem_of_nil..].
      rewrite not_elem_of_cons. split; [|apply not_elem_of_nil].
      apply not_eq_sym. by apply Dial_not_panicked.
    + by apply IH, do_step_pool_inv.
Qed.

(** X1: from the empty transporter, whatever calls of [Dial] are made
    (with whatever answers of the network) and whatever streams end and
    sessions close in between, every sequence that is stored has at least
    one session and no nil pointer, fits its backing array, points only to
    sessions that exist, and shares its array with no other destination. *)
Theorem pool_invariant_reachable script :
  pool_inv (run growcap MaxMWSSStreamCnt NewMWSSTransporter script).1.1.
Proof. apply run_pool_inv, NewMWSSTransporter_inv. Qed.

(** X2: no call of [Dial] on a pool reached from the empty transporter
    panics: the scan never dereferences a nil session, and the stream is
    never asked of a nil session. *)
Theorem Dial_never_panics script :
  Panicked ∉ (run growcap MaxMWSSStreamCnt NewMWSSTransporter script).1.2.
Proof. apply run_not_panicked, NewMWSSTransporter_inv. Qed.

(** X3: a call of [Dial] for one destination changes nothing for another:
    on a pool reached from the empty transporter the other destination
    keeps its map entry, and its stored sequence reads the same, although
    [Dial] writes into backing arrays in place. *)
Theorem Dial_leaves_other_destinations script addr a io :
  a ≠ addr →
  let st := (run growcap MaxMWSSStreamCnt NewMWSSTransporter script).1.1 in
  let d := Dial growcap MaxMWSSStreamCnt st addr io in
  tr_sessions d.1.1 !! a = tr_sessions st !! a ∧
  stored d.1.1 a = stored st a.
Proof.
  intros Hne. cbn zeta.
  set (st := (run growcap MaxMWSSStreamCnt NewMWSSTransporter script).1.1).
  assert (pool_inv st) as Hinv by apply run_pool_inv, NewMWSSTransporter_inv.
  rewrite Dial_fst.
  destruct (Dial_body_effect st addr io Hinv) as ((_ & _ & Hben) & Hmap).
  assert (tr_sessions (Dial_body growcap MaxMWSSStreamCnt st addr io).1.1 !! a =
          tr_sessions st !! a) as Hsame.
  { destruct Hmap as [->|(sl & -> & _)]; [done|]. by apply lookup_insert_ne. }
  split; [done|]. unfold stored. rewrite Hsame.
  destruct (tr_sessions st !! a) as [t|] eqn:Ha; [|done]. cbn.
  f_equal. by apply (Hben a t Ha).
Qed.

End Dial.

Lemma Dial_leaves_other_destinations_witness :
  let st := (run double_cap 2 NewMWSSTransporter
               [StepDial "A" io_ok; StepDial "B" io_ok; StepSessionCloses 1]).1.1 in
  stored (Dial double_cap 2 st "B" io_no_stream).1.1 "A" = Some [Some 0%nat] ∧
  stored (Dial double_cap 2 st "B" io_no_stream).1.1 "B" = Some [Some 2%nat].
Proof.
  cbn zeta. split; [|reflexivity].
  destruct (Dial_leaves_other_destinations double_cap 2
              [StepDial "A" io_ok; StepDial "B" io_ok; StepSessionCloses 1]
              "B" "A" io_no_stream) as [_ ->]; [done|reflexivity].
Defined.

End PoolInvariant.

(** * What a call of [Dial] does to the sessions *)
Module PoolOutcomes.
Import GoSlice GoSliceProps Pool PoolProps PoolInvariant.

Lemma range_sessions_fits σ l :
  ∀ i idx sess0 ok0 j s,
  range_sessions σ i l idx sess0 ok0 = ScanDone j (Some s) true →
  (l = [] ∧ sess0 = Some s ∧ ok0 = true) ∨ fits σ s.
Proof.
  induction l as [|[s1|] l IH]; intros i idx sess0 ok0 j s Hscan; cbn in Hscan.
  - left. by simplify_eq.
  - case_decide as Hfull.
    + apply IH in Hscan as [(_ & _ & ?)|?]; [done|by right].
    + simplify_eq. right. unfold fits. lia.
  - done.
Qed.

Lemma scan_ok_fits st addr i s :
  scan st addr = ScanDone i (Some s) true → fits (objs st) s.
Proof.
  unfold scan. destruct (lookup_sessions st addr) as [sl ok0].
  by intros [(_ & ? & _)|?]%range_sessions_fits.
Qed.

Lemma maxStreamCnt_alter σ f s0 s :
  (∀ m, maxStreamCnt (f m) = maxStreamCnt m) →
  maxStreamCnt (deref (alter f s0 σ) s) = maxStreamCnt (deref σ s).
Proof.
  intros Hf. unfold deref. rewrite list_lookup_alter.
  case_decide; [|done]. subst. by destruct (σ !! s); cbn.
Qed.

Lemma maxStreamCnt_Close σ s0 s :
  maxStreamCnt (deref (Close σ s0) s) = maxStreamCnt (deref σ s).
Proof. by apply maxStreamCnt_alter. Qed.

Lemma maxStreamCnt_open_stream σ s0 s :
  maxStreamCnt (deref (open_stream σ s0) s) = maxStreamCnt (deref σ s).
Proof. by apply maxStreamCnt_alter. Qed.

Lemma IsClosed_Close_inv σ s0 s :
  IsClosed (Close σ s0) s = true → s = s0 ∨ IsClosed σ s = true.
Proof.
  intros Hc. destruct (decide (s = s0)) as [->|Hne]; [by left|right].
  unfold IsClosed, Close in *. by rewrite deref_alter_ne in Hc.
Qed.

Lemma IsClosed_app_inv σ a b s :
  IsClosed (σ ++ [MuxSession a b false]) s = true → IsClosed σ s = true.
Proof.
  unfold IsClosed, deref. intros Hc.
  destruct (decide (s < length σ)%nat); [by rewrite lookup_app_l in Hc|].
  rewrite lookup_app_r in Hc by lia.
  by destruct (s - length σ)%nat as [|[|k]].
Qed.

Section Dial.
Variable growcap : nat → nat → nat.
Variable MaxMWSSStreamCnt : Z.

Local Abbreviation create := (Pool.create growcap MaxMWSSStreamCnt).
Local Abbreviation Dial := (Pool.Dial growcap MaxMWSSStreamCnt).

Lemma reuse_returned st addr io sl s conn :
  (reuse st addr io sl s).1.2 = Returned conn → io_GetConn io = None.
Proof. unfold reuse. by destruct (io_GetConn io). Qed.

Lemma Dial_trace_mem st addr io ev :
  ev ∈ (Dial_body growcap MaxMWSSStreamCnt st addr io).2 → ev ∈ (Dial st addr io).2.
Proof.
  intros Hin. rewrite Dial_trace. apply list_elem_of_further, elem_of_app. by left.
Qed.

Lemma Dial_trace_inv st addr io ev :
  ev ∈ (Dial st addr io).2 → ev ≠ EvLock → ev ≠ EvUnlock →
  ev ∈ (Dial_body growcap MaxMWSSStreamCnt st addr io).2.
Proof.
  rewrite Dial_trace. intros [->|Hin]%elem_of_cons Hl Hu; [done|].
  apply elem_of_app in Hin as [Hin|Hin]; [done|].
  by apply list_elem_of_singleton in Hin.
Qed.

Ltac in_trace :=
  intros;
  lazymatch goal with
  | |- _ ∉ _ =>
      rewrite ?not_elem_of_cons; split_and?; first [done | apply not_elem_of_nil]
  | |- _ ∈ _ =>
      repeat first [apply list_elem_of_here | apply list_elem_of_further]
  end.

Ltac inv_trace H :=
  repeat (apply elem_of_cons in H as [H|H]; [try discriminate H|]);
  try (apply elem_of_nil in H; destruct H).

(** The three ways through the body of [Dial]: a panic before anything is
    done, a stream asked of an open session of the sequence, or a session
    opened after the scan has reported at most the state of one session. *)
Lemma Dial_body_shape st addr io :
  let body := Dial_body growcap MaxMWSSStreamCnt st addr io in
  body = (st, Panicked, []) ∨
  (∃ i s, scan st addr = ScanDone i (Some s) true ∧ IsClosed (objs st) s = false ∧
          body = reuse st addr io (lookup_sessions st addr).1 s) ∨
  (∃ h sessions ev1,
     (∀ ev, ev ∈ ev1 → ∃ s b, ev = EvIsClosed s b) ∧
     (wf st → wf_slice h sessions) ∧
     body = create st addr io h sessions ev1).
Proof.
  cbn zeta. rewrite Dial_body_paths. cbn zeta.
  destruct (scan st addr) as [i [s|] ok|] eqn:Hscan; [| |by left].
  - destruct (IsClosed (objs st) s) eqn:Hc.
    + right. right. do 3 eexists. split_and!; [| |done].
      * intros ev Hin. inv_trace Hin. by eauto.
      * intros Hwf. destruct (scan_session st addr i s ok Hwf Hscan) as (Hi & _ & _).
        by destruct (evict_spec growcap _ _ i (lookup_sessions_wf st addr Hwf) Hi)
          as (_ & _ & ? & _).
    + destruct ok.
      * right. left. by eauto.
      * right. right. do 3 eexists. split_and!; [| |done].
        -- intros ev Hin. inv_trace Hin. by eauto.
        -- by apply lookup_sessions_wf.
  - destruct ok; [by left|].
    right. right. do 3 eexists. split_and!; [| |done].
    + intros ev Hin. by inv_trace Hin.
    + by apply lookup_sessions_wf.
Qed.

Lemma reuse_returned_all st addr io sl s conn :
  (s < length (objs st))%nat →
  let r := reuse st addr io sl s in
  r.1.2 = Returned conn →
  conn = {| conn_session := s; conn_stream := NumStreams (objs st) s + 1 |} ∧
  stored r.1.1 addr = Some (sl_elems (arrays st) sl) ∧
  objs r.1.1 = open_stream (objs st) s ∧
  tr_sessions r.1.1 !! addr = Some sl ∧
  EvStore addr sl ∈ r.2 ∧ EvGetConn s None ∈ r.2.
Proof.
  intros Hs. cbn zeta. unfold reuse. destruct (io_GetConn io); [done|]. cbn.
  intros [= <-]. rewrite stored_insert, NumStreams_open_stream by done.
  split_and!; [done..|by rewrite lookup_insert_eq| |]; in_trace.
Qed.

Lemma create_returned_all st addr io h sessions ev1 conn :
  wf_slice h sessions →
  let r := create st addr io h sessions ev1 in
  let n := length (objs st) in
  r.1.2 = Returned conn →
  conn = {| conn_session := n; conn_stream := 1 |} ∧
  stored r.1.1 addr = Some (sl_elems h sessions ++ [Some n]) ∧
  objs r.1.1 = open_stream (objs st ++ [MuxSession 0 MaxMWSSStreamCnt false]) n ∧
  (∃ sl, tr_sessions r.1.1 !! addr = Some sl ∧ EvStore addr sl ∈ r.2) ∧
  EvGetConn n None ∈ r.2 ∧ EvInitSession addr None ∈ r.2.
Proof.
  intros Hsl. cbn zeta. intros Hret.
  destruct (create_outcome_returned _ _ _ _ _ _ _ _ _ Hret) as [Hinit Hconn].
  destruct (create_ok growcap MaxMWSSStreamCnt st addr io h sessions ev1 Hsl Hinit Hconn)
    as (Hout & Hsto & Hobjs).
  rewrite Hout in Hret. injection Hret as <-. split_and!; [done..| | |].
  - unfold Pool.create. rewrite Hinit, Hconn. cbn. eexists.
    split; [by rewrite lookup_insert_eq|]. apply elem_of_app. right. in_trace.
  - unfold Pool.create. rewrite Hinit, Hconn. cbn. apply elem_of_app. right. in_trace.
  - unfold Pool.create. rewrite Hinit, Hconn. cbn. apply elem_of_app. right. in_trace.
Qed.

(** X4: when [Dial] returns a stream, the session that carries it is in
    the sequence stored for the destination, the map entry is the slice
    that was written, the session is open, and the stream is the one that
    was counted last on it. *)
Theorem Dial_records_returned_session st addr io conn :
  wf st →
  let d := Dial st addr io in
  d.1.2 = Returned conn →
  (∃ l, stored d.1.1 addr = Some l ∧ Some (conn_session conn) ∈ l) ∧
  (∃ sl, tr_sessions d.1.1 !! addr = Some sl ∧ EvStore addr sl ∈ d.2) ∧
  EvGetConn (conn_session conn) None ∈ d.2 ∧
  IsClosed (objs d.1.1) (conn_session conn) = false ∧
  conn_stream conn = NumStreams (objs d.1.1) (conn_session conn).
Proof.
  intros Hwf. cbn zeta. rewrite Dial_fst.
  destruct (Dial_body_shape st addr io)
    as [Hb|[(i & s & Hscan & Hopen & Hb)|(h & sessions & ev1 & _ & Hsl & Hb)]].
  - by rewrite Hb.
  - destruct (scan_session st addr i s true Hwf Hscan) as (_ & Hl & Hs).
    intros Hret. rewrite Hb in Hret.
    destruct (reuse_returned_all st addr io _ s conn Hs Hret)
      as (-> & Hsto & Hobjs & Hmap & Hstore & Hget).
    rewrite <- Hb in *. cbn [conn_session conn_stream]. split_and!.
    + eexists. split; [done|]. by eapply list_elem_of_lookup_2.
    + eexists. split; [done|]. by apply Dial_trace_mem.
    + by apply Dial_trace_mem.
    + by rewrite Hobjs, IsClosed_open_stream.
    + by rewrite Hobjs, NumStreams_open_stream.
  - intros Hret. rewrite Hb in Hret.
    destruct (create_returned_all st addr io h sessions ev1 conn (Hsl Hwf) Hret)
      as (-> & Hsto & Hobjs & (sl & Hmap & Hstore) & Hget & _).
    rewrite <- Hb in *. cbn [conn_session conn_stream]. split_and!.
    + eexists. split; [done|]. apply elem_of_app. right. apply list_elem_of_here.
    + eexists. split; [done|]. by apply Dial_trace_mem.
    + by apply Dial_trace_mem.
    + rewrite Hobjs, IsClosed_open_stream. unfold IsClosed. by rewrite deref_app_new.
    + rewrite Hobjs, NumStreams_open_stream by (rewrite length_app; cbn; lia).
      unfold NumStreams. by rewrite deref_app_new.
Qed.

(** X5: a stream that [Dial] returns on a session that existed before the
    call was granted below the maximum of that session, and leaves the
    session with at most its maximum of streams.  A session opened by the
    call carries the stream as its first, whatever [MaxMWSSStreamCnt] is:
    the maximum is not looked at for a new session. *)
Theorem Dial_stream_bound st addr io conn :
  wf st →
  let d := Dial st addr io in
  let s := conn_session conn in
  d.1.2 = Returned conn →
  ((s < length (objs st))%nat →
     NumStreams (objs st) s < maxStreamCnt (deref (objs st) s) ∧
     NumStreams (objs d.1.1) s = NumStreams (objs st) s + 1 ∧
     NumStreams (objs d.1.1) s ≤ maxStreamCnt (deref (objs d.1.1) s)) ∧
  ((length (objs st) ≤ s)%nat →
     s = length (objs st) ∧ conn_stream conn = 1 ∧
     NumStreams (objs d.1.1) s = 1 ∧
     maxStreamCnt (deref (objs d.1.1) s) = MaxMWSSStreamCnt).
Proof.
  intros Hwf. cbn zeta. rewrite Dial_fst.
  destruct (Dial_body_shape st addr io)
    as [Hb|[(i & s & Hscan & Hopen & Hb)|(h & sessions & ev1 & _ & Hsl & Hb)]].
  - by rewrite Hb.
  - destruct (scan_session st addr i s true Hwf Hscan) as (_ & Hl & Hs).
    pose proof (scan_ok_fits st addr i s Hscan) as Hfits. unfold fits in Hfits.
    intros Hret. rewrite Hb in Hret.
    destruct (reuse_returned_all st addr io _ s conn Hs Hret)
      as (-> & _ & Hobjs & _).
    rewrite <- Hb in *. cbn [conn_session conn_stream]. split; [|lia].
    intros _. rewrite Hobjs, NumStreams_open_stream, maxStreamCnt_open_stream by done.
    lia.
  - intros Hret. rewrite Hb in Hret.
    destruct (create_returned_all st addr io h sessions ev1 conn (Hsl Hwf) Hret)
      as (-> & _ & Hobjs & _).
    rewrite <- Hb in *. cbn [conn_session conn_stream]. split; [lia|].
    intros _. rewrite Hobjs, maxStreamCnt_open_stream.
    rewrite NumStreams_open_stream by (rewrite length_app; cbn; lia).
    unfold NumStreams. by rewrite deref_app_new.
Qed.

(** X6: a call of [Dial] opens at most one session, and it has opened one
    exactly when [initSession] was called and succeeded; the new session
    gets [MaxMWSSStreamCnt] as its maximum, and no session that existed
    has its maximum changed. *)
Theorem Dial_opens_at_most_one_session st addr io :
  let d := Dial st addr io in
  let n := length (objs st) in
  ((length (objs d.1.1) = n ∧ EvInitSession addr None ∉ d.2) ∨
   (length (objs d.1.1) = S n ∧ EvInitSession addr None ∈ d.2 ∧
    maxStreamCnt (deref (objs d.1.1) n) = MaxMWSSStreamCnt)) ∧
  ∀ s, (s < n)%nat →
       maxStreamCnt (deref (objs d.1.1) s) = maxStreamCnt (deref (objs st) s).
Proof.
  cbn zeta. rewrite Dial_trace, Dial_fst.
  destruct (Dial_body_shape st addr io)
    as [Hb|[(i & s0 & _ & _ & Hb)|(h & sessions & ev1 & Hev1 & _ & Hb)]]; rewrite Hb.
  - split; [left; split; [done|cbn; in_trace]|done].
  - unfold reuse. destruct (io_GetConn io); cbn.
    + rewrite length_Close. split; [left; split; [done|in_trace]|].
      intros s _. apply maxStreamCnt_Close.
    + rewrite length_open_stream. split; [left; split; [done|in_trace]|].
      intros s _. apply maxStreamCnt_open_stream.
  - assert (∀ e, EvInitSession addr e ∉ ev1) as Hno.
    { intros e Hin. by destruct (Hev1 _ Hin) as (? & ? & ?). }
    unfold Pool.create.
    destruct (io_initSession io) as [e0|]; [|destruct (io_GetConn io) as [e|]]; cbn.
    + split; [left|done]. split; [done|].
      rewrite not_elem_of_cons, !not_elem_of_app. split_and!; [done|apply Hno|..]; in_trace.
    + rewrite length_Close, length_app. cbn. split.
      * right. split_and!; [lia| |].
        -- apply list_elem_of_further, elem_of_app. left. apply elem_of_app. right.
           in_trace.
        -- rewrite maxStreamCnt_Close. by rewrite deref_app_new.
      * intros s Hs. by rewrite maxStreamCnt_Close, deref_app_old.
    + rewrite length_open_stream, length_app. cbn. split.
      * right. split_and!; [lia| |].
        -- apply list_elem_of_further, elem_of_app. left. apply elem_of_app. right.
           in_trace.
        -- rewrite maxStreamCnt_open_stream. by rewrite deref_app_new.
      * intros s Hs. by rewrite maxStreamCnt_open_stream, deref_app_old.
Qed.

(** X7: [Dial] closes no session but the one that has just refused the
    stream: a session that is closed after the call was closed before it,
    or it was asked for the stream, answered with the error that [Dial]
    returns, and was closed for it. *)
Theorem Dial_closes_only_refusing_session st addr io s :
  let d := Dial st addr io in
  IsClosed (objs d.1.1) s = true →
  IsClosed (objs st) s = true ∨
  ∃ err, d.1.2 = Failed err ∧ io_GetConn io = Some err ∧
         EvGetConn s (Some err) ∈ d.2 ∧ EvClose s ∈ d.2.
Proof.
  cbn zeta. rewrite Dial_trace, Dial_fst.
  destruct (Dial_body_shape st addr io)
    as [Hb|[(i & s0 & _ & _ & Hb)|(h & sessions & ev1 & Hev1 & _ & Hb)]]; rewrite Hb.
  - by left.
  - unfold reuse. destruct (io_GetConn io) as [e|]; cbn.
    + intros [->|Hc]%IsClosed_Close_inv; [|by left].
      right. exists e. split_and!; [done..| |]; in_trace.
    + rewrite IsClosed_open_stream. by left.
  - unfold Pool.create.
    destruct (io_initSession io) as [e0|]; [|destruct (io_GetConn io) as [e|]]; cbn.
    + by left.
    + intros [->|Hc]%IsClosed_Close_inv; [|left; by eapply IsClosed_app_inv].
      right. exists e. split_and!; [done..| |];
        apply list_elem_of_further, elem_of_app; left; apply elem_of_app; right;
        in_trace.
    + rewrite IsClosed_open_stream. left. by eapply IsClosed_app_inv.
Qed.

(** *** The stored slice after an eviction *)

(** X8: when [Dial] has evicted the closed session at the terminal index
    [i] and then returns an error, the map is not written, but the stored
    sequence has changed all the same, through the backing array: if no
    session could be opened it reads as the old one without the element
    at [i] and with its last element doubled; if a session was opened and
    refused the stream it reads as the old one without the element at [i]
    and with the refused session at its end. *)
Theorem Dial_error_after_eviction st addr io l i s ok err :
  wf st → stored st addr = Some l →
  scan st addr = ScanDone i (Some s) ok → IsClosed (objs st) s = true →
  let d := Dial st addr io in
  d.1.2 = Failed err →
  tr_sessions d.1.1 = tr_sessions st ∧
  stored d.1.1 addr =
    Some (delete i l ++
          match io_initSession io with
          | Some _ => drop (length l - 1) l
          | None => [Some (length (objs st))]
          end).
Proof.
  intros Hwf Hst Hscan Hc. cbn zeta. rewrite Dial_fst, Dial_body_paths. cbn zeta.
  rewrite Hscan, Hc.
  destruct (scan_session st addr i s ok Hwf Hscan) as (Hi & _ & _).
  destruct (scan_in_map st addr i s ok Hscan) as (s0 & Hm & Hlook).
  pose proof (lookup_sessions_wf st addr Hwf) as Hsl.
  pose proof (lookup_sessions_stored st addr l Hst) as Hl.
  rewrite Hlook in *. cbn [fst] in *.
  pose proof (length_sl_elems _ _ Hsl) as Hlen. rewrite Hl in Hlen.
  intros Hfail.
  apply create_outcome_failed in Hfail as Hio.
  unfold create. destruct Hio as [Hinit|[Hinit Hconn]].
  - rewrite Hinit. cbn. split; [done|]. unfold stored. cbn. rewrite Hm. cbn.
    by rewrite evict_old_view, Hl, Hlen.
  - rewrite Hinit, Hconn. cbn. split; [done|]. unfold stored. cbn. rewrite Hm. cbn.
    by rewrite evict_append_old_view, Hl.
Qed.

End Dial.

Lemma Dial_error_after_eviction_witness :
  stored (Pool.Dial double_cap 2 pool_three "D" io_no_session).1.1 "D"
    = Some [Some 0%nat; Some 2%nat; Some 2%nat].
Proof.
  refine (proj2 (Dial_error_after_eviction double_cap 2 pool_three "D" io_no_session
                   [Some 0%nat; Some 1%nat; Some 2%nat] 1 1 true broken _ eq_refl
                   eq_refl eq_refl eq_refl)).
  split; cbn.
  - intros addr sl [<- <-]%lookup_singleton_Some. split; cbn; lia.
  - constructor; [|done]. repeat (constructor; [intros s [= <-]; cbn; lia|]).
    constructor.
Defined.

Lemma Dial_records_returned_session_witness :
  let d := Pool.Dial double_cap 2 pool_one "D" io_ok in
  IsClosed (objs d.1.1) 0 = false ∧ NumStreams (objs d.1.1) 0 = 2.
Proof.
  cbn zeta.
  destruct (Dial_records_returned_session double_cap 2 pool_one "D" io_ok
              {| conn_session := 0; conn_stream := 2 |} pool_one_wf eq_refl)
    as (_ & _ & _ & Hopen & Hcount).
  split; [exact Hopen | symmetry; exact Hcount].
Defined.

Lemma Dial_stream_bound_witness :
  let d := Pool.Dial double_cap 2 pool_full "D" io_ok in
  NumStreams (objs d.1.1) 1 = 1 ∧ maxStreamCnt (deref (objs d.1.1) 1) = 2.
Proof.
  cbn zeta.
  destruct (Dial_stream_bound double_cap 2 pool_full "D" io_ok
              {| conn_session := 1; conn_stream := 1 |} pool_full_wf eq_refl)
    as [_ Hnew].
  destruct Hnew as (_ & _ & Hn & Hmax); [cbn; lia|]. by split.
Defined.

Lemma Dial_closes_only_refusing_session_witness :
  ∃ err, (Pool.Dial double_cap 2 pool_one "D" io_no_stream).1.2 = Failed err ∧
         io_GetConn io_no_stream = Some err.
Proof.
  destruct (Dial_closes_only_refusing_session double_cap 2 pool_one "D" io_no_stream 0)
    as [Hc|(err & Hout & Hio & _)]; [reflexivity|discriminate Hc|].
  by exists err.
Defined.

Lemma Dial_opens_at_most_one_session_witness :
  maxStreamCnt (deref (objs (Pool.Dial double_cap 5 pool_full "D" io_ok).1.1) 0) =
  maxStreamCnt (deref (objs pool_full) 0).
Proof.
  apply (proj2 (Dial_opens_at_most_one_session double_cap 5 pool_full "D" io_ok) 0%nat).
  cbn. lia.
Defined.

End PoolOutcomes.

(** * More on the server side *)
Module ServerMore.
Import Chan Server ServerProps.

(** ** The queue of the multiplexing loop *)

Lemma offer_bounded q cc :
  (length (buf q) ≤ cap q)%nat → (length (buf (offer q cc).1) ≤ cap q)%nat.
Proof.
  intros Hle. unfold offer, send, full. case_bool_decide; cbn; [done|].
  rewrite length_app. cbn. lia.
Qed.

Lemma offer_event q cc :
  (offer q cc).2 = MuxEnqueued cc ∨ (offer q cc).2 = MuxStreamClosed cc.
Proof. unfold offer, send. destruct (full q); auto. Qed.

Lemma offer_is_closed q cc : is_closed (offer q cc).1 = is_closed q.
Proof. unfold offer, send. by destruct (full q). Qed.

Lemma mux_loop_bounded phys script :
  ∀ fc q, (length (buf q) ≤ cap q)%nat →
  let r := mux_loop phys fc q script in
  (length (buf (queue r)) ≤ cap (queue r))%nat ∧ cap (queue r) = cap q ∧
  is_closed (queue r) = is_closed q.
Proof.
  induction script as [|[d [stream|err]] rest IH]; intros fc q Hle; cbn zeta;
    destruct (decide (fc < 5)) as [Hfc|Hfc].
  - cbn. by rewrite decide_True.
  - cbn. by rewrite decide_False.
  - rewrite mux_loop_cons_ok by done. unfold mux_after. cbn [queue].
    set (q1 := (offer (drain d q) (MuxStream phys stream)).1).
    assert (length (buf (drain d q)) ≤ cap q)%nat as Hd.
    { cbn. rewrite length_drop. lia. }
    destruct (IH fc q1) as (Hb & Hc & Hcl).
    { subst q1. rewrite offer_cap. by apply offer_bounded. }
    subst q1. rewrite offer_cap, offer_is_closed in *. cbn in Hc, Hcl.
    by rewrite Hc, Hcl in *.
  - cbn. by rewrite decide_False.
  - rewrite mux_loop_cons_err by done. cbn. rewrite length_drop. split; [lia|done].
  - cbn. by rewrite decide_False.
Qed.

(** X9: the accept queue never holds more than its capacity: whatever
    the upgrade, [smux.Server] and [AcceptStream] answer and whatever the
    consumer takes off, a queue within its capacity is within its capacity
    when [upgrade] is done with the connection, and [upgrade] has neither
    changed the capacity nor closed the channel. *)
Theorem upgrade_queue_bounded phys upgrade_err smux_err q script :
  (length (buf q) ≤ cap q)%nat →
  let r := upgrade phys upgrade_err smux_err q script in
  (length (buf (queue r)) ≤ cap (queue r))%nat ∧ cap (queue r) = cap q ∧
  is_closed (queue r) = is_closed q.
Proof.
  intros Hle. cbn zeta. unfold upgrade, mux.
  destruct upgrade_err; [done|]. destruct smux_err; [done|].
  apply (mux_loop_bounded phys script 0 q Hle).
Qed.

Lemma upgrade_queue_bounded_witness :
  (length (buf (queue (upgrade 3 None None (Chan [MuxStream 1 1] 2 false)
                         [idle 1; idle 2; idle 3]))) ≤ 2)%nat.
Proof.
  destruct (upgrade_queue_bounded 3 None None (Chan [MuxStream 1 1] 2 false)
              [idle 1; idle 2; idle 3]) as (Hb & Hc & _); [cbn; lia|].
  by rewrite Hc in Hb.
Defined.

(** ** Every stream is accounted for *)

Lemma mux_loop_accounts phys script :
  ∀ fc q,
  let tr := mux_trace (mux_loop phys fc q script) in
  accepted_of phys tr ≡ₚ enqueued_of tr ++ closed_of tr.
Proof.
  induction script as [|[d [stream|err]] rest IH]; intros fc q; cbn zeta;
    destruct (decide (fc < 5)) as [Hfc|Hfc].
  - cbn. by rewrite decide_True.
  - cbn. by rewrite decide_False.
  - rewrite mux_loop_cons_ok by done. unfold mux_after. cbn [mux_trace].
    specialize (IH fc (offer (drain d q) (MuxStream phys stream)).1). cbn zeta in IH.
    destruct (offer_event (drain d q) (MuxStream phys stream)) as [-> | ->].
    + unfold accepted_of, enqueued_of, closed_of in *. cbn. by rewrite IH.
    + unfold accepted_of, enqueued_of, closed_of in *. cbn.
      rewrite IH. apply Permutation_middle.
  - cbn. by rewrite decide_False.
  - by rewrite mux_loop_cons_err.
  - cbn. by rewrite decide_False.
Qed.

(** X10: every logical stream that the multiplexing loop accepts is put on
    the queue or closed, none is lost and none is handled twice: the
    streams enqueued together with the streams closed are the streams
    accepted, each as often. *)
Theorem upgrade_accounts_for_streams phys upgrade_err smux_err q script :
  let tr := mux_trace (upgrade phys upgrade_err smux_err q script) in
  accepted_of phys tr ≡ₚ enqueued_of tr ++ closed_of tr.
Proof.
  cbn zeta. unfold upgrade, mux.
  destruct upgrade_err; [done|]. destruct smux_err; [done|]. cbn [mux_trace].
  pose proof (mux_loop_accounts phys script 0 q) as H. cbn zeta in H.
  unfold accepted_of, enqueued_of, closed_of in *. rewrite !omap_app.
  destruct (status (mux_loop phys 0 q script)); cbn; by rewrite ?app_nil_r.
Qed.

(** ** The consumer is idle *)

Lemma mux_loop_idle phys c (xs : list nat) :
  ∀ b, (length b ≤ c)%nat →
  let r := mux_loop phys 0 (Chan b c false) (idle <$> xs) in
  let k := (c - length b)%nat in
  buf (queue r) = b ++ (MuxStream phys <$> take k xs) ∧
  enqueued_of (mux_trace r) = MuxStream phys <$> take k xs ∧
  closed_of (mux_trace r) = MuxStream phys <$> drop k xs ∧
  status r = Waiting ∧ unread r = [].
Proof.
  induction xs as [|x xs IH]; intros b Hle; cbn zeta.
  - cbn. rewrite take_nil, drop_nil, app_nil_r. done.
  - cbn [fmap list_fmap].
    change (idle x) with {| drained := 0; accepted := inl x |}.
    rewrite mux_loop_cons_ok by done.
    unfold mux_after. cbn [queue mux_trace status unread].
    change (drain 0 (Chan b c false)) with (Chan b c false).
    unfold offer, send, full. cbn [buf cap is_closed]. case_bool_decide as Hfull.
    + cbn [fst snd]. destruct (IH b Hle) as (Hb & He & Hc & Hs & Hu).
      replace (c - length b)%nat with 0%nat in * by lia.
      rewrite take_0, drop_0 in *. rewrite Hb, Hs, Hu.
      unfold enqueued_of, closed_of in *. cbn. by rewrite He, Hc.
    + cbn [fst snd].
      destruct (IH (b ++ [MuxStream phys x])) as (Hb & He & Hc & Hs & Hu).
      { rewrite length_app. cbn. lia. }
      rewrite length_app in *. cbn [length] in *.
      replace (c - length b)%nat with (S (c - (length b + 1))) by lia.
      cbn [take drop]. rewrite Hb, Hs, Hu, <- app_assoc.
      unfold enqueued_of, closed_of in *. cbn. by rewrite He, Hc.
Qed.

(** X11: while the consumer takes nothing off the queue, the streams of a
    connection fill the room that is left, in the order of their arrival,
    and every stream after that is closed: with [k] places left, the first
    [k] streams are enqueued behind what the queue held and the others are
    closed, and the loop waits for the next stream. *)
Theorem mux_loop_idle_consumer phys c b (xs : list nat) :
  (length b ≤ c)%nat →
  let r := mux_loop phys 0 (Chan b c false) (idle <$> xs) in
  let k := (c - length b)%nat in
  buf (queue r) = b ++ (MuxStream phys <$> take k xs) ∧
  enqueued_of (mux_trace r) = MuxStream phys <$> take k xs ∧
  closed_of (mux_trace r) = MuxStream phys <$> drop k xs ∧
  status r = Waiting ∧ unread r = [].
Proof. apply mux_loop_idle. Qed.

Lemma mux_loop_idle_consumer_witness :
  closed_of (mux_trace (mux_loop 0 0 (Chan [MuxStream 9 9] 3 false)
                          (idle <$> [1; 2; 3; 4]%nat)))
    = [MuxStream 0 3; MuxStream 0 4].
Proof.
  destruct (mux_loop_idle_consumer 0 3 [MuxStream 9 9] [1; 2; 3; 4]%nat)
    as (_ & _ & Hc & _); [cbn; lia|].
  exact Hc.
Defined.

(** ** The loop leaves only through a failure *)

Lemma mux_loop_no_failure phys script :
  ∀ fc q, fc < 5 → forallb (λ inp, negb (refused inp)) script = true →
  let r := mux_loop phys fc q script in
  status r = Waiting ∧ failedCount r = fc ∧ unread r = [] ∧
  forallb (λ ev, negb (is_failure ev)) (mux_trace r) = true.
Proof.
  induction script as [|[d [stream|err]] rest IH]; intros fc q Hfc Hok; cbn zeta.
  - cbn. by rewrite decide_True.
  - rewrite mux_loop_cons_ok by done. unfold mux_after.
    cbn [status failedCount unread mux_trace].
    destruct (IH fc (offer (drain d q) (MuxStream phys stream)).1 Hfc Hok)
      as (Hs & Hf & Hu & Ht).
    split_and!; [done..|]. cbn [app forallb is_failure negb andb].
    by rewrite offer_not_failure.
  - done.
Qed.

(** The loop itself never closes the multiplexer: that is left to the
    deferred call. *)
Lemma mux_loop_never_closes phys script :
  ∀ fc q, MuxClosed ∉ mux_trace (mux_loop phys fc q script).
Proof.
  induction script as [|[d [stream|err]] rest IH]; intros fc q;
    destruct (decide (fc < 5)) as [Hfc|Hfc].
  - cbn. rewrite decide_True by done. apply not_elem_of_nil.
  - cbn. rewrite decide_False by done. apply not_elem_of_nil.
  - rewrite mux_loop_cons_ok by done. unfold mux_after. cbn [mux_trace app].
    rewrite !not_elem_of_cons. split_and!; [done| |apply IH].
    by destruct (offer_event (drain d q) (MuxStream phys stream)) as [-> | ->].
  - cbn. rewrite decide_False by done. apply not_elem_of_nil.
  - rewrite mux_loop_cons_err by done. cbn. rewrite not_elem_of_cons.
    split; [done|apply not_elem_of_nil].
  - cbn. rewrite decide_False by done. apply not_elem_of_nil.
Qed.

(** X12: the multiplexing loop leaves only through a failed
    [AcceptStream].  If no [AcceptStream] fails the loop is still waiting
    for a stream when the script is used up, [failedCount] is 0 and the
    multiplexer has not been closed; if one fails the loop is over and the
    multiplexer is closed. *)
Theorem mux_leaves_only_on_failure phys q script :
  let r := mux phys None q script in
  if existsb refused script
  then status r = Exited ∧ last (mux_trace r) = Some MuxClosed
  else (status r = Waiting ∧ failedCount r = 0 ∧ unread r = [] ∧
        (MuxClosed ∉ mux_trace r) ∧
        forallb (λ ev, negb (is_failure ev)) (mux_trace r) = true).
Proof.
  cbn zeta. destruct (existsb refused script) eqn:Hex.
  - assert (∀ fc q, fc < 5 → status (mux_loop phys fc q script) = Exited) as Hexit.
    { clear q. induction script as [|[d [stream|err]] rest IH]; intros fc q Hfc;
        [done| |by rewrite mux_loop_cons_err].
      rewrite mux_loop_cons_ok by done. cbn. apply IH; [exact Hex|done]. }
    unfold mux. cbn [status mux_trace]. rewrite (Hexit 0 q) by done.
    by rewrite last_snoc.
  - assert (forallb (λ inp, negb (refused inp)) script = true) as Hok.
    { apply forallb_forall. intros inp Hin.
      destruct (refused inp) eqn:Hr; [|done].
      assert (existsb refused script = true) as Habs
        by (apply existsb_exists; by exists inp).
      congruence. }
    destruct (mux_loop_no_failure phys script 0 q) as (Hs & Hf & Hu & Ht); [done..|].
    unfold mux. cbn [status failedCount unread mux_trace]. rewrite Hs, app_nil_r.
    split_and!; [done..|apply mux_loop_never_closes|done].
Qed.

(** ** The delays of the accept loop *)

Lemma next_delay_bounds d :
  d = 0 ∨ 5 * Millisecond ≤ d ≤ Second →
  5 * Millisecond ≤ next_delay d ≤ Second.
Proof.
  unfold next_delay, Second, Millisecond. cbn zeta. intros [->|Hd].
  - destruct (decide (0 = 0)); [|done]. case_decide; lia.
  - destruct (decide (d = 0)); [lia|].
    rewrite wrap64_small by (change (2 ^ 63) with 9223372036854775808; lia).
    case_decide; lia.
Qed.

Lemma accept_loop_bounds script :
  ∀ d, d = 0 ∨ 5 * Millisecond ≤ d ≤ Second →
  let r := accept_loop d script in
  Forall (λ d', 5 * Millisecond ≤ d' ≤ Second) (slept_of (accept_trace r)) ∧
  (tempDelay r = 0 ∨ 5 * Millisecond ≤ tempDelay r ≤ Second).
Proof.
  induction script as [|[c [e|]] rest IH]; intros d Hd; cbn zeta; cbn [accept_loop].
  - by split.
  - destruct (is_temporary e); [|by split].
    pose proof (next_delay_bounds d Hd) as Hn.
    destruct (IH (next_delay d)) as [Hs Ht]; [by right|].
    unfold accept_after, slept_of in *. cbn. split; [by constructor|done].
  - destruct (IH 0) as [Hs Ht]; [by left|].
    unfold accept_after, slept_of in *. cbn. by split.
Qed.

(** X13: whatever [Accept] answers and in whatever order, the accept loop
    never sleeps less than 5ms nor more than one second, and between two
    turns [tempDelay] is 0 or within these bounds: the doubling never
    overflows. *)
Theorem accept_loop_delay_bounds script :
  let r := accept_loop 0 script in
  Forall (λ d, 5 * Millisecond ≤ d ≤ Second) (slept_of (accept_trace r)) ∧
  (tempDelay r = 0 ∨ 5 * Millisecond ≤ tempDelay r ≤ Second).
Proof. apply accept_loop_bounds. by left. Qed.

(** ** The handlers the accept loop starts *)

Lemma spawned_of_after evs r :
  spawned_of (accept_trace (accept_after evs r)) =
  spawned_of evs ++ spawned_of (accept_trace r).
Proof. unfold spawned_of, accept_after. cbn. apply omap_app. Qed.

(** X14: the accept loop starts one handler for each answer of [Accept]
    without an error, in the order of the answers, and none for an answer
    with an error; it goes on as long as the errors are temporary, and the
    first error that is not is what it returns, the answers after it being
    never asked for. *)
Theorem accept_loop_spawns_in_order pre d :
  Forall goes_on pre →
  (returned (accept_loop d pre) = None ∧
   spawned_of (accept_trace (accept_loop d pre)) = conns_of pre) ∧
  (∀ conn e rest, is_temporary e = false →
     returned (accept_loop d (pre ++ (conn, Some e) :: rest)) = Some e ∧
     spawned_of (accept_trace (accept_loop d (pre ++ (conn, Some e) :: rest)))
       = conns_of pre).
Proof.
  intros Hpre. revert d.
  induction Hpre as [|[c [e|]] pre Hgo _ IH]; intros d.
  - split; [done|]. intros conn e rest Hfatal. cbn. by rewrite Hfatal.
  - unfold goes_on in Hgo. cbn in Hgo.
    destruct (IH (next_delay d)) as [[Hr Hs] Hf].
    cbn [app accept_loop]. rewrite Hgo. cbn zeta.
    split; [by rewrite spawned_of_after|].
    intros conn e' rest Hfatal. destruct (Hf conn e' rest Hfatal) as [Hr' Hs'].
    by rewrite spawned_of_after.
  - destruct (IH 0) as [[Hr Hs] Hf]. cbn [app accept_loop].
    split.
    + rewrite spawned_of_after. unfold conns_of in *. cbn. by rewrite Hs.
    + intros conn e' rest Hfatal. destruct (Hf conn e' rest Hfatal) as [Hr' Hs'].
      rewrite spawned_of_after. unfold conns_of in *. cbn. by rewrite Hs'.
Qed.

Lemma accept_loop_spawns_in_order_witness :
  spawned_of (accept_trace (accept_loop 0
    ([(Some (MuxStream 0 1), None); temp_err; (Some (MuxStream 0 2), None)] ++
     (None, Some (Error "closed" false false)) :: [(Some (MuxStream 0 3), None)])))
  = [Some (MuxStream 0 1); Some (MuxStream 0 2)].
Proof.
  refine (proj2 (proj2 (accept_loop_spawns_in_order
    [(Some (MuxStream 0 1), None); temp_err; (Some (MuxStream 0 2), None)] 0 _)
    None (Error "closed" false false) [(Some (MuxStream 0 3), None)] eq_refl)).
  repeat constructor.
Defined.

(** ** The accept loop on the channels of the server *)

Lemma recv_buf {A} (ch ch' : chan A) v :
  recv ch = Some (v, ch') →
  (∃ x, v = Some x ∧ buf ch = x :: buf ch') ∨ (v = None ∧ buf ch = [] ∧ ch' = ch).
Proof.
  unfold recv. destruct (buf ch) as [|x rest] eqn:Hb.
  - destruct (is_closed ch); [|done]. intros [= <- <-]. by right.
  - intros [= <- <-]. left. by exists x.
Qed.

Lemma Accept_conn s c conn err s' :
  Accept s c = Some (conn, err, s') →
  option_list conn ++ buf (connChan s') = buf (connChan s) ∧
  option_list err ++ buf (errChan s') = buf (errChan s) ∧
  (is_Some err → c = FromErrChan ∧ conn = None).
Proof.
  unfold Accept. destruct c.
  - destruct (recv (connChan s)) as [[v ch]|] eqn:Hrecv; [|done].
    intros [= <- <- <-]. cbn.
    split_and!; [|done|by intros [? [=]]].
    apply recv_buf in Hrecv as [(x & -> & ->)|(-> & Hb & ->)]; [done|by rewrite Hb].
  - destruct (recv (errChan s)) as [[v ch]|] eqn:Hrecv; [|done].
    intros [= <- <- <-]. cbn. split_and!; [done| |done].
    apply recv_buf in Hrecv as [(x & -> & ->)|(-> & Hb & ->)]; [done|by rewrite Hb].
Qed.

(** X15: the accept loop hands the queued streams to handlers in the
    order of the queue, each once: whatever cases the [select] of [Accept]
    picks, the connections on which handlers were started, followed by
    what is left on [connChan], are what [connChan] held, as long as no
    multiplexing loop adds to it in between.  (A handler started on a nil
    connection, which a closed [errChan] yields, counts for nothing
    here.) *)
Theorem serve_loop_fifo cs :
  ∀ d s,
  omap id (spawned_of (accept_trace (serve_loop d s cs).1)) ++
    buf (connChan (serve_loop d s cs).2)
  = buf (connChan s).
Proof.
  induction cs as [|c cs IH]; intros d s; [done|].
  cbn [serve_loop].
  destruct (Accept s c) as [[[conn [e|]] s']|] eqn:Hacc; [| |done].
  - apply Accept_conn in Hacc as (Hc & _ & Hnil).
    destruct (Hnil ltac:(eauto)) as [_ ->]. cbn in Hc.
    destruct (is_temporary e); [|by rewrite <- Hc].
    cbn zeta. specialize (IH (next_delay d) s').
    destruct (serve_loop (next_delay d) s' cs) as [r s'']. cbn [fst snd] in *.
    rewrite spawned_of_after. cbn. by rewrite IH.
  - apply Accept_conn in Hacc as (Hc & _ & _).
    destruct conn as [x|]; [|by rewrite <- Hc].
    specialize (IH 0 s'). destruct (serve_loop 0 s' cs) as [r s'']. cbn [fst snd] in *.
    rewrite spawned_of_after. unfold spawned_of at 1. cbn in *. by rewrite IH.
Qed.

Lemma serve_loop_returned cs :
  ∀ d s e,
  returned (serve_loop d s cs).1 = Some e →
  e ∈ buf (errChan s) ∧ is_temporary e = false.
Proof.
  induction cs as [|c cs IH]; intros d s e; [done|].
  cbn [serve_loop].
  destruct (Accept s c) as [[[conn [e'|]] s']|] eqn:Hacc; [| |done].
  - apply Accept_conn in Hacc as (_ & He & _). cbn in He.
    destruct (is_temporary e') eqn:Htemp.
    + cbn zeta. specialize (IH (next_delay d) s' e).
      destruct (serve_loop (next_delay d) s' cs) as [r s'']. cbn [fst snd] in *.
      intros Hret. destruct (IH Hret) as [Hin ?]. split; [|done].
      rewrite <- He. by apply list_elem_of_further.
    + cbn. intros [= <-]. split; [|done]. rewrite <- He. apply list_elem_of_here.
  - apply Accept_conn in Hacc as (_ & He & _). cbn in He.
    destruct conn as [x|]; [|done].
    specialize (IH 0 s' e). destruct (serve_loop 0 s' cs) as [r s'']. cbn [fst snd] in *.
    intros Hret. destruct (IH Hret) as [Hin ?]. split; [|done]. by rewrite <- He.
Qed.

(** X16: the only errors the accept loop looks at are those the serving
    goroutine put on [errChan]: an error the loop returns was on
    [errChan] and is not temporary, and [connChan] never yields one. *)
Theorem serve_loop_returns_serve_error cs d s e :
  returned (serve_loop d s cs).1 = Some e →
  e ∈ buf (errChan s) ∧ is_temporary e = false.
Proof. apply serve_loop_returned. Qed.

Lemma serve_loop_returns_serve_error_witness :
  Error "listener closed" true false ∈ [Error "listener closed" true false] ∧
  is_temporary (Error "listener closed" true false) = false.
Proof.
  exact (serve_loop_returns_serve_error [FromConnChan; FromErrChan] 0
    {| addr := ":443"; connChan := Chan [MuxStream 0 1] 1024 false;
       errChan := Chan [Error "listener closed" true false] 1 true |}
    (Error "listener closed" true false) eq_refl).
Defined.

(** ** The accept loop once [server.Serve] has returned *)

(** While [connChan] is open and the error of [Serve] waits on the closed
    [errChan], a run of the loop neither sleeps nor starts a handler on a
    nil connection, and returns nothing but that error. *)
Lemma serve_loop_with_error e cs :
  is_temporary e = false →
  ∀ d s, is_closed (connChan s) = false → errChan s = Chan [e] 1%nat true →
  let r := (serve_loop d s cs).1 in
  (Spawned None ∉ accept_trace r) ∧ slept_of (accept_trace r) = [] ∧
  ∀ e', returned r = Some e' → e' = e.
Proof.
  intros Hfatal. induction cs as [|c cs IH]; intros d s Hopen Herr; cbn zeta.
  - cbn. split_and!; [apply not_elem_of_nil|done..].
  - cbn [serve_loop]. destruct c; cbn [Accept].
    + unfold recv. destruct (buf (connChan s)) as [|v rest].
      { rewrite Hopen. cbn. split_and!; [apply not_elem_of_nil|done..]. }
      specialize (IH 0 {| addr := addr s;
                          connChan := Chan rest (cap (connChan s)) (is_closed (connChan s));
                          errChan := errChan s |} Hopen Herr).
      cbn zeta in IH. destruct (serve_loop 0 _ cs) as [r s'']. cbn [fst] in *.
      destruct IH as (Hnil & Hslept & Hret). unfold accept_after. cbn.
      split_and!; [|done..]. rewrite not_elem_of_cons. by split.
    + rewrite Herr. cbn. rewrite Hfatal. cbn.
      split_and!; [apply not_elem_of_nil|done|]. by intros e' [= <-].
Qed.

Lemma serve_loop_drains_then_returns e k :
  is_temporary e = false →
  ∀ d s rest, errChan s = Chan [e] 1%nat true → (k ≤ length (buf (connChan s)))%nat →
  let r := (serve_loop d s (replicate k FromConnChan ++ FromErrChan :: rest)).1 in
  returned r = Some e ∧
  accept_trace r = (λ c, Spawned (Some c)) <$> take k (buf (connChan s)).
Proof.
  intros Hfatal. induction k as [|k IH]; intros d s rest Herr Hk; cbn zeta.
  - cbn [replicate app serve_loop Accept]. rewrite Herr. cbn. by rewrite Hfatal.
  - cbn [replicate app serve_loop Accept]. unfold recv.
    destruct (buf (connChan s)) as [|v b] eqn:Hbuf; [cbn in Hk; lia|].
    specialize (IH 0 {| addr := addr s;
                        connChan := Chan b (cap (connChan s)) (is_closed (connChan s));
                        errChan := errChan s |} rest Herr).
    cbn zeta in IH. cbn [connChan buf] in IH.
    destruct IH as [Hret Htr]; [cbn in Hk; lia|].
    destruct (serve_loop 0 _ (replicate k FromConnChan ++ FromErrChan :: rest))
      as [r s'']. cbn [fst] in *.
    unfold accept_after. cbn. by rewrite Htr.
Qed.

(** X17: when [server.Serve] ends with an error that is not temporary,
    the serving goroutine puts it on [errChan] and closes [errChan]
    without parking.  From then on, with [connChan] open, the accept loop
    never sleeps and never starts a handler on a nil connection: while
    the [select] of [Accept] picks [connChan] it starts handlers on the
    queued streams, in the order of the queue, and in the first turn in
    which the [select] picks [errChan] it returns the error of [Serve],
    which is the only value it can return. *)
Theorem accept_loop_after_Serve_error e a q :
  is_temporary e = false → is_closed q = false →
  let g := serve_goroutine (Some e) (make 1) in
  let s := {| addr := a; connChan := q; errChan := g.1 |} in
  g.2 = Exited ∧
  (∀ cs d,
     let r := (serve_loop d s cs).1 in
     (Spawned None ∉ accept_trace r) ∧ slept_of (accept_trace r) = [] ∧
     ∀ e', returned r = Some e' → e' = e) ∧
  (∀ k rest d, (k ≤ length (buf q))%nat →
     let r := (serve_loop d s (replicate k FromConnChan ++ FromErrChan :: rest)).1 in
     returned r = Some e ∧
     accept_trace r = (λ c, Spawned (Some c)) <$> take k (buf q)).
Proof.
  intros Hfatal Hopen. cbn zeta.
  change (serve_goroutine (Some e) (make 1)) with (Chan [e] 1%nat true, Exited).
  cbn [fst snd]. split_and!; [done| |].
  - intros cs d. by apply (serve_loop_with_error e cs Hfatal).
  - intros k rest d Hk.
    by apply (serve_loop_drains_then_returns e k Hfatal d
                {| addr := a; connChan := q; errChan := Chan [e] 1%nat true |} rest).
Qed.

Lemma accept_loop_after_Serve_error_witness :
  let r := (serve_loop 0
              {| addr := ":443";
                 connChan := Chan [MuxStream 0 1; MuxStream 0 2; MuxStream 1 1] 1024 false;
                 errChan := (serve_goroutine (Some (Error "server closed" false false))
                               (make 1)).1 |}
              (replicate 2 FromConnChan ++ FromErrChan :: [FromConnChan])).1 in
  returned r = Some (Error "server closed" false false) ∧
  accept_trace r = [Spawned (Some (MuxStream 0 1)); Spawned (Some (MuxStream 0 2))].
Proof.
  cbn zeta.
  refine (proj2 (proj2 (accept_loop_after_Serve_error
    (Error "server closed" false false) ":443"
    (Chan [MuxStream 0 1; MuxStream 0 2; MuxStream 1 1] 1024 false) _ _))
    2%nat [FromConnChan] 0 _); [reflexivity|reflexivity|cbn; lia].
Defined.

End ServerMore.

(** * The pool and a network that answers *)
Module PoolPacking.
Import GoSlice GoSliceProps Pool PoolProps PoolInvariant.

Lemma deref_packed_full m q r i :
  (i < q)%nat → deref (packed_objs m q r) i = MuxSession (Z.of_nat m) (Z.of_nat m) false.
Proof.
  intros Hi. unfold deref, packed_objs.
  rewrite lookup_app_l by (by rewrite length_replicate).
  by rewrite lookup_replicate_2.
Qed.

Lemma deref_packed_last m q r :
  deref (packed_objs m q r) q = MuxSession (Z.of_nat r) (Z.of_nat m) false.
Proof.
  unfold deref, packed_objs.
  rewrite lookup_app_r by (by rewrite length_replicate).
  by rewrite length_replicate, Nat.sub_diag.
Qed.

Lemma length_packed_objs m q r : length (packed_objs m q r) = S q.
Proof. unfold packed_objs. rewrite length_app, length_replicate. cbn. lia. Qed.

Lemma open_stream_packed m q r :
  open_stream (packed_objs m q r) q = packed_objs m q (r + 1).
Proof.
  unfold open_stream, packed_objs.
  rewrite alter_app_r_alt by (by rewrite length_replicate).
  rewrite length_replicate, Nat.sub_diag. cbn. do 3 f_equal. lia.
Qed.

Lemma open_stream_packed_new m q :
  open_stream (packed_objs m q m ++ [MuxSession 0 (Z.of_nat m) false]) (S q)
  = packed_objs m (S q) 1.
Proof.
  unfold open_stream.
  rewrite alter_app_r_alt by (rewrite length_packed_objs; lia).
  rewrite length_packed_objs, Nat.sub_diag. cbn [alter list_alter].
  unfold packed_objs. by rewrite replicate_S_end.
Qed.

(** The first fit of a packed pool is its last session, if that one has
    room. *)
Lemma list_find_packed_room m q r :
  (r < m)%nat →
  list_find (fits (packed_objs m q r)) (seq 0 (S q)) = Some (q, q).
Proof.
  intros Hr. apply list_find_Some. split_and!.
  - by rewrite lookup_seq_lt by lia.
  - unfold fits, NumStreams. rewrite deref_packed_last. cbn. lia.
  - intros j y [-> Hj]%lookup_seq Hlt. unfold fits, NumStreams.
    rewrite deref_packed_full by done. cbn. lia.
Qed.

Lemma list_find_packed_full m q :
  list_find (fits (packed_objs m q m)) (seq 0 (S q)) = None.
Proof.
  apply list_find_None, Forall_lookup_2. intros j y [-> Hj]%lookup_seq.
  unfold fits, NumStreams. cbn [Nat.add].
  destruct (decide (j < q)%nat) as [Hlt|Hge].
  - rewrite deref_packed_full by done. cbn. lia.
  - replace j with q by lia. rewrite deref_packed_last. cbn. lia.
Qed.

(** Division of the successor, in the two cases of the pool. *)
Lemma div_mod_succ m k :
  (0 < m)%nat →
  ((k mod m + 1 < m)%nat ∧ (S k / m = k / m)%nat ∧ (S k mod m = k mod m + 1)%nat) ∨
  ((k mod m + 1 = m)%nat ∧ (S k / m = S (k / m))%nat ∧ (S k mod m = 0)%nat).
Proof.
  intros Hm. pose proof (Nat.div_mod_eq k m) as Hk.
  pose proof (Nat.mod_upper_bound k m ltac:(lia)) as Hr.
  destruct (decide (k mod m + 1 < m)%nat) as [Hlt|Hge]; [left|right]; split_and!.
  - done.
  - symmetry. apply (Nat.div_unique _ _ _ (k mod m + 1)); lia.
  - symmetry. apply (Nat.mod_unique _ _ (k / m)); lia.
  - lia.
  - symmetry. apply (Nat.div_unique _ _ _ 0); lia.
  - symmetry. apply (Nat.mod_unique _ _ (S (k / m))); lia.
Qed.

Section Dial.
Variable growcap : nat → nat → nat.

Local Abbreviation Dial m := (Pool.Dial growcap (Z.of_nat m)).
Local Abbreviation run m := (Pool.run growcap (Z.of_nat m)).

(** One more stream on a packed pool. *)
Lemma Dial_packed m addr k st :
  (0 < m)%nat → packed m addr k st →
  (Dial m st addr io_ok).1.2 = kth_stream m k ∧
  packed m addr (S k) (Dial m st addr io_ok).1.1.
Proof.
  intros Hm [Hwf Hk].
  pose proof (Dial_wf growcap (Z.of_nat m) st addr io_ok Hwf) as Hwf'.
  destruct k as [|k].
  - destruct Hk as [Hst Hobjs].
    destruct (Dial_new_destination growcap (Z.of_nat m) st addr io_ok Hwf Hst)
      as (Hout & Hsto & Hnew); [done..|].
    rewrite Hobjs in Hout, Hsto, Hnew. cbn in Hout, Hsto, Hnew.
    unfold kth_stream, packed.
    rewrite !Nat.Div0.div_0_l, !Nat.Div0.mod_0_l. split; [done|].
    split_and!; [done..|]. rewrite Hnew. unfold packed_objs. cbn. done.
  - destruct Hk as [Hst Hobjs].
    set (q := (k / m)%nat) in *. set (r := (k mod m + 1)%nat) in *.
    destruct (div_mod_succ m k Hm) as [(Hr & Hq' & Hr')|(Hr & Hq' & Hr')];
      fold q r in Hr, Hq', Hr'.
    + (* the last session has room *)
      destruct (Dial_first_fit_open growcap (Z.of_nat m) st addr io_ok (seq 0 (S q)) q q)
        as (_ & _ & Hok); [done|done| | |].
      { rewrite Hobjs. by apply list_find_packed_room. }
      { unfold IsClosed. by rewrite Hobjs, deref_packed_last. }
      destruct (Hok eq_refl) as (Hout & Hsto & Hnew).
      unfold kth_stream, packed. rewrite Hq', Hr'. fold q r. split.
      * rewrite Hout. unfold NumStreams. rewrite Hobjs, deref_packed_last. cbn.
        do 2 f_equal. lia.
      * split_and!; [done..|]. by rewrite Hnew, Hobjs, open_stream_packed.
    + (* every session is full *)
      destruct (Dial_no_fit growcap (Z.of_nat m) st addr io_ok (seq 0 (S q)) q)
        as (_ & Hok); [done|done| | |].
      { rewrite Hobjs, Hr. apply list_find_packed_full. }
      { rewrite seq_S, last_snoc. done. }
      destruct (Hok eq_refl eq_refl) as (Hout & Hsto & Hnew). cbn zeta in *.
      assert (IsClosed (objs st) q = false) as Hopen
        by (unfold IsClosed; by rewrite Hobjs, deref_packed_last).
      rewrite Hopen in Hsto.
      rewrite Hobjs, length_packed_objs in Hout, Hsto, Hnew.
      unfold kth_stream, packed. rewrite Hq', Hr'. fold q. split; [done|].
      split_and!; [done| |].
      * rewrite Hsto. by rewrite (seq_S (S q)).
      * rewrite Hnew, Hr. apply open_stream_packed_new.
Qed.

Lemma run_packed m addr n :
  (0 < m)%nat →
  ∀ k st, packed m addr k st →
  (run m st (replicate n (StepDial addr io_ok))).1.2 = kth_stream m <$> seq k n ∧
  packed m addr (k + n) (run m st (replicate n (StepDial addr io_ok))).1.1.
Proof.
  intros Hm. induction n as [|n IH]; intros k st Hk.
  - cbn. by rewrite Nat.add_0_r.
  - cbn [replicate]. rewrite run_Dial. cbn zeta. cbn [fst snd].
    destruct (Dial_packed m addr k st Hm Hk) as [Hout Hk'].
    destruct (IH (S k) _ Hk') as [Houts Hfin].
    rewrite Hout, Houts. split; [done|]. by replace (k + S n)%nat with (S k + n)%nat by lia.
Qed.

(** X18: the pool packs the streams of a destination.  With at most
    [m >= 1] streams on a session, a network that answers and no stream
    ending, [n] calls of [Dial] for one destination on the empty
    transporter all succeed; the call number [k] (from 0) gets stream
    [k mod m + 1] of session [k / m]; and in the end the pool holds the
    [(n + m - 1) / m] sessions it opened, stored in that order. *)
Theorem Dial_packs_streams m addr n :
  (0 < m)%nat →
  let r := run m NewMWSSTransporter (replicate n (StepDial addr io_ok)) in
  r.1.2 = kth_stream m <$> seq 0 n ∧
  length (objs r.1.1) = ((n + m - 1) / m)%nat ∧
  stored r.1.1 addr =
    match n with
    | O => None
    | S _ => Some (Some <$> seq 0 ((n + m - 1) / m))
    end.
Proof.
  intros Hm. cbn zeta.
  destruct (run_packed m addr n Hm 0 NewMWSSTransporter) as [Houts [_ Hfin]].
  { split; [apply NewMWSSTransporter_wf|done]. }
  split; [done|]. cbn [Nat.add] in Hfin. destruct n as [|n].
  - destruct Hfin as [Hsto Hobjs]. rewrite Hobjs. split; [|done].
    cbn. symmetry. apply Nat.div_small. lia.
  - destruct Hfin as [Hsto Hobjs].
    assert ((S n + m - 1) / m = S (n / m))%nat as ->.
    { replace (S n + m - 1)%nat with (n + 1 * m)%nat by lia.
      rewrite Nat.div_add by lia. lia. }
    by rewrite Hobjs, length_packed_objs.
Qed.

End Dial.

Lemma Dial_packs_streams_witness :
  (Pool.run double_cap (Z.of_nat 3) NewMWSSTransporter
     (replicate 7 (StepDial "D" io_ok))).1.2
  = kth_stream 3 <$> seq 0 7.
Proof. apply (Dial_packs_streams double_cap 3 "D" 7). lia. Defined.

End PoolPacking.

(** * The sessions of the pool over time *)
Module PoolBounds.
Import GoSlice GoSliceProps Pool PoolProps PoolInvariant PoolOutcomes.

Lemma Close_session_ok Max σ s :
  Forall (session_ok Max) σ → Forall (session_ok Max) (Close σ s).
Proof.
  intros Hσ. apply Forall_alter; [done|]. intros m _ [Hn Hmax].
  split; cbn; [lia|done].
Qed.

Lemma stream_ends_session_ok Max σ s :
  Forall (session_ok Max) σ → Forall (session_ok Max) (stream_ends σ s).
Proof.
  intros Hσ. apply Forall_alter; [done|]. intros m _ [Hn Hmax].
  split; cbn; [lia|done].
Qed.

(** A stream that is opened and ends leaves its session as it was. *)
Lemma stream_ends_open_stream σ s :
  (∀ m, σ !! s = Some m → 0 ≤ numStreams m) →
  stream_ends (open_stream σ s) s = σ.
Proof.
  intros Hpos. unfold stream_ends, open_stream. apply list_eq. intros j.
  destruct (decide (s = j)) as [<-|Hne].
  - rewrite !list_lookup_alter_eq. destruct (σ !! s) as [m|] eqn:Hm; [|done].
    cbn. f_equal. specialize (Hpos m eq_refl). destruct m as [n mx c]; cbn in *.
    f_equal. lia.
  - by rewrite !list_lookup_alter_ne.
Qed.

Lemma fits_lookup σ s : fits σ s → ∃ m, σ !! s = Some m ∧ numStreams m < maxStreamCnt m.
Proof.
  unfold fits, NumStreams, deref. destruct (σ !! s) as [m|]; cbn; [by eauto|lia].
Qed.

Lemma open_stream_session_ok Max σ s :
  Forall (session_ok Max) σ → fits σ s → Forall (session_ok Max) (open_stream σ s).
Proof.
  intros Hσ (m & Hm & Hlt)%fits_lookup. apply Forall_alter; [done|].
  intros m' Hm' [Hn Hmax]. simplify_eq. split; cbn; [lia|done].
Qed.

Lemma new_session_ok Max σ :
  Forall (session_ok Max) σ →
  Forall (session_ok Max) (σ ++ [MuxSession 0 Max false]) ∧
  Forall (session_ok Max) (open_stream (σ ++ [MuxSession 0 Max false]) (length σ)).
Proof.
  intros Hσ. split.
  - apply Forall_app. split; [done|]. constructor; [|done]. split; cbn; [lia|done].
  - unfold open_stream. rewrite alter_app_r_alt, Nat.sub_diag by done. cbn.
    apply Forall_app. split; [done|]. constructor; [|done]. split; cbn; [lia|done].
Qed.

(** A session of the pool never fits when the maximum is below 1. *)
Lemma session_ok_no_fit Max σ s : Max ≤ 0 → Forall (session_ok Max) σ → ¬ fits σ s.
Proof.
  intros HMax Hσ (m & Hm & Hlt)%fits_lookup.
  destruct (Forall_lookup_1 _ _ _ _ Hσ Hm) as [Hn Hmax]. lia.
Qed.

Section Dial.
Variable growcap : nat → nat → nat.
Variable MaxMWSSStreamCnt : Z.

Local Abbreviation Dial := (Pool.Dial growcap MaxMWSSStreamCnt).
Local Abbreviation run := (Pool.run growcap MaxMWSSStreamCnt).
Local Abbreviation ok := (session_ok MaxMWSSStreamCnt).

Lemma create_session_ok st addr io h sessions ev1 :
  Forall ok (objs st) →
  Forall ok (objs (create growcap MaxMWSSStreamCnt st addr io h sessions ev1).1.1).
Proof.
  intros Hσ. destruct (new_session_ok MaxMWSSStreamCnt (objs st) Hσ) as [Hnew Hopen].
  unfold create. destruct (io_initSession io); [done|].
  destruct (io_GetConn io); cbn [fst objs]; [by apply Close_session_ok|done].
Qed.

Lemma Dial_session_ok st addr io :
  Forall ok (objs st) → Forall ok (objs (Dial st addr io).1.1).
Proof.
  intros Hσ. rewrite Dial_fst.
  destruct (Dial_body_shape growcap MaxMWSSStreamCnt st addr io)
    as [->|[(i & s & Hscan & _ & ->)|(h & sessions & ev1 & _ & _ & ->)]]; [done| |].
  - apply scan_ok_fits in Hscan. unfold reuse.
    destruct (io_GetConn io); cbn [fst objs];
      [by apply Close_session_ok|by apply open_stream_session_ok].
  - by apply create_session_ok.
Qed.

Lemma do_step_session_ok st x :
  Forall ok (objs st) → Forall ok (objs (do_step growcap MaxMWSSStreamCnt st x).1.1).
Proof.
  intros Hσ. destruct x as [addr io|s|s]; cbn.
  - pose proof (Dial_session_ok st addr io Hσ) as Hd.
    by destruct (Dial st addr io) as [[??]?].
  - by apply stream_ends_session_ok.
  - by apply Close_session_ok.
Qed.

Lemma run_session_ok script :
  ∀ st, Forall ok (objs st) → Forall ok (objs (run st script).1.1).
Proof.
  induction script as [|x rest IH]; intros st Hσ; [done|].
  rewrite run_cons. cbn zeta. cbn [fst]. by apply IH, do_step_session_ok.
Qed.

(** X19: no session of the pool is ever over its maximum.  From the
    empty transporter, whatever calls of [Dial] are made and whatever
    streams end and sessions close in between, every session has the
    maximum [MaxMWSSStreamCnt] and a count of live streams from 0 to that
    maximum, or to 1 when the maximum is below 1: [Dial] asks a stream of
    an old session only below its maximum, and of a new one once. *)
Theorem sessions_within_maximum script :
  Forall (session_ok MaxMWSSStreamCnt) (objs (run NewMWSSTransporter script).1.1).
Proof. by apply run_session_ok. Qed.

(** X20: a maximum below 1 turns the pooling off.  On every pool reached
    from the empty transporter, [Dial] then finds no session to use again
    and calls [initSession], for a destination with sessions as for a new
    one. *)
Theorem nonpositive_maximum_never_reuses script addr io :
  MaxMWSSStreamCnt ≤ 0 →
  let st := (run NewMWSSTransporter script).1.1 in
  EvInitSession addr (io_initSession io) ∈ (Dial st addr io).2.
Proof.
  intros HMax. cbn zeta.
  set (st := (run NewMWSSTransporter script).1.1).
  assert (Forall ok (objs st)) as Hσ by (by apply run_session_ok).
  assert (pool_inv st) as Hinv by apply run_pool_inv, NewMWSSTransporter_inv.
  pose proof (Dial_not_panicked growcap MaxMWSSStreamCnt st addr io Hinv) as Hnp.
  rewrite Dial_fst in Hnp. apply Dial_trace_mem.
  destruct (Dial_body_shape growcap MaxMWSSStreamCnt st addr io)
    as [Hb|[(i & s & Hscan & _ & _)|(h & sessions & ev1 & _ & _ & ->)]].
  - by rewrite Hb in Hnp.
  - apply scan_ok_fits in Hscan.
    by apply (session_ok_no_fit MaxMWSSStreamCnt) in Hscan.
  - unfold create. destruct (io_initSession io); [|destruct (io_GetConn io)];
      cbn [snd]; apply elem_of_app; right; apply list_elem_of_here.
Qed.

Lemma Dial_then_close_stream st addr io conn :
  wf st → Forall ok (objs st) →
  (Dial st addr io).1.2 = Returned conn →
  let st' := close_stream conn (Dial st addr io).1.1 in
  NumStreams (objs st') (conn_session conn) = conn_stream conn - 1 ∧
  ((conn_session conn < length (objs st))%nat → st' = st).
Proof.
  intros Hwf Hσ. cbn zeta. rewrite Dial_fst. unfold close_stream.
  destruct (Dial_body_shape growcap MaxMWSSStreamCnt st addr io)
    as [->|[(i & s & Hscan & _ & ->)|(h & sessions & ev1 & _ & Hsl & ->)]]; [done| |].
  - destruct (scan_session st addr i s true Hwf Hscan) as (_ & _ & Hs).
    destruct (scan_in_map st addr i s true Hscan) as (s0 & Hm & Hlook).
    intros Hret.
    destruct (reuse_returned_all st addr io _ s conn Hs Hret) as (-> & _ & Hobjs & _).
    cbn [conn_session conn_stream]. rewrite Hobjs.
    assert (stream_ends (open_stream (objs st) s) s = objs st) as Hback.
    { apply stream_ends_open_stream. intros m Hl.
      by destruct (Forall_lookup_1 _ _ _ _ Hσ Hl) as [[? _] _]. }
    rewrite Hback. cbn [objs]. split; [lia|]. intros _.
    unfold reuse in *. destruct (io_GetConn io); [done|]. cbn.
    rewrite Hlook. cbn. rewrite insert_id by done. by destruct st.
  - intros Hret.
    destruct (create_returned_all growcap MaxMWSSStreamCnt st addr io h sessions ev1 conn
                (Hsl Hwf) Hret) as (-> & _ & Hobjs & _).
    cbn [conn_session conn_stream]. rewrite Hobjs. cbn [objs]. split; [|lia].
    rewrite stream_ends_open_stream.
    + unfold NumStreams. by rewrite deref_app_new.
    + intros m. rewrite lookup_app_r, Nat.sub_diag by done. by intros [= <-].
Qed.

Lemma Dial_failed_explained st addr io err :
  (Dial st addr io).1.2 = Failed err →
  io_initSession io = Some err ∨ io_GetConn io = Some err.
Proof.
  rewrite Dial_fst.
  destruct (Dial_body_shape growcap MaxMWSSStreamCnt st addr io)
    as [->|[(i & s & _ & _ & ->)|(h & sessions & ev1 & _ & _ & ->)]]; [done| |].
  - unfold reuse. destruct (io_GetConn io); cbn; [|done]. intros [= ->]. by right.
  - unfold create. destruct (io_initSession io); cbn; [intros [= ->]; by left|].
    destruct (io_GetConn io); cbn; [|done]. intros [= ->]. by right.
Qed.

(** X21: what [Dial] returns on a pool reached from the empty transporter
    is accounted for by the network: a stream only when [GetConn] gave
    one, and then on a session that is open; an error only when it is the
    error of [initSession] or of [GetConn].  So when both answer, [Dial]
    returns a stream, whatever sessions of the pool are full or closed. *)
Theorem Dial_outcome_from_network script addr io :
  let st := (run NewMWSSTransporter script).1.1 in
  let d := Dial st addr io in
  outcome_explained io (objs d.1.1) d.1.2 ∧
  (io_initSession io = None → io_GetConn io = None → ∃ conn, d.1.2 = Returned conn).
Proof.
  cbn zeta. set (st := (run NewMWSSTransporter script).1.1).
  assert (pool_inv st) as Hinv by apply run_pool_inv, NewMWSSTransporter_inv.
  pose proof (Dial_not_panicked growcap MaxMWSSStreamCnt st addr io Hinv) as Hnp.
  assert (outcome_explained io (objs (Dial st addr io).1.1) (Dial st addr io).1.2) as Hex.
  { rewrite Dial_fst in *.
    destruct (Dial_body_shape growcap MaxMWSSStreamCnt st addr io)
      as [Hb|[(i & s & Hscan & Hopen & ->)|(h & sessions & ev1 & _ & _ & ->)]].
    - by rewrite Hb in Hnp.
    - unfold reuse. destruct (io_GetConn io) as [err|] eqn:Hget; cbn; [by right|].
      split; [done|]. by rewrite IsClosed_open_stream.
    - unfold create. destruct (io_initSession io) as [err|] eqn:Hinit; cbn; [by left|].
      destruct (io_GetConn io) as [err|] eqn:Hget; cbn; [by right|].
      split; [done|]. rewrite IsClosed_open_stream. unfold IsClosed.
      by rewrite deref_app_new. }
  split; [done|]. intros Hinit Hget.
  destruct (Dial st addr io).1.2 as [conn|err|]; [by eauto| |done].
  cbn in Hex. destruct Hex; congruence.
Qed.

End Dial.

Lemma Dial_outcome_from_network_witness :
  ∃ conn,
    (Pool.Dial double_cap 2
       (Pool.run double_cap 2 NewMWSSTransporter
          [StepDial "D" io_ok; StepSessionCloses 0]).1.1 "D" io_ok).1.2
    = Returned conn.
Proof.
  exact (proj2 (Dial_outcome_from_network double_cap 2
    [StepDial "D" io_ok; StepSessionCloses 0] "D" io_ok) eq_refl eq_refl).
Defined.

Lemma nonpositive_maximum_never_reuses_witness :
  EvInitSession "D" None ∈
    (Pool.Dial double_cap 0
       (Pool.run double_cap 0 NewMWSSTransporter [StepDial "D" io_ok; StepStreamEnds 0]).1.1
       "D" io_ok).2.
Proof.
  apply (nonpositive_maximum_never_reuses double_cap 0
           [StepDial "D" io_ok; StepStreamEnds 0] "D" io_ok). lia.
Defined.

End PoolBounds.

(** * The client handler on the pool *)
Module RelayMore.
Import Pool PoolProps PoolInvariant PoolBounds Relay RelayProps.

Section Handlers.
Variable growcap : nat → nat → nat.
Variable MaxMWSSStreamCnt : Z.
Variable RemoteTCPAddr : string.

(** X22: on a pool reached from the empty transporter the client
    handler never panics and ends in one of two ways.  Either [Dial]
    failed: the handler returns that error, which [initSession] or
    [GetConn] gave, nothing was relayed, only the client connection is
    closed, and the pool is as [Dial] left it.  Or the handler relays
    between the stream and the client connection and then closes the
    stream first and the client connection last; the pool is then as
    [Dial] left it but for the stream, which has ended: its session
    carries one live stream less than when [Dial] returned, and when
    that session existed before the call the pool is exactly as it was
    before the call. *)
Theorem handleTcpOverMWSS_on_pool script c io :
  let tr := (run growcap MaxMWSSStreamCnt NewMWSSTransporter script).1.1 in
  let h := handleTcpOverMWSS growcap MaxMWSSStreamCnt RemoteTCPAddr tr c io in
  let dc := DeadLinerConn (TCPConn c) in
  let addr := RemoteTCPAddr +:+ "/tcp/" in
  let d := Dial growcap MaxMWSSStreamCnt tr addr io in
  (∃ err, h.1.2 = HReturn (Some err) ∧
          (io_initSession io = Some err ∨ io_GetConn io = Some err) ∧
          h.2 = [HDial addr; HClose dc] ∧
          h.1.1 = d.1.1) ∨
  (∃ conn, h.1.2 = HReturn None ∧ d.1.2 = Returned conn ∧
           h.2 = [HDial addr; HTransport (PoolStream conn) dc;
                  HClose (PoolStream conn); HClose dc] ∧
           h.1.1 = close_stream conn d.1.1 ∧
           NumStreams (objs h.1.1) (conn_session conn) = conn_stream conn - 1 ∧
           ((conn_session conn < length (objs tr))%nat → h.1.1 = tr)).
Proof.
  cbn zeta. set (tr := (run growcap MaxMWSSStreamCnt NewMWSSTransporter script).1.1).
  set (addr := RemoteTCPAddr +:+ "/tcp/").
  assert (pool_inv tr) as Hinv by apply run_pool_inv, NewMWSSTransporter_inv.
  assert (Forall (session_ok MaxMWSSStreamCnt) (objs tr)) as Hσ
    by (by apply run_session_ok).
  pose proof (Dial_not_panicked growcap MaxMWSSStreamCnt tr addr io Hinv) as Hnp.
  pose proof (Dial_failed_explained growcap MaxMWSSStreamCnt tr addr io) as Hex.
  pose proof (λ conn, Dial_then_close_stream growcap MaxMWSSStreamCnt tr addr io conn
                        (inv_wf _ Hinv) Hσ) as Hclose.
  unfold handleTcpOverMWSS. cbn zeta. fold addr.
  destruct (Dial growcap MaxMWSSStreamCnt tr addr io) as [[tr' out] ev].
  cbn [fst snd] in *. destruct out as [conn|err|]; [| |done].
  - right. exists conn. destruct (Hclose conn eq_refl) as [Hn Hsame]. done.
  - left. exists err. split_and!; [done| |done..]. by apply Hex.
Qed.

End Handlers.

Lemma handleTcpOverMWSS_on_pool_witness :
  let tr := (run GoSlice.double_cap 2 NewMWSSTransporter [StepDial "r:443/tcp/" io_ok]).1.1 in
  (handleTcpOverMWSS GoSlice.double_cap 2 "r:443" tr 7 io_ok).1.1 = tr.
Proof.
  cbn zeta.
  destruct (handleTcpOverMWSS_on_pool GoSlice.double_cap 2 "r:443"
              [StepDial "r:443/tcp/" io_ok] 7 io_ok)
    as [(err & Hret & _)|(conn & _ & Hd & _ & _ & _ & Hsame)].
  - discriminate Hret.
  - apply Hsame. vm_compute in Hd. injection Hd as <-. vm_compute. lia.
Defined.

End RelayMore.

(** * Sessions are not shared between destinations *)
Module PoolSharing.
Import GoSlice GoSliceProps Pool PoolProps PoolInvariant.

Lemma elem_of_list_inserts {A} (x : A) i k l :
  x ∈ list_inserts i k l → x ∈ l ∨ x ∈ k.
Proof.
  intros [j Hj]%list_elem_of_lookup_1.
  apply list_lookup_inserts_Some in Hj as [[_ Hl]|(_ & _ & Hk)].
  - left. by eapply list_elem_of_lookup_2.
  - right. by eapply list_elem_of_lookup_2.
Qed.

Lemma elem_of_sl_elems h s (p : ptr) : p ∈ sl_elems h s → p ∈ array_at h (sl_arr s).
Proof. unfold sl_elems. apply subseteq_take. Qed.

Lemma owns_refl h0 loc0 (P : sid → Prop) :
  (∀ l0 s, loc0 = Some l0 → Some s ∈ array_at h0 l0 → P s) → owns h0 loc0 P h0.
Proof.
  intros HP. split_and!; [done|done|].
  intros a s [Ha|Ha] Hin.
  - by eapply HP.
  - rewrite array_at_out in Hin by done. by apply elem_of_nil in Hin.
Qed.

Section Dial.
Variable growcap : nat → nat → nat.
Variable MaxMWSSStreamCnt : Z.

(** [append] to a slice of the destination writes to its array or to a
    new one. *)
Lemma append_owns h0 loc0 (P : sid → Prop) h s vals :
  owns h0 loc0 P h →
  (Some (sl_arr s) = loc0 ∨ (length h0 ≤ sl_arr s)%nat) ∨
    (sl_len s = 0%nat ∧ (sl_cap s < length vals)%nat) →
  (∀ x, Some x ∈ vals → P x) →
  owns h0 loc0 P (append growcap h s vals).1.
Proof.
  intros (Hlen & Hframe & HP) Hloc Hvals. unfold append. cbn zeta.
  case_decide as Hroom; cbn [fst].
  - destruct Hloc as [Hloc|[Hz Hc]]; [|lia].
    split_and!; [by rewrite length_alter| |].
    + intros a Ha Hne. rewrite array_at_alter_ne; [by apply Hframe|].
      intros <-. destruct Hloc; [done|lia].
    + intros a x Ha Hin. destruct (decide (sl_arr s = a)) as [<-|Hne].
      * rewrite array_at_alter_eq in Hin.
        apply elem_of_list_inserts in Hin as [Hin|Hin]; [by eapply HP|by apply Hvals].
      * rewrite array_at_alter_ne in Hin by done. by eapply HP.
  - split_and!; [rewrite length_app; lia| |].
    + intros a Ha Hne. rewrite array_at_app_old by lia. by apply Hframe.
    + intros a x Ha Hin. destruct (decide (a < length h)%nat) as [Hlt|Hge].
      { rewrite array_at_app_old in Hin by done. by eapply HP. }
      destruct (decide (a = length h)) as [->|Hne].
      * rewrite array_at_app_new in Hin.
        apply elem_of_app in Hin as [Hin|Hin].
        { destruct Hloc as [Hloc|[Hz _]].
          - apply elem_of_sl_elems in Hin. by apply (HP (sl_arr s)).
          - unfold sl_elems in Hin. rewrite Hz in Hin. by apply elem_of_nil in Hin. }
        apply elem_of_app in Hin as [Hin|Hin]; [by apply Hvals|].
        by apply elem_of_replicate_inv in Hin.
      * rewrite array_at_out in Hin by (rewrite length_app; cbn; lia).
        by apply elem_of_nil in Hin.
Qed.

Lemma create_written st addr io h sessions ev1 :
  let loc0 := sl_arr <$> tr_sessions st !! addr in
  owns (arrays st) loc0 (session_of st addr) h →
  (Some (sl_arr sessions) = loc0 ∨ (length (arrays st) ≤ sl_arr sessions)%nat) ∨
    (sl_len sessions = 0%nat ∧ sl_cap sessions = 0%nat) →
  written st (create growcap MaxMWSSStreamCnt st addr io h sessions ev1).1.1 addr.
Proof.
  cbn zeta. intros Hown Hloc. unfold written, create. cbn zeta.
  destruct (io_initSession io); cbn [fst arrays tr_sessions]; [by auto|].
  assert (owns (arrays st) (sl_arr <$> tr_sessions st !! addr) (session_of st addr)
            (append growcap h sessions [Some (length (objs st))]).1) as Hown'.
  { apply append_owns; [done| |].
    - destruct Hloc as [?|[? ->]]; [by left|right]. cbn. lia.
    - intros x [= ->]%list_elem_of_singleton. by right. }
  destruct (io_GetConn io); cbn [fst arrays tr_sessions]; [by auto|].
  split; [done|]. right. eexists. split; [done|].
  destruct (append_arr growcap h sessions [Some (length (objs st))]) as [[-> Hroom]| ->].
  - destruct Hloc as [?|[Hz Hc]]; [done|]. cbn in Hroom. lia.
  - right. apply Hown.
Qed.

Lemma Dial_body_written st addr io :
  wf st → written st (Dial_body growcap MaxMWSSStreamCnt st addr io).1.1 addr.
Proof.
  intros Hwf. rewrite Dial_body_paths. cbn zeta.
  pose proof (lookup_sessions_wf st addr Hwf) as Hsl.
  assert (owns (arrays st) (sl_arr <$> tr_sessions st !! addr) (session_of st addr)
            (arrays st)) as Hrefl.
  { apply owns_refl. intros l0 s Hl0 Hin. left.
    destruct (tr_sessions st !! addr) as [s0|]; [|done].
    cbn in Hl0. simplify_eq. by eauto. }
  assert (written st st addr) as Hsame by (split; [done|by left]).
  assert (∀ ev1, written st
            (create growcap MaxMWSSStreamCnt st addr io (arrays st)
               (lookup_sessions st addr).1 ev1).1.1 addr) as Hcreate.
  { intros ev1. apply create_written; [done|].
    unfold lookup_sessions. destruct (tr_sessions st !! addr); cbn; [by auto|].
    right. done. }
  destruct (scan st addr) as [i [s|] ok|] eqn:Hscan; [| |done].
  - destruct (scan_in_map st addr i s ok Hscan) as (s0 & Hm & Hlook).
    destruct (scan_session st addr i s ok Hwf Hscan) as (Hi & _ & _).
    rewrite Hlook in *. cbn [fst] in *.
    destruct (IsClosed (objs st) s).
    + destruct (evict_spec growcap _ _ i Hsl Hi) as (Hhdr & _).
      apply create_written.
      * unfold evict. apply append_owns; [done| |].
        -- left. left. by rewrite Hm.
        -- intros x Hin. left. exists s0. split; [done|].
           unfold slice_from in Hin. apply subseteq_drop in Hin.
           by apply elem_of_sl_elems in Hin.
      * left. left. by rewrite Hhdr, Hm.
    + destruct ok; [|apply Hcreate].
      unfold reuse, written. destruct (io_GetConn io); cbn [fst arrays tr_sessions].
      * by auto.
      * split; [done|]. left. by apply insert_id.
  - destruct ok; [done|]. apply Hcreate.
Qed.

Lemma Dial_unshared st addr io :
  pool_inv st → unshared st →
  unshared (Dial growcap MaxMWSSStreamCnt st addr io).1.1.
Proof.
  intros Hinv Hun. pose proof (inv_wf _ Hinv) as Hwf.
  rewrite Dial_fst.
  destruct (Dial_body_written st addr io Hwf) as [(Hlen & Hframe & HP) Hmap].
  set (st' := (Dial_body growcap MaxMWSSStreamCnt st addr io).1.1) in *.
  (* a destination other than [addr] keeps its slice and its array *)
  assert (∀ x slx, x ≠ addr → tr_sessions st' !! x = Some slx →
            tr_sessions st !! x = Some slx ∧
            array_at (arrays st') (sl_arr slx) = array_at (arrays st) (sl_arr slx))
    as Hother.
  { intros x slx Hne Hx.
    assert (tr_sessions st !! x = Some slx) as Hx0.
    { destruct Hmap as [Hmap|(sl & Hmap & _)]; rewrite Hmap in Hx; [done|].
      by rewrite lookup_insert_ne in Hx. }
    split; [done|]. apply Hframe; [by eapply inv_alloc|].
    destruct (tr_sessions st !! addr) as [s0|] eqn:Hm; [|done]. cbn.
    intros [= Heq]. by apply (inv_sep _ Hinv x addr slx s0). }
  (* the sessions of [addr] are its old ones and the new one *)
  assert (∀ slx s, tr_sessions st' !! addr = Some slx →
            Some s ∈ array_at (arrays st') (sl_arr slx) → session_of st addr s) as Hself.
  { intros slx s Hx. apply HP.
    destruct Hmap as [Hmap|(sl & Hmap & Hloc)]; rewrite Hmap in Hx.
    - left. by rewrite Hx.
    - rewrite lookup_insert_eq in Hx. by simplify_eq. }
  (* a session of [addr] is in the array of no other destination *)
  assert (∀ b slb s, b ≠ addr → tr_sessions st !! b = Some slb →
            session_of st addr s →
            Some s ∉ array_at (arrays st) (sl_arr slb)) as Hsep.
  { intros b slb s Hne Hb [(s0 & Hm & Hin)| ->].
    - by apply (Hun addr b s0 slb s).
    - intros Hin.
      pose proof (array_at_valid (objs st) (arrays st) (sl_arr slb) (wf_ptrs _ Hwf)) as Hv.
      rewrite Forall_forall in Hv. specialize (Hv _ Hin _ eq_refl). lia. }
  intros a b sla slb s Hne Ha Hb Hin.
  destruct (decide (a = addr)) as [->|Haddr].
  - destruct (Hother b slb (not_eq_sym Hne) Hb) as [Hb0 ->].
    apply (Hsep b slb s); [by apply not_eq_sym|done|by eapply Hself].
  - destruct (Hother a sla Haddr Ha) as [Ha0 Harr]. rewrite Harr in Hin.
    destruct (decide (b = addr)) as [->|Hbaddr].
    + intros Hin'. by apply (Hsep a sla s Haddr Ha0 (Hself slb s Hb Hin')).
    + destruct (Hother b slb Hbaddr Hb) as [Hb0 ->]. by apply (Hun a b sla slb s).
Qed.

Lemma do_step_unshared st x :
  pool_inv st → unshared st → unshared (do_step growcap MaxMWSSStreamCnt st x).1.1.
Proof.
  intros Hinv Hun. destruct x as [addr io|s|s]; cbn; [|done..].
  pose proof (Dial_unshared st addr io Hinv Hun) as Hd.
  by destruct (Dial growcap MaxMWSSStreamCnt st addr io) as [[??]?].
Qed.

Lemma run_unshared script :
  ∀ st, pool_inv st → unshared st →
  unshared (run growcap MaxMWSSStreamCnt st script).1.1.
Proof.
  induction script as [|x rest IH]; intros st Hinv Hun; [done|].
  rewrite run_cons. cbn zeta. cbn [fst].
  apply IH; [by apply do_step_pool_inv|by apply do_step_unshared].
Qed.

(** X23: no session serves two destinations.  From the empty
    transporter, whatever calls of [Dial] are made and whatever ends or
    closes in between, a session of the sequence stored for one
    destination is not in the sequence stored for another: the streams
    [Dial] gives for a destination are on sessions opened for it. *)
Theorem sessions_not_shared script a b la lb s :
  a ≠ b →
  let st := (run growcap MaxMWSSStreamCnt NewMWSSTransporter script).1.1 in
  stored st a = Some la → stored st b = Some lb →
  Some s ∈ la → Some s ∉ lb.
Proof.
  intros Hne. cbn zeta.
  set (st := (run growcap MaxMWSSStreamCnt NewMWSSTransporter script).1.1).
  assert (unshared st) as Hun.
  { apply run_unshared; [apply NewMWSSTransporter_inv|].
    intros ???? ? _ Hm. cbn in Hm. by rewrite lookup_empty in Hm. }
  unfold stored. intros Ha Hb.
  destruct (tr_sessions st !! a) as [sla|] eqn:Hma; [|done].
  destruct (tr_sessions st !! b) as [slb|] eqn:Hmb; [|done].
  cbn in Ha, Hb. simplify_eq. intros Hin Hin'.
  apply elem_of_sl_elems in Hin, Hin'. by apply (Hun a b sla slb s).
Qed.

End Dial.

Lemma sessions_not_shared_witness :
  Some 0%nat ∉ [Some 1%nat; Some 2%nat].
Proof.
  exact (sessions_not_shared double_cap 1
    [StepDial "A" io_ok; StepDial "B" io_ok; StepDial "B" io_ok]
    "A" "B" [Some 0%nat] [Some 1%nat; Some 2%nat] 0%nat
    ltac:(done) eq_refl eq_refl ltac:(apply list_elem_of_here)).
Defined.

End PoolSharing.
